(** * Portfolio page scripts: reveal animations, form validation, project modal

  A shallow embedding of the two scripts of the portfolio page
  ([animation.js] with [ScrollAnimator], and the main script with
  [PortfolioApp]) over an explicit model of the parts of the browser
  they talk to: the class lists of the document, the timer queue, the
  intersection observer and the record of calls made to the browser. *)

From Stdlib Require Import ZArith QArith Qabs Qround Qpower List String Ascii Bool
  Lia.
From stdpp Require Import base gmap list strings.

#[local] Set Warnings "-clear-no-such-hyp".
Local Open Scope string_scope.
Local Open Scope list_scope.

(** ** ECMAScript strings *)

Module JsString.

(** A string value is a sequence of UTF-16 code units. *)
Definition jsstring := list N.

(** The literals turned into code units are ASCII. *)
Definition lit (s : string) : jsstring :=
  map N_of_ascii (list_ascii_of_string s).

(** [WhiteSpace] and [LineTerminator] code points: what
    [String.prototype.trim] strips and what [\s] matches. *)
Definition is_white_space (c : N) : bool :=
  ((9 <=? c) && (c <=? 13) || (c =? 32) || (c =? 160) || (c =? 5760)
   || (8192 <=? c) && (c <=? 8202) || (c =? 8232) || (c =? 8233)
   || (c =? 8239) || (c =? 8287) || (c =? 12288) || (c =? 65279))%N.

Fixpoint trimStart (s : jsstring) : jsstring :=
  match s with
  | [] => []
  | c :: s' => if is_white_space c then trimStart s' else s
  end.

Definition trimEnd (s : jsstring) : jsstring := rev (trimStart (rev s)).

Definition trim (s : jsstring) : jsstring := trimEnd (trimStart s).

(** [!value] for a string: only the empty string is falsy. *)
Definition falsy (s : jsstring) : bool :=
  match s with [] => true | _ => false end.

End JsString.

(** ** Regular expressions over code units *)

Module Regex.
Import JsString.

(** Character classes as they occur in the pattern of the script. *)
Inductive cset :=
| CChar (c : N)             (* a literal character *)
| CSpace                    (* \s *)
| CUnion (a b : cset)
| CNot (a : cset).          (* [^...] *)

Fixpoint cset_mem (cs : cset) (c : N) : bool :=
  match cs with
  | CChar d => N.eqb c d
  | CSpace => is_white_space c
  | CUnion a b => cset_mem a c || cset_mem b c
  | CNot a => negb (cset_mem a c)
  end.

Inductive regex :=
| RNone
| REps
| RSet (cs : cset)
| RCat (r1 r2 : regex)
| RAlt (r1 r2 : regex)
| RStar (r : regex).

(** [r+] *)
Definition RPlus (r : regex) : regex := RCat r (RStar r).

Fixpoint nullable (r : regex) : bool :=
  match r with
  | RNone => false
  | REps => true
  | RSet _ => false
  | RCat r1 r2 => nullable r1 && nullable r2
  | RAlt r1 r2 => nullable r1 || nullable r2
  | RStar _ => true
  end.

Fixpoint deriv (c : N) (r : regex) : regex :=
  match r with
  | RNone => RNone
  | REps => RNone
  | RSet cs => if cset_mem cs c then REps else RNone
  | RCat r1 r2 =>
      if nullable r1 then RAlt (RCat (deriv c r1) r2) (deriv c r2)
      else RCat (deriv c r1) r2
  | RAlt r1 r2 => RAlt (deriv c r1) (deriv c r2)
  | RStar r1 => RCat (deriv c r1) (RStar r1)
  end.

(** Whole-input match: what [test] computes for a pattern written
    between [^] and [$] without the multiline flag. *)
Fixpoint matches (r : regex) (s : jsstring) : bool :=
  match s with
  | [] => nullable r
  | c :: s' => matches (deriv c r) s'
  end.

(** The language of a pattern, declaratively. *)
Inductive lang : regex -> jsstring -> Prop :=
| LEps : lang REps []
| LSet cs c : cset_mem cs c = true -> lang (RSet cs) [c]
| LCat r1 r2 s1 s2 : lang r1 s1 -> lang r2 s2 -> lang (RCat r1 r2) (s1 ++ s2)
| LAltL r1 r2 s : lang r1 s -> lang (RAlt r1 r2) s
| LAltR r1 r2 s : lang r2 s -> lang (RAlt r1 r2) s
| LStarNil r : lang (RStar r) []
| LStarCons r s1 s2 :
    lang r s1 -> lang (RStar r) s2 -> lang (RStar r) (s1 ++ s2).

End Regex.

(** ** The document and the browser services the scripts use *)

Module Dom.
Import JsString.

(** Elements are identified by node identity. *)
Abbreviation elem := nat.

(** *** DOMTokenList: an ordered set of class tokens *)

Definition token_add (t : string) (l : list string) : list string :=
  if decide (t ∈ l) then l else l ++ [t].

Definition tokens_add (ts l : list string) : list string :=
  fold_left (fun acc t => token_add t acc) ts l.

Definition tokens_remove (ts l : list string) : list string :=
  filter (fun t => t ∉ ts) l.

Definition token_toggle (t : string) (l : list string) : list string :=
  if decide (t ∈ l) then tokens_remove [t] l else l ++ [t].

(** *** Form controls *)

Record input := {
  in_type : string;             (* field.type *)
  in_value : jsstring;          (* field.value *)
  in_default : jsstring;        (* the value form.reset() restores *)
  in_required : bool            (* field.required *)
}.

Definition input_set_value (v : jsstring) (i : input) : input :=
  {| in_type := in_type i; in_value := v; in_default := in_default i;
   in_required := in_required i |}.

(** *** The document

    [attached] lists the elements connected to the document in tree
    order, the order in which [querySelector] and [querySelectorAll]
    visit them, and [parentNode] gives the tree.  The elements of class
    [field-error] are kept apart: none of them is listed in [attached],
    and [errors] gives for each container the boxes appended to it, in
    the order they were appended, so they are the last children of the
    container.  They carry no other class, so no other selector of the
    scripts matches them. *)

Record document := {
  classes : gmap nat (list string)           (* element.classList *);
  attached : list elem                       (* connected elements, tree order *);
  parentNode : gmap nat nat                  (* element.parentNode *);
  text : gmap nat string                     (* element.textContent *);
  inputs : gmap nat input                    (* form controls *);
  disabled : gmap nat bool                   (* button.disabled *);
  transform : gmap nat string                (* element.style.transform *);
  opacity : gmap nat string                  (* element.style.opacity *);
  errors : gmap nat (list elem)              (* .field-error boxes appended per container *);
  modal : gmap nat string                    (* the string assigned to modal.innerHTML *);
  body_overflow : string                     (* document.body.style.overflow *)
}.

Definition set_classes (f : gmap nat (list string) -> gmap nat (list string)) (d : document) : document :=
{| classes := f (classes d); attached := attached d;
   parentNode := parentNode d; text := text d; inputs := inputs d;
   disabled := disabled d; transform := transform d;
   opacity := opacity d; errors := errors d; modal := modal d;
   body_overflow := body_overflow d |}.

Definition set_attached (f : list elem -> list elem) (d : document) : document :=
{| classes := classes d; attached := f (attached d);
   parentNode := parentNode d; text := text d; inputs := inputs d;
   disabled := disabled d; transform := transform d;
   opacity := opacity d; errors := errors d; modal := modal d;
   body_overflow := body_overflow d |}.

Definition set_parentNode (f : gmap nat nat -> gmap nat nat) (d : document) : document :=
{| classes := classes d; attached := attached d;
   parentNode := f (parentNode d); text := text d; inputs := inputs d;
   disabled := disabled d; transform := transform d;
   opacity := opacity d; errors := errors d; modal := modal d;
   body_overflow := body_overflow d |}.

Definition set_text (f : gmap nat string -> gmap nat string) (d : document) : document :=
{| classes := classes d; attached := attached d;
   parentNode := parentNode d; text := f (text d); inputs := inputs d;
   disabled := disabled d; transform := transform d;
   opacity := opacity d; errors := errors d; modal := modal d;
   body_overflow := body_overflow d |}.

Definition set_inputs (f : gmap nat input -> gmap nat input) (d : document) : document :=
{| classes := classes d; attached := attached d;
   parentNode := parentNode d; text := text d; inputs := f (inputs d);
   disabled := disabled d; transform := transform d;
   opacity := opacity d; errors := errors d; modal := modal d;
   body_overflow := body_overflow d |}.

Definition set_disabled (f : gmap nat bool -> gmap nat bool) (d : document) : document :=
{| classes := classes d; attached := attached d;
   parentNode := parentNode d; text := text d; inputs := inputs d;
   disabled := f (disabled d); transform := transform d;
   opacity := opacity d; errors := errors d; modal := modal d;
   body_overflow := body_overflow d |}.

Definition set_transform (f : gmap nat string -> gmap nat string) (d : document) : document :=
{| classes := classes d; attached := attached d;
   parentNode := parentNode d; text := text d; inputs := inputs d;
   disabled := disabled d; transform := f (transform d);
   opacity := opacity d; errors := errors d; modal := modal d;
   body_overflow := body_overflow d |}.

Definition set_opacity (f : gmap nat string -> gmap nat string) (d : document) : document :=
{| classes := classes d; attached := attached d;
   parentNode := parentNode d; text := text d; inputs := inputs d;
   disabled := disabled d; transform := transform d;
   opacity := f (opacity d); errors := errors d; modal := modal d;
   body_overflow := body_overflow d |}.

Definition set_errors (f : gmap nat (list elem) -> gmap nat (list elem)) (d : document) : document :=
{| classes := classes d; attached := attached d;
   parentNode := parentNode d; text := text d; inputs := inputs d;
   disabled := disabled d; transform := transform d;
   opacity := opacity d; errors := f (errors d); modal := modal d;
   body_overflow := body_overflow d |}.

Definition set_modal (f : gmap nat string -> gmap nat string) (d : document) : document :=
{| classes := classes d; attached := attached d;
   parentNode := parentNode d; text := text d; inputs := inputs d;
   disabled := disabled d; transform := transform d;
   opacity := opacity d; errors := errors d; modal := f (modal d);
   body_overflow := body_overflow d |}.

Definition set_body_overflow (f : string -> string) (d : document) : document :=
{| classes := classes d; attached := attached d;
   parentNode := parentNode d; text := text d; inputs := inputs d;
   disabled := disabled d; transform := transform d;
   opacity := opacity d; errors := errors d; modal := modal d;
   body_overflow := f (body_overflow d) |}.

(** [element.classList] read as a list; an element never given a class
    has the empty list. *)
Definition classList (d : document) (e : elem) : list string :=
  default [] (classes d !! e).

Definition contains (d : document) (e : elem) (t : string) : bool :=
  bool_decide (t ∈ classList d e).

Definition classList_add (e : elem) (ts : list string) (d : document) : document :=
  set_classes (fun m => <[e := tokens_add ts (classList d e)]> m) d.

Definition classList_remove (e : elem) (ts : list string) (d : document) : document :=
  set_classes (fun m => <[e := tokens_remove ts (classList d e)]> m) d.

Definition classList_toggle (e : elem) (t : string) (d : document) : document :=
  set_classes (fun m => <[e := token_toggle t (classList d e)]> m) d.

(** [document.body]: the node every page has. *)
Definition body : elem := 0.

(** Every node the document has a record of. *)
Definition known (d : document) : gset nat :=
dom (classes d) ∪ list_to_set (attached d) ∪ dom (parentNode d)
∪ dom (text d) ∪ dom (inputs d) ∪ dom (disabled d) ∪ dom (transform d)
∪ dom (opacity d) ∪ dom (errors d) ∪ dom (modal d)
∪ list_to_set (concat (map snd (map_to_list (errors d))))
∪ list_to_set (map snd (map_to_list (parentNode d)))
∪ {[body]}.

(** [document.createElement] followed by the assignment of [className]:
    a node that did not exist before, with exactly the given tokens. *)
Definition createElement (ts : list string) (d : document) : elem * document :=
  let e := fresh (known d) in
  (e, set_classes (fun m => <[e := tokens_add ts []]> m) d).

(** [document.body.appendChild(e)]: [e] becomes last in tree order. *)
Definition appendToBody (e : elem) (d : document) : document :=
  set_attached (fun l => filter (fun x => x ≠ e) l ++ [e]) d.

(** [e.remove()] *)
Definition remove (e : elem) (d : document) : document :=
  set_attached (fun l => filter (fun x => x ≠ e) l) d.

(** [document.querySelectorAll] for a list of class selectors joined by
    commas: the attached elements carrying one of the classes. *)
Definition has_any_class (d : document) (sel : list string) (e : elem) : bool :=
  existsb (contains d e) sel.

Definition querySelectorAll (sel : list string) (d : document) : list elem :=
  List.filter (has_any_class d sel) (attached d).

Definition querySelector (sel : string) (d : document) : option elem :=
  head (querySelectorAll [sel] d).

(** [x.parentNode], followed [n] times. *)
Fixpoint ancestor (m : gmap nat nat) (n : nat) (x : elem) : option elem :=
match n with
| 0 => Some x
| S n' => match m !! x with
          | Some y => ancestor m n' y
          | None => None
          end
end.

(** The elements of [l] below [x], for [l] in tree order, each child of
    [x] after the elements below it: the order in which the children
    appended last to these elements, and then to [x], come in the tree. *)
Fixpoint below (m : gmap nat nat) (l : list elem) (x : elem) : list elem :=
match l with
| [] => []
| c :: l' =>
    (if bool_decide (m !! c = Some x) then below m l' c ++ [c] else [])
    ++ below m l' x
end.

(** [p.querySelectorAll('.field-error')]: the boxes in the subtree of
    [p], in tree order, each with the container it was appended to. *)
Definition field_errors (d : document) (p : elem) : list (elem * elem) :=
flat_map (fun x => map (pair x) (default [] (errors d !! x)))
         (below (parentNode d) (attached d) p ++ [p]).

End Dom.

(** ** Numbers

    The numbers of the language are the doubles of IEEE 754.  A number is
    kept as the rational it stands for; [round64] gives the double
    nearest to a rational, ties to the even significand: 53 bits of
    significand above [2 ^ -1022] and multiples of [2 ^ -1074] below.
    It is applied where a script reads a number the browser reports and
    to the result of an operation that is not exact.  No position of a
    page comes near the largest double, so the exponent is given no
    upper limit. *)

Module Double.

(** The whole part of the binary logarithm of a positive number. *)
Definition ilog2 (x : Q) : Z :=
let k := (Z.log2 (Qnum x) - Z.log2 (Zpos (Qden x)))%Z in
if Qle_bool (2 ^ k) x then k else (k - 1)%Z.

(** The exponent of the last bit of the significand. *)
Definition exponent (x : Q) : Z := Z.max (ilog2 (Qabs x) - 52) (-1074).

(** The nearest whole number, the even one of two equally near. *)
Definition nearest_even (q : Q) : Z :=
let f := Qfloor q in
match (q - inject_Z f ?= 1 # 2)%Q with
| Lt => f
| Gt => (f + 1)%Z
| Eq => if Z.even f then f else (f + 1)%Z
end.

Definition round64 (x : Q) : Q :=
if Qeq_bool x 0 then 0%Q
else let e := exponent x in (inject_Z (nearest_even (x / 2 ^ e)) * 2 ^ e)%Q.

(** [a * b] and [a + b] on doubles. *)
Definition mul (a b : Q) : Q := round64 (a * b).

Definition add (a b : Q) : Q := round64 (a + b).

(** The literal [0.1]. *)
Definition tenth : Q := round64 (1 # 10).

End Double.

(** ** Timers, exceptions and the record of browser calls *)

Module Browser.
Import JsString Dom.

Inductive js_error := ReferenceError | TypeError.

Inductive result (A : Type) :=
| Ok (a : A)
| Throw (e : js_error).
Arguments Ok {A} a.
Arguments Throw {A} e.

Definition bind {A B} (r : result A) (k : A -> result B) : result B :=
match r with
| Ok a => k a
| Throw e => Throw e
end.

(** The callbacks the scripts hand to [setTimeout], one constructor per
    call site; the four calls of [animateOnLoad], which differ in the
    element only, share [AHero]. *)
Inductive action :=
| AReveal (el : elem)          (* animation.js, handleIntersect, outer *)
| ASettle (el : elem)          (* animation.js, handleIntersect, inner *)
| AHero (el : elem)            (* animation.js, animateOnLoad *)
| ASubmitDone (originalText : string) (form_inputs form_controls : list elem)
    (submitButton : elem)      (* resumes handleFormSubmission *)
| ANotifIn (n : elem)          (* showNotification, slide in *)
| ANotifOut (n : elem)         (* showNotification, slide out *)
| ANotifRemove (n : elem)      (* showNotification, removal *)
| AModalIn (m : elem)          (* showProjectModal, fade in *)
| AModalRemove (m : elem)      (* closeProjectModal *)
| APageLoaded                  (* animation.js, addLoadingAnimation *)
| AAppLoaded                   (* main script, initializeLoadingState *)
| ATypewriter (heroTitle : elem). (* main script, initializeTypewriterEffect *)

Record timer := { due : Z; act : action }.

(** Calls into the browser that leave no trace in the document. *)
Inductive call :=
| CallObserve (el : elem)                  (* observer.observe(el) *)
| CallSetTimeout (a : action) (delay : Q)  (* setTimeout(a, delay) *)
| CallWindowOpen (url : string).           (* window.open(url, '_blank') *)

Record browser := {
  page : document;
  timers : list timer;           (* pending timers, in order of creation *)
  now : Z;                       (* milliseconds *)
  calls : list call;             (* oldest first *)
  hasIntersectionObserver : bool (* is window.IntersectionObserver defined *)
}.

Definition set_page f (b : browser) : browser :=
{| page := f (page b); timers := timers b; now := now b; calls := calls b;
   hasIntersectionObserver := hasIntersectionObserver b |}.

Definition record_call (c : call) (b : browser) : browser :=
{| page := page b; timers := timers b; now := now b;
   calls := calls b ++ [c];
   hasIntersectionObserver := hasIntersectionObserver b |}.

(** Truncation towards zero, and the remainder operator [%] of the
    language: the result has the sign of the dividend.  The remainder of
    two doubles is a double, so [%] is exact. *)
Definition Qtrunc (x : Q) : Z := Z.quot (Qnum x) (Zpos (Qden x)).

Definition js_rem (a b : Q) : Q := (a - b * inject_Z (Qtrunc (a / b)))%Q.

(** A timer never fires before its delay, cut to whole milliseconds and
    raised to zero when negative, has elapsed. *)
Definition timeout_ms (delay : Q) : Z := Z.max 0 (Qtrunc delay).

Definition setTimeout (a : action) (delay : Q) (b : browser) : browser :=
{| page := page b;
   timers := timers b ++ [{| due := now b + timeout_ms delay; act := a |}];
   now := now b;
   calls := calls b ++ [CallSetTimeout a delay];
   hasIntersectionObserver := hasIntersectionObserver b |}.

(** The timer that fires next: the earliest due, the oldest among equals. *)
Fixpoint pop_earliest (l : list timer) : option (timer * list timer) :=
match l with
| [] => None
| t :: l' =>
    match pop_earliest l' with
    | None => Some (t, [])
    | Some (t', rest) =>
        if (due t <=? due t')%Z then Some (t, l') else Some (t', t :: rest)
    end
end.

Definition take_timer (b : browser) : option (action * browser) :=
match pop_earliest (timers b) with
| None => None
| Some (t, rest) =>
    Some (act t,
          {| page := page b; timers := rest; now := Z.max (now b) (due t);
             calls := calls b;
             hasIntersectionObserver := hasIntersectionObserver b |})
end.

(** Time passes with no timer firing: never beyond the next due time. *)
Definition elapse (dt : Z) (b : browser) : browser :=
let target := (now b + Z.max 0 dt)%Z in
let t' := match pop_earliest (timers b) with
          | None => target
          | Some (t, _) => Z.max (now b) (Z.min target (due t))
          end in
{| page := page b; timers := timers b; now := t'; calls := calls b;
   hasIntersectionObserver := hasIntersectionObserver b |}.

End Browser.

(** ** animation.js: [ScrollAnimator] *)

Module ScrollAnimator.
Import JsString Dom Double Browser.

(** The observer object built by [createObserver], with the targets the
    browser watches for it. *)
Record intersection_observer := {
  root : option elem;        (* null: the viewport *)
  rootMargin : string;
  threshold : Q;
  targets : list elem
}.

Record t := {
  observer : option intersection_observer;   (* null until created *)
  animatedElements : gset nat;
  sweep_bound : bool;   (* DOMContentLoaded and resize listeners bound *)
  load_bound : bool     (* load listener bound *)
}.

(** What the browser reports for one target: [isIntersecting], and the top
    of the rectangle while the callback runs, which
    [getBoundingClientRect] returns as the nearest double. *)
Record entry := {
  target : elem;
  isIntersecting : bool;
  rect_top : Q
}.

Definition intents : list string :=
["animate-fade-up"; "animate-slide-up"; "animate-slide-left";
 "animate-slide-right"; "animate-zoom-in"; "animate-fade-in"].

Definition directional : list string :=
["animate-fade-up"; "animate-slide-up"; "animate-slide-left";
 "animate-slide-right"].

Definition createObserver (a : t) (b : browser) : result t :=
if hasIntersectionObserver b then
  Ok {| observer := Some {| root := None; rootMargin := "0px";
                            threshold := tenth; targets := [] |};
        animatedElements := animatedElements a;
        sweep_bound := sweep_bound a; load_bound := load_bound a |}
else Throw ReferenceError.

Definition bindEvents (a : t) : t :=
{| observer := observer a; animatedElements := animatedElements a;
   sweep_bound := true; load_bound := load_bound a |}.

Definition animateOnLoad (a : t) : t :=
{| observer := observer a; animatedElements := animatedElements a;
   sweep_bound := sweep_bound a; load_bound := true |}.

(** [this.observer.observe(el)]; a null observer raises. *)
Definition observe (el : elem) (a : t) (b : browser) : result (t * browser) :=
match observer a with
| None => Throw TypeError
| Some o =>
    let o' := {| root := root o; rootMargin := rootMargin o;
                 threshold := threshold o;
                 targets := if decide (el ∈ targets o) then targets o
                            else targets o ++ [el] |} in
    Ok ({| observer := Some o'; animatedElements := animatedElements a;
           sweep_bound := sweep_bound a; load_bound := load_bound a |},
        record_call (CallObserve el) b)
end.

Definition remember (el : elem) (a : t) : t :=
{| observer := observer a; animatedElements := {[el]} ∪ animatedElements a;
   sweep_bound := sweep_bound a; load_bound := load_bound a |}.

Definition observeElement (el : elem) (s : t * browser) : result (t * browser) :=
if decide (el ∈ animatedElements (fst s)) then Ok s
else bind (observe el (fst s) (snd s))
          (fun s' => Ok (remember el (fst s'), snd s')).

Fixpoint forEach {A S} (f : A -> S -> result S) (l : list A) (s : S) : result S :=
match l with
| [] => Ok s
| x :: l' => bind (f x s) (forEach f l')
end.

Definition observeElements (a : t) (b : browser) : result (t * browser) :=
let elements := querySelectorAll intents (page b) in
forEach observeElement elements (a, b).

Definition handleIntersect (el : elem) (top : Q) (b : browser) : browser :=
let rect_top := round64 top in
let delay := mul (js_rem rect_top 300) tenth in
setTimeout (AReveal el) delay b.

(** The callback given to the observer. *)
Definition on_entries (entries : list entry) (b : browser) : browser :=
fold_left
  (fun b en => if isIntersecting en
               then handleIntersect (target en) (rect_top en) b else b)
  entries b.

(** The browser only reports on targets the observer was given. *)
Definition deliver (a : t) (entries : list entry) (b : browser) : browser :=
match observer a with
| None => b
| Some o =>
    on_entries (List.filter (fun en => bool_decide (target en ∈ targets o))
                            entries) b
end.

(** The two timer callbacks of [handleIntersect]. *)
Definition reveal (el : elem) (b : browser) : browser :=
let b1 := set_page (classList_add el ["animate-visible"]) b in
if existsb (contains (page b1) el) directional
then setTimeout (ASettle el) 600 b1
else b1.

Definition settle (el : elem) (b : browser) : browser :=
set_page (set_transform (fun m => <[el := "none"]> m)) b.

(** The load listener of [animateOnLoad]. *)
Definition hero_timers : list (string * Q) :=
[("hero-title", 200%Q); ("hero-subtitle", 400%Q);
 ("hero-description", 600%Q); ("hero-buttons", 800%Q)].

Definition on_load (b : browser) : browser :=
fold_left
  (fun b sd => match querySelector (fst sd) (page b) with
               | Some h => setTimeout (AHero h) (snd sd) b
               | None => b
               end)
  hero_timers b.

Definition hero (el : elem) (b : browser) : browser :=
set_page (classList_add el ["animate-visible"]) b.

(** [new ScrollAnimator()] *)
Definition construct (b : browser) : result t :=
let this := {| observer := None; animatedElements := ∅;
               sweep_bound := false; load_bound := false |} in
bind (createObserver this b)
     (fun a => Ok (animateOnLoad (bindEvents a))).

End ScrollAnimator.

(** ** The loading state of the page: [PageTransitions.addLoadingAnimation] *)

Module PageTransitions.
Import Dom Browser.

(** The load listener. *)
Definition on_load (b : browser) : browser :=
setTimeout APageLoaded 1000
  (set_page (classList_add body ["page-loaded"]) b).

(** The callback of its timer. *)
Definition loading_off (b : browser) : browser :=
set_page (classList_remove body ["loading"]) b.

End PageTransitions.

(** ** The main script: [PortfolioApp] *)

Module PortfolioApp.
Import JsString Regex Dom Browser.

(** *** Field validation *)

(** [[^\s@]] *)
Definition not_space_at : cset := CNot (CUnion CSpace (CChar 64)).

(** [/^[^\s@]+@[^\s@]+\.[^\s@]+$/] *)
Definition emailRegex : regex :=
RCat (RPlus (RSet not_space_at))
 (RCat (RSet (CChar 64))
  (RCat (RPlus (RSet not_space_at))
   (RCat (RSet (CChar 46))
         (RPlus (RSet not_space_at))))).

(** [field.parentNode.querySelector('.field-error')] is the first box in
    the subtree of the container, which may sit in a container nested in
    it; [existingError.remove()] takes it out of the container it is in. *)
Definition clearFieldError (field : elem) (d : document) : document :=
match parentNode d !! field with
| None => d
| Some p =>
    match field_errors d p with
    | [] => d
    | (x, existingError) :: _ =>
        set_errors
          (fun m => <[x := filter (fun e => e ≠ existingError)
                                  (default [] (m !! x))]> m) d
    end
end.

Definition showFieldError (field : elem) (message : string) (d : document)
  : document :=
let d1 := clearFieldError field d in
let '(errorElement, d2) := createElement ["field-error"] d1 in
let d3 := set_text (fun m => <[errorElement := message]> m) d2 in
match parentNode d3 !! field with
| None => d3
| Some p =>
    set_errors (fun m => <[p := default [] (m !! p) ++ [errorElement]]> m) d3
end.

(** [validateField(e)] with [field = e.target]. *)
Definition validateField (field : elem) (b : browser) : result (bool * browser) :=
match inputs (page b) !! field with
| None => Throw TypeError
| Some i =>
    let value := trim (in_value i) in
    let b1 := set_page (classList_remove field ["error"; "success"]) b in
    if String.eqb (in_type i) "email" && negb (matches emailRegex value) then
      Ok (false,
          set_page (fun d => showFieldError field
                               "Please enter a valid email address"
                               (classList_add field ["error"] d)) b1)
    else if in_required i && falsy value then
      Ok (false,
          set_page (fun d => showFieldError field "This field is required"
                               (classList_add field ["error"] d)) b1)
    else
      Ok (true,
          set_page (fun d => clearFieldError field
                               (classList_add field ["success"] d)) b1)
end.

(** *** Notifications *)

Definition showNotification (message type : string) (b : browser) : browser :=
let d1 := match querySelector "notification" (page b) with
          | Some existingNotification => remove existingNotification (page b)
          | None => page b
          end in
let '(notification, d2) :=
  createElement ["notification"; "notification-" +:+ type] d1 in
let d3 := set_text (fun m => <[notification := message]> m) d2 in
let d4 := set_transform (fun m => <[notification := "translateX(400px)"]> m) d3 in
let d5 := appendToBody notification d4 in
setTimeout (ANotifOut notification) 5000
  (setTimeout (ANotifIn notification) 100 (set_page (fun _ => d5) b)).

Definition notif_in (n : elem) (b : browser) : browser :=
set_page (set_transform (fun m => <[n := "translateX(0)"]> m)) b.

Definition notif_out (n : elem) (b : browser) : browser :=
setTimeout (ANotifRemove n) 300
  (set_page (set_transform (fun m => <[n := "translateX(400px)"]> m)) b).

Definition notif_remove (n : elem) (b : browser) : browser :=
if decide (n ∈ attached (page b)) then set_page (remove n) b else b.

(** *** Submission *)

(** A form: its descendants in tree order and its submit button, if any. *)
Record form := {
  descendants : list elem;
  submit : option elem
}.

(** The loop over the fields.  An exception leaves the loop, and what
    the fields before it were given stays. *)
Fixpoint validateAll (inputs : list elem) (isValid : bool) (b : browser)
  : browser * result bool :=
match inputs with
| [] => (b, Ok isValid)
| input :: rest =>
    match validateField input b with
    | Ok (r, b') => validateAll rest (if r then isValid else false) b'
    | Throw e => (b, Throw e)
    end
end.

(** [form.reset()]: every control goes back to its default value. *)
Definition form_reset (controls : list elem) (d : document) : document :=
set_inputs
  (fun m => fold_left
              (fun m c => alter (fun i => input_set_value (in_default i) i) c m)
              controls m) d.

Definition handleFormSubmission (f : form) (b : browser)
  : browser * result unit :=
match submit f with
| None => (b, Throw TypeError)
| Some submitButton =>
    let originalText := default "" (text (page b) !! submitButton) in
    let inputs := List.filter (fun e => contains (page b) e "form-input")
                              (descendants f) in
    match validateAll inputs true b with
    | (b0, Throw e) => (b0, Throw e)
    | (b0, Ok isValid) =>
        if negb isValid then
          (showNotification "Please fix the errors in the form" "error" b0,
           Ok tt)
        else
          let b1 := set_page (set_text
                      (fun m => <[submitButton := "Sending..."]> m)) b0 in
          let b2 := set_page (set_disabled
                      (fun m => <[submitButton := true]> m)) b1 in
          (setTimeout
             (ASubmitDone originalText inputs (descendants f) submitButton)
             2000 b2,
           Ok tt)
    end
end.

(** What runs once the awaited timer has fired: the rest of the [try]
    block, then the [finally] block. *)
Definition submit_done (originalText : string) (inputs controls : list elem)
  (submitButton : elem) (b : browser) : browser :=
let b1 := showNotification
            "Message sent successfully! I'll get back to you soon." "success" b in
let b2 := set_page (form_reset controls) b1 in
let b3 := fold_left (fun b input =>
                       set_page (classList_remove input ["success"]) b)
                    inputs b2 in
let b4 := set_page (set_text (fun m => <[submitButton := originalText]> m)) b3 in
set_page (set_disabled (fun m => <[submitButton := false]> m)) b4.

(** *** Project modal *)

(** What the handler reads off the project card: the text of
    [.project-title] and of [.project-description], the texts of the
    [.tech-tag] elements and the [src] of the image; a part that is not in
    the card is [None]. *)
Record card := {
  project_title : option string;
  project_description : option string;
  tech_tags : list string;
  img_src : option string
}.

Record detail := {
  overview : string;
  features : list string;
  challenges : string;
  demoLink : string;
  githubLink : string
}.

(** The value of [projectDetails[title]] when it is not [undefined]: one
    of the records of the literal, or a member the literal inherits from
    [Object.prototype]. *)
Inductive details_value :=
| DRecord (d : detail)
| DInherited (name : string).

Record project_data := {
  title : string;
  description : string;
  tech : list string;
  image : string;
  details : details_value
}.

Definition projectDetails : gmap string detail :=
list_to_map
  [("E-Commerce Platform",
    {| overview := "Platform e-commerce modern dengan React, Node.js, dan integrasi payment gateway yang lengkap.";
       features := ["User authentication dan authorization";
                    "Shopping cart dan checkout process";
                    "Payment gateway integration";
                    "Admin dashboard untuk management";
                    "Real-time inventory tracking"];
       challenges := "Mengintegrasikan multiple payment methods dan menjaga keamanan transaksi.";
       demoLink := "#"; githubLink := "#" |});
   ("Warung Makan Website",
    {| overview := "A complete website for a local restaurant featuring menu display, online ordering, and customer management.";
       features := ["Online Menu Display"; "Order Management System";
                    "WhatsApp Integration"; "Admin Dashboard"];
       challenges := "Creating a responsive design that works well on all mobile devices.";
       demoLink := "#"; githubLink := "#" |});
   ("Finance Company Logo",
    {| overview := "Professional logo design focusing on trust and stability.";
       features := ["Vector Format"; "Brand Guidelines";
                    "Multiple Variations"; "Social Media Assets"];
       challenges := "Conveying trust and modernism simultaneously.";
       demoLink := "#"; githubLink := "#" |})].

(** Property names every object literal inherits. *)
Definition object_prototype : list string :=
["constructor"; "__proto__"; "hasOwnProperty"; "isPrototypeOf";
 "propertyIsEnumerable"; "toLocaleString"; "toString"; "valueOf";
 "__defineGetter__"; "__defineSetter__"; "__lookupGetter__";
 "__lookupSetter__"].

(** [obj[key]]: own properties first, then the prototype. *)
Definition get_property (obj : gmap string detail) (key : string)
  : option details_value :=
match obj !! key with
| Some d => Some (DRecord d)
| None => if decide (key ∈ object_prototype) then Some (DInherited key)
          else None
end.

Definition defaultDetail (description : string) : detail :=
{| overview := description;
   features := ["Features details available upon request"];
   challenges := "Standard development challenges";
   demoLink := "#"; githubLink := "#" |}.

Definition from_option_or_throw {A} (o : option A) : result A :=
match o with
| Some a => Ok a
| None => Throw TypeError
end.

Definition getProjectData (projectCard : card) : result project_data :=
bind (from_option_or_throw (project_title projectCard)) (fun title =>
bind (from_option_or_throw (project_description projectCard)) (fun description =>
bind (from_option_or_throw (img_src projectCard)) (fun image =>
Ok {| title := title; description := description;
      tech := tech_tags projectCard; image := image;
      details := match get_property projectDetails title with
                 | Some v => v        (* objects and functions are truthy *)
                 | None => DRecord (defaultDetail description)
                 end |}))).

(** The line feed. *)
Definition nl : string := String (Ascii.ascii_of_nat 10) EmptyString.

(** A string literal here cannot hold a double quote as it stands; the
    pieces of the template are written with a backquote where the source
    has a double quote, and [quoted] puts the double quotes in. *)
Fixpoint quoted (s : string) : string :=
match s with
| EmptyString => EmptyString
| String c s' =>
    String (if Ascii.eqb c "`"%char then Ascii.ascii_of_nat 34 else c)
           (quoted s')
end.

(** The template literal of [showProjectModal], line by line, with the
    project data in its holes; [dt] is [projectData.details].  The
    headings hold the characters of the source as their UTF-8 bytes. *)
Definition modal_pieces (projectData : project_data) (dt : detail)
  : list string :=
  [nl;
   quoted "            <div class=`modal-content`>"; nl;
   quoted "                <button class=`modal-close`>&times;</button>"; nl;
   quoted "                <div class=`modal-header`>"; nl;
   quoted "                    <img src=`"; image projectData;
   quoted "` alt=`"; title projectData;
   quoted "` class=`modal-image`>"; nl;
   "                    "; ("<h3>" +:+ title projectData +:+ "</h3>"); nl;
   "                </div>"; nl;
   quoted "                <div class=`modal-body`>"; nl;
   quoted "                    <div class=`modal-section`>"; nl;
   "                        <h4>üöÄ Project Overview</h4>"; nl;
   "                        "; ("<p>" +:+ overview dt +:+ "</p>"); nl;
   "                    </div>"; nl;
   "                    "; nl;
   quoted "                    <div class=`modal-section`>"; nl;
   "                        <h4>‚ú® Features</h4>"; nl;
   quoted "                        <ul class=`features-list`>"; nl;
   "                            "; String.concat EmptyString
      (map (fun feature => "<li>" +:+ feature +:+ "</li>") (features dt)); nl;
   "                        </ul>"; nl;
   "                    </div>"; nl;
   "                    "; nl;
   quoted "                    <div class=`modal-section`>"; nl;
   "                        <h4>üõ†Ô∏è Technologies Used</h4>"; nl;
   quoted "                        <div class=`modal-tech`>"; nl;
   "                            "; String.concat EmptyString
      (map (fun tech => quoted "<span class=`tech-tag`>" +:+ tech +:+ "</span>")
           (tech projectData)); nl;
   "                        </div>"; nl;
   "                    </div>"; nl;
   "                    "; nl;
   quoted "                    <div class=`modal-section`>"; nl;
   "                        <h4>üí° Challenges & Solutions</h4>"; nl;
   "                        "; ("<p>" +:+ challenges dt +:+ "</p>"); nl;
   "                    </div>"; nl;
   "                </div>"; nl;
   quoted "                <div class=`modal-actions`>"; nl;
   quoted "                    <a href=`"; demoLink dt;
   quoted "` class=`btn btn-primary` target=`_blank`>"; nl;
   quoted "                        <i class=`fas fa-external-link-alt`></i> Live Demo"; nl;
   "                    </a>"; nl;
   quoted "                    <a href=`"; githubLink dt;
   quoted "` class=`btn btn-secondary` target=`_blank`>"; nl;
   quoted "                        <i class=`fab fa-github`></i> View Code"; nl;
   "                    </a>"; nl;
   "                </div>"; nl;
   "            </div>"; nl;
   "        "].

Definition modal_html (projectData : project_data) (dt : detail) : string :=
String.concat EmptyString (modal_pieces projectData dt).

(** Reading [.features] off an inherited member gives [undefined], and
    calling [map] on it raises before the modal is filled or attached.
    The template is assigned to [innerHTML] as a string; how the browser
    reads it as markup is not followed. *)
Definition showProjectModal (projectData : project_data) (b : browser)
  : result browser :=
let '(m, d1) := createElement ["project-modal"] (page b) in
match details projectData with
| DInherited _ => Throw TypeError
| DRecord dt =>
    let d2 := set_modal (fun mm => <[m := modal_html projectData dt]> mm) d1 in
    let d3 := set_opacity (fun mm => <[m := "0"]> mm) d2 in
    let d4 := appendToBody m d3 in
    let d5 := set_body_overflow (fun _ => "hidden") d4 in
    Ok (setTimeout (AModalIn m) 100 (set_page (fun _ => d5) b))
end.

Definition modal_in (m : elem) (b : browser) : browser :=
set_page (set_opacity (fun mm => <[m := "1"]> mm)) b.

Definition closeProjectModal (m : elem) (b : browser) : browser :=
setTimeout (AModalRemove m) 300
  (set_page (set_opacity (fun mm => <[m := "0"]> mm)) b).

Definition modal_remove (m : elem) (b : browser) : browser :=
let b1 := if decide (m ∈ attached (page b)) then set_page (remove m) b else b in
set_page (set_body_overflow (fun _ => "")) b1.

(** The click listener [initializeProjectModals] puts on a project link:
    [href] is [link.getAttribute('href')] and [projectCard] what
    [link.closest('.project-card')] finds. *)
Definition project_link_click (href : option string) (projectCard : option card)
  (b : browser) : result browser :=
if bool_decide (href = Some "#") || bool_decide (href = Some "") then
  bind (from_option_or_throw projectCard) (fun c =>
  bind (getProjectData c) (fun projectData =>
  showProjectModal projectData b))
else Ok (record_call (CallWindowOpen (default "null" href)) b).

(** *** Start-up *)

(** The methods the class body defines; [createThemeToggle] and
    [toggleTheme] are commented out in the source. *)
Definition methods : list string :=
["init"; "initializeMobileMenu"; "initializeSmoothScrolling";
 "initializeFormHandler"; "validateField"; "showFieldError";
 "clearFieldError"; "handleFormSubmission"; "showNotification";
 "initializeScrollEffects"; "updateActiveNavLink";
 "initializeThemeManager"; "initializeLoadingState";
 "initializeInteractiveElements"; "initializeSkillBars";
 "animateSkillBars"; "initializeProjectModals"; "getProjectData";
 "showProjectModal"; "closeProjectModal"; "initializeTypewriterEffect";
 "initializeParticleEffect"; "createParticle"].

(** [this.name(...)]: calling what is not defined raises. *)
Definition call_method {A} (name : string) (body : result A) : result A :=
if decide (name ∈ methods) then body else Throw TypeError.

(** What the page markup and the environment provide at start-up. *)
Record markup := {
  contact_form : option form;      (* '.contact-form form' *)
  nav_toggle_and_menu : bool;      (* both '.nav-toggle' and '.nav-menu' *)
  skills_section : bool;           (* '.skills' *)
  savedTheme : option string;      (* localStorage 'portfolio-theme' *)
  systemPrefersDark : bool
}.

(** The listeners bound so far. *)
Record app := {
  menu_bound : bool;
  smooth_scroll_bound : bool;
  form_bound : option form;        (* submit listener of the contact form *)
  field_listeners : list elem;     (* blur and input listeners *)
  scroll_bound : bool;
  loading_bound : bool;
  project_links_bound : bool;
  typewriter : option elem         (* the hero title the typewriter effect
                                      has been started on *)
}.

Definition initializeMobileMenu (d : document) (mk : markup) (a : app)
  : result app :=
Ok {| menu_bound := nav_toggle_and_menu mk;
      smooth_scroll_bound := smooth_scroll_bound a;
      form_bound := form_bound a; field_listeners := field_listeners a;
      scroll_bound := scroll_bound a; loading_bound := loading_bound a;
      project_links_bound := project_links_bound a;
      typewriter := typewriter a |}.

Definition initializeSmoothScrolling (d : document) (mk : markup) (a : app)
  : result app :=
Ok {| menu_bound := menu_bound a; smooth_scroll_bound := true;
      form_bound := form_bound a; field_listeners := field_listeners a;
      scroll_bound := scroll_bound a; loading_bound := loading_bound a;
      project_links_bound := project_links_bound a;
      typewriter := typewriter a |}.

Definition initializeFormHandler (d : document) (mk : markup) (a : app)
  : result app :=
match contact_form mk with
| None => Ok a
| Some contactForm =>
    Ok {| menu_bound := menu_bound a;
          smooth_scroll_bound := smooth_scroll_bound a;
          form_bound := Some contactForm;
          field_listeners :=
            List.filter (fun e => contains d e "form-input")
                        (descendants contactForm);
          scroll_bound := scroll_bound a; loading_bound := loading_bound a;
          project_links_bound := project_links_bound a;
      typewriter := typewriter a |}
end.

Definition initializeScrollEffects (d : document) (mk : markup) (a : app)
  : result app :=
Ok {| menu_bound := menu_bound a;
      smooth_scroll_bound := smooth_scroll_bound a;
      form_bound := form_bound a; field_listeners := field_listeners a;
      scroll_bound := true; loading_bound := loading_bound a;
      project_links_bound := project_links_bound a;
      typewriter := typewriter a |}.

Definition initializeThemeManager (d : document) (mk : markup) (a : app)
  : result app :=
bind (if bool_decide (savedTheme mk = Some "light")
         || (bool_decide (savedTheme mk = None)
             || bool_decide (savedTheme mk = Some ""))
            && negb (systemPrefersDark mk)
      then call_method "toggleTheme" (Ok tt) else Ok tt)
     (fun _ => call_method "createThemeToggle" (Ok a)).

Definition initializeLoadingState (d : document) (mk : markup) (a : app)
  : result app :=
Ok {| menu_bound := menu_bound a;
      smooth_scroll_bound := smooth_scroll_bound a;
      form_bound := form_bound a; field_listeners := field_listeners a;
      scroll_bound := scroll_bound a; loading_bound := true;
      project_links_bound := project_links_bound a;
      typewriter := typewriter a |}.

Definition initializeSkillBars (hasIO : bool) (d : document) (mk : markup)
  (a : app) : result app :=
if skills_section mk then (if hasIO then Ok a else Throw ReferenceError)
else Ok a.

Definition initializeProjectModals (d : document) (mk : markup) (a : app)
  : result app :=
Ok {| menu_bound := menu_bound a;
      smooth_scroll_bound := smooth_scroll_bound a;
      form_bound := form_bound a; field_listeners := field_listeners a;
      scroll_bound := scroll_bound a; loading_bound := loading_bound a;
      project_links_bound := true;
      typewriter := typewriter a |}.

(** [initializeTypewriterEffect]: with a hero title in the page, the
    effect is started on it; what that does to the page is
    [typewriter_start]. *)
Definition initializeTypewriterEffect (d : document) (mk : markup) (a : app)
  : result app :=
Ok {| menu_bound := menu_bound a;
      smooth_scroll_bound := smooth_scroll_bound a;
      form_bound := form_bound a; field_listeners := field_listeners a;
      scroll_bound := scroll_bound a; loading_bound := loading_bound a;
      project_links_bound := project_links_bound a;
      typewriter := querySelector "hero-title" d |}.

(** The title is made transparent, and opaque again half a second
    later (the transition the callback also sets is a matter of style
    only). *)
Definition typewriter_start (heroTitle : elem) (b : browser) : browser :=
setTimeout (ATypewriter heroTitle) 500
  (set_page (set_opacity (fun m => <[heroTitle := "0"]> m)) b).

Definition typewriter_done (heroTitle : elem) (b : browser) : browser :=
set_page (set_opacity (fun m => <[heroTitle := "1"]> m)) b.

(** The load listener of [initializeLoadingState] and the callback of
    its timer. *)
Definition on_load (b : browser) : browser :=
setTimeout AAppLoaded 1000 (set_page (classList_add body ["loaded"]) b).

Definition loading_off (b : browser) : browser :=
set_page (classList_remove body ["loading"]) b.

(** [initializeParticleEffect], the last call, only adds decorative
    nodes to the hero section. *)
Definition initializeInteractiveElements (hasIO : bool) (d : document)
  (mk : markup) (a : app) : result app :=
bind (call_method "initializeSkillBars" (initializeSkillBars hasIO d mk a))
     (fun a1 =>
bind (call_method "initializeProjectModals" (initializeProjectModals d mk a1))
     (fun a2 =>
bind (call_method "initializeTypewriterEffect"
        (initializeTypewriterEffect d mk a2))
     (fun a3 => call_method "initializeParticleEffect" (Ok a3)))).

(** The calls of [init], in order. *)
Definition init_sequence (hasIO : bool)
  : list (string * (document -> markup -> app -> result app)) :=
[("initializeMobileMenu", initializeMobileMenu);
 ("initializeSmoothScrolling", initializeSmoothScrolling);
 ("initializeFormHandler", initializeFormHandler);
 ("initializeScrollEffects", initializeScrollEffects);
 ("initializeThemeManager", initializeThemeManager);
 ("initializeLoadingState", initializeLoadingState);
 ("initializeInteractiveElements", initializeInteractiveElements hasIO)].

(** Listeners bound before an exception stay bound. *)
Fixpoint run_inits (l : list (string * (document -> markup -> app -> result app)))
  (d : document) (mk : markup) (a : app) : app * option js_error :=
match l with
| [] => (a, None)
| (name, f) :: l' =>
    match call_method name (f d mk a) with
    | Ok a' => run_inits l' d mk a'
    | Throw e => (a, Some e)
    end
end.

(** [new PortfolioApp()] on the document as it is at that time. *)
Definition construct (hasIO : bool) (d : document) (mk : markup)
  : app * option js_error :=
run_inits (init_sequence hasIO) d mk
  {| menu_bound := false; smooth_scroll_bound := false; form_bound := None;
     field_listeners := []; scroll_bound := false; loading_bound := false;
     project_links_bound := false;
      typewriter := None |}.

End PortfolioApp.

(** ** The page as a whole: both scripts over one browser *)

Module Program.
Import JsString Dom Browser.

Record world := {
  env : browser;
  animator : option ScrollAnimator.t;   (* the ScrollAnimator, once built *)
  portfolio : option PortfolioApp.app   (* listeners of the PortfolioApp *)
}.

Definition with_env (b : browser) (w : world) : world :=
{| env := b; animator := animator w; portfolio := portfolio w |}.

(** Class-list writes of handlers whose control flow is not modelled:
    the navigation menu, the loading state of the body and the decorative
    elements the scripts create. *)
Inductive other_write :=
| WToggleActive (el : elem)    (* nav toggle click *)
| WRemoveActive (el : elem)    (* nav link and outside clicks, smoothScroll,
                                  updateActiveNavLink *)
| WAddActive (el : elem)       (* updateActiveNavLink *)
| WAddLoading (el : elem)      (* DOMContentLoaded listeners *)
| WRemoveLoading (el : elem)   (* one second after load *)
| WAddLoaded (el : elem)       (* main script, load *)
| WAddPageLoaded (el : elem)   (* animation.js, load *)
| WCreate (tokens : list string). (* a new element with its className:
                                  scroll-progress, custom-cursor, particles *)

Definition write (o : other_write) (d : document) : document :=
match o with
| WToggleActive el => classList_toggle el "active" d
| WRemoveActive el => classList_remove el ["active"] d
| WAddActive el => classList_add el ["active"] d
| WAddLoading el => classList_add el ["loading"] d
| WRemoveLoading el => classList_remove el ["loading"] d
| WAddLoaded el => classList_add el ["loaded"] d
| WAddPageLoaded el => classList_add el ["page-loaded"] d
| WCreate ts => let '(e, d') := createElement ts d in appendToBody e d'
end.

(** Each script builds its object in a DOMContentLoaded listener, which
    the browser runs once per page. *)
Inductive op :=
| NewScrollAnimator                       (* new ScrollAnimator() *)
| Sweep                                   (* DOMContentLoaded or resize listener *)
| Load                                    (* load listeners of animation.js:
                                             animateOnLoad, and that of
                                             PageTransitions, which is built
                                             right after the animator *)
| AppLoad                                 (* load listener of the main script *)
| Intersect (entries : list ScrollAnimator.entry)
| NewPortfolioApp (mk : PortfolioApp.markup)
| Blur (field : elem)
| Input (field : elem)
| Submit
| ProjectLinkClick (href : option string) (projectCard : option PortfolioApp.card)
| CloseModal (m : elem)                   (* close button, backdrop, Escape *)
| Timer                                   (* the next timer fires *)
| Elapse (dt : Z)
| Other (o : other_write).

Definition fire (a : action) (b : browser) : browser :=
match a with
| AReveal el => ScrollAnimator.reveal el b
| ASettle el => ScrollAnimator.settle el b
| AHero el => ScrollAnimator.hero el b
| ASubmitDone originalText inputs controls submitButton =>
    PortfolioApp.submit_done originalText inputs controls submitButton b
| ANotifIn n => PortfolioApp.notif_in n b
| ANotifOut n => PortfolioApp.notif_out n b
| ANotifRemove n => PortfolioApp.notif_remove n b
| AModalIn m => PortfolioApp.modal_in m b
| AModalRemove m => PortfolioApp.modal_remove m b
| APageLoaded => PageTransitions.loading_off b
| AAppLoaded => PortfolioApp.loading_off b
| ATypewriter heroTitle => PortfolioApp.typewriter_done heroTitle b
end.

(** An exception leaves a handler; what it had not yet done stays undone. *)
Definition or_unchanged {A} (r : result A) (a : A) : A :=
match r with
| Ok a' => a'
| Throw _ => a
end.

Definition bound_form (w : world) : option PortfolioApp.form :=
match portfolio w with
| Some app => PortfolioApp.form_bound app
| None => None
end.

Definition listening_fields (w : world) : list elem :=
match portfolio w with
| Some app => PortfolioApp.field_listeners app
| None => []
end.

Definition step (o : op) (w : world) : world :=
match o with
| NewScrollAnimator =>
    match animator w with
    | Some _ => w
    | None =>
        match ScrollAnimator.construct (env w) with
        | Ok a => {| env := env w; animator := Some a; portfolio := portfolio w |}
        | Throw _ => w
        end
    end
| Sweep =>
    match animator w with
    | Some a =>
        if ScrollAnimator.sweep_bound a then
          match ScrollAnimator.observeElements a (env w) with
          | Ok (a', b') =>
              {| env := b'; animator := Some a'; portfolio := portfolio w |}
          | Throw _ => w
          end
        else w
    | None => w
    end
| Load =>
    match animator w with
    | Some a =>
        if ScrollAnimator.load_bound a
        then with_env (PageTransitions.on_load
                         (ScrollAnimator.on_load (env w))) w
        else w
    | None => w
    end
| AppLoad =>
    match portfolio w with
    | Some app =>
        if PortfolioApp.loading_bound app
        then with_env (PortfolioApp.on_load (env w)) w else w
    | None => w
    end
| Intersect entries =>
    match animator w with
    | Some a => with_env (ScrollAnimator.deliver a entries (env w)) w
    | None => w
    end
| NewPortfolioApp mk =>
    match portfolio w with
    | Some _ => w
    | None =>
        let app := fst (PortfolioApp.construct
                          (hasIntersectionObserver (env w))
                          (page (env w)) mk) in
        {| env := match PortfolioApp.typewriter app with
                  | Some heroTitle =>
                      PortfolioApp.typewriter_start heroTitle (env w)
                  | None => env w
                  end;
           animator := animator w;
           portfolio := Some app |}
    end
| Blur field =>
    if decide (field ∈ listening_fields w) then
      with_env (or_unchanged
                  (bind (PortfolioApp.validateField field (env w))
                        (fun r => Ok (snd r)))
                  (env w)) w
    else w
| Input field =>
    if decide (field ∈ listening_fields w) then
      with_env (set_page (PortfolioApp.clearFieldError field) (env w)) w
    else w
| Submit =>
    match bound_form w with
    | Some f =>
        with_env (fst (PortfolioApp.handleFormSubmission f (env w))) w
    | None => w
    end
| ProjectLinkClick href projectCard =>
    match portfolio w with
    | Some app =>
        if PortfolioApp.project_links_bound app then
          with_env (or_unchanged
                      (PortfolioApp.project_link_click href projectCard (env w))
                      (env w)) w
        else w
    | None => w
    end
| CloseModal m =>
    if decide (m ∈ dom (modal (page (env w))))
    then with_env (PortfolioApp.closeProjectModal m (env w)) w else w
| Timer =>
    match take_timer (env w) with
    | Some (a, b) => with_env (fire a b) w
    | None => w
    end
| Elapse dt => with_env (elapse dt (env w)) w
| Other o => with_env (set_page (write o) (env w)) w
end.

Definition run (ops : list op) (w : world) : world :=
fold_left (fun w o => step o w) ops w.

(** The states a run goes through, the first one included. *)
Fixpoint states (ops : list op) (w : world) : list world :=
match ops with
| [] => [w]
| o :: ops' => w :: states ops' (step o w)
end.

(** The terminal class of a revealed element. *)
Definition revealed (w : world) (el : elem) : bool :=
contains (page (env w)) el "animate-visible".

(** How often a flag changes along a sequence of observations. *)
Fixpoint flips (l : list bool) : nat :=
match l with
| x :: ((y :: _) as l') => (if Bool.eqb x y then 0 else 1) + flips l'
| _ => 0
end.

(** How often [handleIntersect] was entered for an element: once per
    [setTimeout] call that carries its reveal callback. *)
Definition is_reveal_call (el : elem) (c : call) : bool :=
match c with
| CallSetTimeout (AReveal el') _ => bool_decide (el' = el)
| _ => false
end.

Definition handler_invocations (el : elem) (w : world) : nat :=
length (List.filter (is_reveal_call el) (calls (env w))).

Definition is_observe_call (el : elem) (c : call) : bool :=
match c with
| CallObserve el' => bool_decide (el' = el)
| _ => false
end.

(** How often [observer.observe] was called on an element. *)
Definition registrations (el : elem) (w : world) : nat :=
length (List.filter (is_observe_call el) (calls (env w))).

(** A page before any script has run. *)
Definition initial (d : document) (hasIO : bool) : world :=
{| env := {| page := d; timers := []; now := 0; calls := [];
             hasIntersectionObserver := hasIO |};
   animator := None; portfolio := None |}.

End Program.

(** ** Notions used to state the properties *)

Module Notions.
Import JsString Regex Dom Browser Program.

(** The second document has the terminal class wherever the first has. *)
Definition keeps (d d' : document) : Prop :=
forall el, "animate-visible" ∈ classList d el ->
           "animate-visible" ∈ classList d' el.

(** Calls that neither register an element with the observer nor enter
    [handleIntersect]. *)
Definition quiet (c : call) : bool :=
match c with
| CallObserve _ => false
| CallSetTimeout (AReveal _) _ => false
| _ => true
end.

Definition quiet_ext (b b' : browser) : Prop :=
exists l, calls b' = calls b ++ l /\ forallb quiet l = true.

(** Is the element among the targets of the observer of the animator? *)
Definition observed (w : world) (el : elem) : bool :=
match animator w with
| Some a =>
    match ScrollAnimator.observer a with
    | Some o => bool_decide (el ∈ ScrollAnimator.targets o)
    | None => false
    end
| None => false
end.

(** The entries of one delivery that report a watched element as
    intersecting. *)
Definition reports (el : elem) (o : op) (w : world) : nat :=
match o with
| Intersect entries =>
    if observed w el then
      length (List.filter
                (fun en => ScrollAnimator.isIntersecting en
                           && bool_decide (ScrollAnimator.target en = el))
                entries)
    else 0
| _ => 0
end.

(** The same, added up along a run. *)
Fixpoint intersecting_reports (el : elem) (ops : list op) (w : world) : nat :=
match ops with
| [] => 0
| o :: ops' => reports el o w + intersecting_reports el ops' (step o w)
end.

(** The events the ScrollAnimator listens to. *)
Definition animator_op (o : op) : bool :=
match o with
| NewScrollAnimator | Sweep | Load | Intersect _ => true
| _ => false
end.

(** The elements a sweep hands to the observer: those not seen before,
    each once. *)
Fixpoint fresh_targets (seen : gset nat) (l : list elem) : list elem :=
match l with
| [] => []
| x :: l' =>
    if decide (x ∈ seen) then fresh_targets seen l'
    else x :: fresh_targets ({[x]} ∪ seen) l'
end.

(** What [validateField] answers for a control, read off its three
    branches. *)
Definition valid_input (i : input) : bool :=
let value := trim (in_value i) in
negb (String.eqb (in_type i) "email"
      && negb (matches PortfolioApp.emailRegex value))
&& negb (in_required i && falsy value).

(** [valid_input] for the control an element is, if it is one. *)
Definition valid_at (d : document) (e : elem) : bool :=
match inputs d !! e with
| Some i => valid_input i
| None => false
end.

(** The user has typed [v] into a field. *)
Definition with_value (field : elem) (v : jsstring) (b : browser) : browser :=
set_page (set_inputs (fun m => alter (input_set_value v) field m)) b.

(** Nodes that no script step forgets. *)
Definition solid (d : document) : gset nat :=
dom (classes d) ∪ list_to_set (attached d) ∪ dom (text d) ∪ dom (inputs d).

(** The delay [handleIntersect] computes for an element whose top offset
    is [top]: [(rect.top % 300) * 0.1], in doubles. *)
Definition stagger (top : Q) : Q :=
Double.mul (js_rem (Double.round64 top) 300) Double.tenth.

(** [u] occurs in [s]. *)
Definition occurs (u s : string) : Prop :=
exists pre post, s = pre +:+ u +:+ post.

(** The listeners of the project links have not been bound. *)
Definition links_unbound (w : world) : Prop :=
match portfolio w with
| Some app => PortfolioApp.project_links_bound app = false
| None => True
end.

(** What field validation leaves alone. *)
Definition frame (b b' : browser) : Prop :=
inputs (page b') = inputs (page b)
/\ disabled (page b') = disabled (page b)
/\ attached (page b') = attached (page b)
/\ modal (page b') = modal (page b)
/\ parentNode (page b') = parentNode (page b)
/\ timers b' = timers b /\ calls b' = calls b /\ now b' = now b
/\ solid (page b) ⊆ solid (page b')
/\ (forall e, e ∈ solid (page b) -> text (page b') !! e = text (page b) !! e).

End Notions.

(** ** A small page to run the scripts on *)

Module Demo.
Import JsString Dom Browser Program.

(** Element 1 slides up and element 2 zooms in; 3 is a required e-mail
    field and 4 a required text field, with containers 6 and 7; 5 is the
    submit button of the form; 8 is the hero title. *)
Definition demo_page : document :=
{| classes := list_to_map [(1, ["animate-slide-up"]); (2, ["animate-zoom-in"]);
                           (3, ["form-input"]); (4, ["form-input"]);
                           (8, ["hero-title"])];
   attached := [0; 8; 1; 2; 6; 3; 7; 4; 5];
   parentNode := list_to_map [(3, 6); (4, 7)];
   text := list_to_map [(5, "Send Message")];
   inputs := list_to_map
     [(3, {| in_type := "email"; in_value := lit "a@b.co";
             in_default := []; in_required := true |});
      (4, {| in_type := "text"; in_value := lit "hello";
             in_default := []; in_required := true |})];
   disabled := ∅; transform := ∅; opacity := ∅; errors := ∅; modal := ∅;
   body_overflow := "" |}.

(** A container 1 holding the required field 3 and a container 2, which
    holds the required field 4; both fields are empty. *)
Definition nested_page : document :=
{| classes := ∅; attached := [0; 1; 3; 2; 4];
   parentNode := list_to_map [(1, 0); (3, 1); (2, 1); (4, 2)];
   text := ∅;
   inputs := list_to_map
     [(3, {| in_type := "text"; in_value := [];
             in_default := []; in_required := true |});
      (4, {| in_type := "text"; in_value := [];
             in_default := []; in_required := true |})];
   disabled := ∅; transform := ∅; opacity := ∅; errors := ∅; modal := ∅;
   body_overflow := "" |}.

Definition demo_form : PortfolioApp.form :=
{| PortfolioApp.descendants := [6; 3; 7; 4; 5];
   PortfolioApp.submit := Some 5 |}.

Definition demo_markup : PortfolioApp.markup :=
{| PortfolioApp.contact_form := Some demo_form;
   PortfolioApp.nav_toggle_and_menu := true;
   PortfolioApp.skills_section := false;
   PortfolioApp.savedTheme := Some "dark";
   PortfolioApp.systemPrefersDark := true |}.

Definition entering (el : elem) (top : Q) : ScrollAnimator.entry :=
{| ScrollAnimator.target := el; ScrollAnimator.isIntersecting := true;
   ScrollAnimator.rect_top := top |}.

Definition leaving (el : elem) (top : Q) : ScrollAnimator.entry :=
{| ScrollAnimator.target := el; ScrollAnimator.isIntersecting := false;
   ScrollAnimator.rect_top := top |}.

(** Both scripts start, the page is swept, element 1 comes into view and
    its reveal timer fires. *)
Definition demo_revealed : world :=
run [NewScrollAnimator; NewPortfolioApp demo_markup; Sweep;
     Intersect [entering 1 350]; Timer]
    (initial demo_page true).

(** What may follow: the element leaves and comes back, the form is
    used, the menu is toggled on the element itself, every timer fires. *)
Definition demo_afterwards : list op :=
[Intersect [leaving 1 (-400)]; Intersect [entering 1 1000]; Blur 3; Submit;
 Other (WToggleActive 1); Other (WRemoveActive 1); Other (WRemoveLoading 1);
 Other (WCreate ["particles"]); Sweep; Load; Timer; Timer; Timer; Timer;
 Timer; Timer; Timer; Elapse 10000;
 ProjectLinkClick (Some "#") None; Input 3].

(** Element 1 comes into view, is revealed, leaves the viewport and
    comes into view a second time. *)
Definition demo_two_crossings : world :=
run [NewScrollAnimator; Sweep; Intersect [entering 1 350]; Timer; Timer;
     Intersect [leaving 1 (-400)]; Intersect [entering 1 1000]]
    (initial demo_page true).

(** The same page in a browser without [IntersectionObserver]: the
    scripts start, the window is resized, the page finishes loading,
    and whatever timers there are fire. *)
Definition demo_no_observer : world :=
run [NewScrollAnimator; Sweep; Load; Sweep; Timer; Timer]
    (initial demo_page false).

(** The page with an address typed into the e-mail field that is not one. *)
Definition demo_invalid : browser :=
Notions.with_value 3 (lit "not-an-email") (env (initial demo_page true)).

Definition demo_valid : browser := env (initial demo_page true).

End Demo.

(** ** The timer queue as it runs *)

Module Loop.
Import Dom Browser Program.

(** The next timer fires, if there is one. *)
Definition tick (b : browser) : browser :=
match take_timer b with
| Some (a, b') => fire a b'
| None => b
end.

Fixpoint ticks (n : nat) (b : browser) : browser :=
match n with
| O => b
| S n' => ticks n' (tick b)
end.

(** A callback and the callbacks it may schedule in turn, counted. *)
Definition weight (a : action) : nat :=
match a with
| AReveal _ => 2
| ASubmitDone _ _ _ _ => 4
| ANotifOut _ => 2
| ASettle _ | AHero _ | ANotifIn _ | ANotifRemove _
| AModalIn _ | AModalRemove _ => 1
| APageLoaded | AAppLoaded | ATypewriter _ => 1
end.

Fixpoint work (l : list timer) : nat :=
match l with
| [] => 0
| t :: l' => weight (act t) + work l'
end.

Definition pending_work (b : browser) : nat := work (timers b).

(** The element carries the terminal class. *)
Definition shows (b : browser) (el : elem) : Prop :=
"animate-visible" ∈ classList (page b) el.

End Loop.

(** ** What is on show *)

Module Slots.
Import Dom Browser.


(** The [.field-error] boxes under a container, in tree order: those
    appended to it and those of the containers nested in it. *)
Definition error_boxes (d : document) (p : elem) : list elem :=
map snd (field_errors d p).

(** The messages a user reads under a container. *)
Definition messages (d : document) (p : elem) : list string :=
map (fun e => default "" (text d !! e)) (error_boxes d p).

End Slots.

(** ** The marker a field carries *)

Module Marks.
Import Dom Browser Notions.

(** The field carries the marker of its answer and not the other one. *)
Definition marked (d0 d : document) (e : elem) : Prop :=
if valid_at d0 e
then "success" ∈ classList d e /\ "error" ∉ classList d e
else "error" ∈ classList d e /\ "success" ∉ classList d e.


End Marks.

(** ** The mobile menu: the listeners of [initializeMobileMenu] *)

Module Menu.
Import Dom.

(** The click listener of [.nav-toggle]. *)
Definition toggle_click (navToggle navMenu : elem) (d : document) : document :=
let d1 := classList_toggle navMenu "active" d in
let d2 := classList_toggle navToggle "active" d1 in
set_body_overflow
  (fun _ => if contains d2 navMenu "active" then "hidden" else "") d2.

(** The click listener of each [.nav-link]. *)
Definition link_click (navToggle navMenu : elem) (d : document) : document :=
let d1 := classList_remove navMenu ["active"] d in
let d2 := classList_remove navToggle ["active"] d1 in
set_body_overflow (fun _ => "") d2.

(** The click listener of the document.  The flags are what
    [navToggle.contains(e.target)] and [navMenu.contains(e.target)]
    answer. *)
Definition document_click (in_toggle in_menu : bool)
  (navToggle navMenu : elem) (d : document) : document :=
if negb in_toggle && negb in_menu then
  let d1 := classList_remove navMenu ["active"] d in
  let d2 := classList_remove navToggle ["active"] d1 in
  set_body_overflow (fun _ => "") d2
else d.

Inductive menu_event :=
| ToggleClick
| LinkClick
| DocumentClick (in_toggle in_menu : bool).

Definition handle (navToggle navMenu : elem) (ev : menu_event) (d : document)
  : document :=
match ev with
| ToggleClick => toggle_click navToggle navMenu d
| LinkClick => link_click navToggle navMenu d
| DocumentClick t m => document_click t m navToggle navMenu d
end.

Definition handle_all (navToggle navMenu : elem) (evs : list menu_event)
  (d : document) : document :=
fold_left (fun d ev => handle navToggle navMenu ev d) evs d.

(** A switch: what each event does to an open or closed menu. *)
Definition switch (is_open : bool) (ev : menu_event) : bool :=
match ev with
| ToggleClick => negb is_open
| LinkClick => false
| DocumentClick t m => if negb t && negb m then false else is_open
end.

(** The toggle and the menu agree, and the page is kept from scrolling
    exactly while the menu is open. *)
Definition consistent (navToggle navMenu : elem) (d : document) : Prop :=
contains d navToggle "active" = contains d navMenu "active"
/\ body_overflow d = (if contains d navMenu "active" then "hidden" else "").

End Menu.

(** ** What the animator watches *)

Module Watch.
Import Dom Browser Program.

(** The animator can sweep: its listeners are bound, it has an observer,
    and what it remembers as seen is among the targets of the observer. *)
Definition watching (a : ScrollAnimator.t) : Prop :=
ScrollAnimator.sweep_bound a = true
/\ exists o, ScrollAnimator.observer a = Some o
             /\ forall el, el ∈ ScrollAnimator.animatedElements a ->
                           el ∈ ScrollAnimator.targets o.

Definition ready (w : world) : Prop :=
exists a, animator w = Some a /\ watching a.

End Watch.

(** ** Smooth scrolling: the click listeners on [a[href^="#"]]

    Both scripts bind a listener on the same links.  [href] is what
    [getAttribute('href')] answers and [target] what
    [document.querySelector(targetId)] finds, for a [targetId] that is a
    selector.  A handler answers with the [top] it has asked
    [window.scrollTo] for, if it has asked. *)

Module SmoothScroll.
Import Dom Browser.

(** The layout numbers the handlers read. *)
Record geometry := {
  offsetTop : elem -> Z;
  offsetHeight : elem -> Z
}.

(** [ScrollAnimator.smoothScroll] of animation.js.  An exception leaves
    the handler after the scroll was asked for and the menu was closed. *)
Definition smoothScroll (g : geometry) (href : option string)
  (target : option elem) (d : document)
  : document * option Z * option js_error :=
match href with
| None => (d, None, None)
| Some targetId =>
    if String.eqb targetId "" || String.eqb targetId "#" then (d, None, None)
    else
      match target with
      | None => (d, None, None)
      | Some targetElement =>
          let headerHeight :=
            match querySelector "navbar" d with
            | Some navbar => offsetHeight g navbar
            | None => 0%Z
            end in
          let targetPosition :=
            (offsetTop g targetElement - headerHeight - 20)%Z in
          match querySelector "nav-menu" d with
          | Some navMenu =>
              if contains d navMenu "active" then
                let d1 := classList_remove navMenu ["active"] d in
                match querySelector "nav-toggle" d with
                | Some navToggle =>
                    (classList_remove navToggle ["active"] d1,
                     Some targetPosition, None)
                | None => (d1, Some targetPosition, Some TypeError)
                end
              else (d, Some targetPosition, None)
          | None => (d, Some targetPosition, None)
          end
      end
end.



Definition page_after (r : document * option Z * option js_error) : document :=
fst (fst r).

End SmoothScroll.

(** ** The active navigation link: [updateActiveNavLink] *)

Module NavHighlight.
Import Dom Double SmoothScroll.

(** What the function reads besides class lists: the elements
    [querySelectorAll('section')] finds, in tree order, and the [id] and
    [href] attributes; a missing attribute reads [null]. *)
Record attributes := {
  sections : list elem;
  id : elem -> option string;
  href : elem -> option string
}.

(** [scrollPosition >= sectionTop && scrollPosition < sectionTop + sectionHeight] *)
Definition in_view (g : geometry) (scrollPosition : Q) (section : elem) : bool :=
Qle_bool (inject_Z (offsetTop g section)) scrollPosition
&& negb (Qle_bool (inject_Z (offsetTop g section + offsetHeight g section))
                  scrollPosition).

(** [window.scrollY + 100]: the browser reports the scroll offset as the
    nearest double, and the sum is taken in doubles. *)
Definition scrollPosition (scrollY : Q) : Q := add (round64 scrollY) 100.

(** The loop over the sections: the last one in view gives its [id]. *)
Definition currentSection (g : geometry) (at_ : attributes) (scrollY : Q)
  : option string :=
fold_left
  (fun cur section =>
     if in_view g (scrollPosition scrollY) section then id at_ section
     else cur)
  (sections at_) (Some "").

(** The template literal: [null] is written out. *)
Definition hash (cur : option string) : string :=
"#" +:+ default "null" cur.

Definition mark_link (at_ : attributes) (cur : option string) (d : document)
  (link : elem) : document :=
let d1 := classList_remove link ["active"] d in
if bool_decide (href at_ link = Some (hash cur))
then classList_add link ["active"] d1 else d1.

Definition updateActiveNavLink (g : geometry) (at_ : attributes) (scrollY : Q)
  (d : document) : document :=
let navLinks := querySelectorAll ["nav-link"] d in
fold_left (mark_link at_ (currentSection g at_ scrollY)) navLinks d.

End NavHighlight.

(** ** The start-up listener of the main script *)

Module Startup.
Import Dom Browser.

(** [s.startsWith(pat)], with what follows the prefix. *)
Fixpoint strip_prefix (pat s : string) : option string :=
match pat, s with
| EmptyString, _ => Some s
| String a pat', String c s' =>
    if Ascii.eqb a c then strip_prefix pat' s' else None
| String _ _, EmptyString => None
end.

(** [s.replace(pat, rep)] for a string pattern: the first occurrence, if
    there is one, is replaced. *)
Fixpoint replace_first (pat rep s : string) : string :=
match strip_prefix pat s with
| Some rest => rep +:+ rest
| None =>
    match s with
    | EmptyString => EmptyString
    | String c s' => String c (replace_first pat rep s')
    end
end.

(** [updateFooterYear()]; [footer] is what
    [document.querySelector('.footer p')] finds and [currentYear] the
    year of the clock, written out. *)
Definition updateFooterYear (footer : option elem) (currentYear : string)
  (d : document) : document :=
match footer with
| Some f =>
    set_text
      (fun m => <[f := replace_first "2024" currentYear
                         (default "" (text d !! f))]> m) d
| None => d
end.

(** What the listener has done when it is left: the page, whether
    [monitorPerformance] and [initializeErrorHandling] have bound their
    listeners, the style element it has added to the head, and the
    exception that ended it, if one did. *)
Record outcome := {
  page_left : document;
  monitors_bound : bool;
  globalStyles : option elem;
  raised : option js_error
}.

(** The [DOMContentLoaded] listener at the end of the script. *)
Definition on_content_loaded (hasIO : bool) (mk : PortfolioApp.markup)
  (footer : option elem) (currentYear : string) (d : document) : outcome :=
match snd (PortfolioApp.construct hasIO d mk) with
| Some e =>
    {| page_left := d; monitors_bound := false; globalStyles := None;
       raised := Some e |}
| None =>
    let d1 := updateFooterYear footer currentYear d in
    let '(style, d2) := createElement [] d1 in
    {| page_left := d2; monitors_bound := true; globalStyles := Some style;
       raised := None |}
end.

End Startup.

(** ** A page with a navigation bar *)

Module DemoNav.
Import Dom SmoothScroll NavHighlight.

(** Element 12 is the navigation bar, 10 the toggle button and 11 the
    menu, which is open; 13 and 14 are the navigation links to the
    sections 20 and 21; 30 is the paragraph of the footer. *)
Definition nav_page : document :=
{| classes := list_to_map [(10, ["nav-toggle"; "active"]);
                           (11, ["nav-menu"; "active"]);
                           (12, ["navbar"]);
                           (13, ["nav-link"; "active"]);
                           (14, ["nav-link"])];
   attached := [12; 10; 11; 13; 14; 20; 21; 30];
   parentNode := ∅;
   text := list_to_map [(30, "(c) 2024 Me, since 2024")];
   inputs := ∅; disabled := ∅; transform := ∅; opacity := ∅; errors := ∅;
   modal := ∅; body_overflow := "hidden" |}.

Definition nav_geometry : geometry :=
{| offsetTop := fun e => if Nat.eqb e 21 then 800%Z else 0%Z;
   offsetHeight := fun e => if Nat.eqb e 12 then 70%Z
                            else if Nat.eqb e 20 then 800%Z
                            else if Nat.eqb e 21 then 600%Z else 0%Z |}.

Definition nav_attributes : attributes :=
{| sections := [20; 21];
   id := fun e => if Nat.eqb e 20 then Some "home"
                  else if Nat.eqb e 21 then Some "about" else None;
   href := fun e => if Nat.eqb e 13 then Some "#home"
                    else if Nat.eqb e 14 then Some "#about" else None |}.

End DemoNav.

(** ** The start-up listener of animation.js *)

Module AnimationStartup.
Import Dom Browser.

(** What the listener has built when it returns. *)
Record components := {
  scrollAnimator : ScrollAnimator.t;
  interactions_bound : bool;   (* MicroInteractions: hover and focus listeners *)
  progressBar : elem;          (* PageTransitions.addScrollProgress *)
  cursor : option elem;        (* CursorEffects, when the pointer is fine *)
  style : elem                 (* the style element put into the head *)
}.

(** [PageTransitions.addScrollProgress]: the bar, appended to the body. *)
Definition addScrollProgress (d : document) : elem * document :=
let '(progressBar, d1) := createElement ["scroll-progress"] d in
(progressBar, appendToBody progressBar d1).

(** [CursorEffects.createCustomCursor] *)
Definition createCustomCursor (d : document) : elem * document :=
let '(cursor, d1) := createElement ["custom-cursor"] d in
(cursor, appendToBody cursor d1).

(** [CursorEffects.init]; [pointerFine] is what
    [window.matchMedia('(pointer: fine)').matches] answers. *)
Definition cursorEffects (pointerFine : bool) (d : document)
  : option elem * document :=
if pointerFine then
  let '(cursor, d1) := createCustomCursor d in (Some cursor, d1)
else (None, d).

(** The [DOMContentLoaded] listener at the end of the script: the four
    objects are built in order, then the style element. *)
Definition on_content_loaded (pointerFine : bool) (b : browser)
  : result (components * browser) :=
bind (ScrollAnimator.construct b) (fun scrollAnimator =>
  let '(progressBar, d1) := addScrollProgress (page b) in
  let '(cursor, d2) := cursorEffects pointerFine d1 in
  let '(style, d3) := createElement [] d2 in
  Ok ({| scrollAnimator := scrollAnimator; interactions_bound := true;
         progressBar := progressBar; cursor := cursor; style := style |},
      set_page (fun _ => d3) b)).

End AnimationStartup.

(** ** When the listeners of the animator run

    The listeners of animation.js that drive the animator, and how the
    browser dispatches an event: the listeners run are those registered
    for the event when the dispatch starts; one that is added while the
    event is being dispatched is not run for that event. *)

Module Lifecycle.
Import Dom Browser Program.

Inductive event := DOMContentLoaded | Resize | LoadEvent.

Inductive listener :=
| StartUp   (* the listener at the end of the script: new ScrollAnimator() *)
| SweepOn   (* bindEvents: () => { this.observeElements(); } *)
| HeroOn.   (* the load listeners: animateOnLoad and addLoadingAnimation *)

Definition event_eqb (e e' : event) : bool :=
match e, e' with
| DOMContentLoaded, DOMContentLoaded | Resize, Resize
| LoadEvent, LoadEvent => true
| _, _ => false
end.

Record state := {
  world_of : world;
  registry : list (event * listener)   (* in order of registration *)
}.

(** The listeners the constructor of the animator registers, in the
    order of [bindEvents] and [animateOnLoad]. *)
Definition constructor_listeners : list (event * listener) :=
[(DOMContentLoaded, SweepOn); (Resize, SweepOn); (LoadEvent, HeroOn)].

Definition run_listener (l : listener) (s : state) : state :=
match l with
| StartUp =>
    let w' := step NewScrollAnimator (world_of s) in
    {| world_of := w';
       registry :=
         registry s ++ match animator (world_of s), animator w' with
                       | None, Some _ => constructor_listeners
                       | _, _ => []
                       end |}
| SweepOn => {| world_of := step Sweep (world_of s); registry := registry s |}
| HeroOn => {| world_of := step Load (world_of s); registry := registry s |}
end.

Definition dispatch (ev : event) (s : state) : state :=
let listeners :=
  map snd (List.filter (fun p => event_eqb (fst p) ev) (registry s)) in
fold_left (fun s l => run_listener l s) listeners s.

(** The page as the script finds it: its one listener registered. *)
Definition loaded_script (d : document) (hasIO : bool) : state :=
{| world_of := initial d hasIO;
   registry := [(DOMContentLoaded, StartUp)] |}.

End Lifecycle.

(** ** The scroll listener of [initializeScrollEffects] *)

Module ScrollEffects.
Import Dom Double SmoothScroll NavHighlight.

(** What the listener keeps between events: the variable [lastScrollY]
    of its closure, and the two paint properties of the navigation bar
    it writes besides the transform. *)
Record scroll_state := {
  lastScrollY : Q;
  background : option string;
  backdropFilter : option string
}.

(** [a > b] on numbers. *)
Definition gt (a b : Q) : bool := negb (Qle_bool a b).

(** The listener; [navbar] is what [document.querySelector('.navbar')]
    found when the listener was bound, and [scrollY] the scroll offset,
    which [window.scrollY] reports as the nearest double. *)
Definition on_scroll (g : geometry) (at_ : attributes) (navbar : option elem)
  (sd : scroll_state * document) (scrollY : Q)
  : scroll_state * document :=
let currentScrollY := round64 scrollY in
match navbar with
| None => sd
| Some nb =>
    let d1 :=
      set_transform
        (fun m => <[nb := if gt currentScrollY (lastScrollY (fst sd))
                             && gt currentScrollY 100
                          then "translateY(-100%)" else "translateY(0)"]> m)
        (snd sd) in
    let s1 :=
      {| lastScrollY := currentScrollY;
         background := Some (if gt currentScrollY 50
                             then "rgba(13, 13, 13, 0.95)"
                             else "rgba(13, 13, 13, 0.9)");
         backdropFilter := Some (if gt currentScrollY 50
                                 then "blur(10px)" else "blur(5px)") |} in
    (s1, updateActiveNavLink g at_ scrollY d1)
end.

Definition scrolled (g : geometry) (at_ : attributes) (navbar : option elem)
  (positions : list Q) (sd : scroll_state * document)
  : scroll_state * document :=
fold_left (on_scroll g at_ navbar) positions sd.

End ScrollEffects.

(** * Properties *)

(** ** Strings: trimming *)

Section Trim.
Import JsString.

Lemma trimStart_all_space (s : jsstring) :
  forallb is_white_space s = true -> trimStart s = [].
Proof.
  induction s as [|c s IH]; simpl; [reflexivity|].
  intros H. apply andb_true_iff in H as [Hc Hs]. rewrite Hc. auto.
Qed.

Lemma trimStart_nil_all_space (s : jsstring) :
  trimStart s = [] -> forallb is_white_space s = true.
Proof.
  induction s as [|c s IH]; simpl; [reflexivity|].
  destruct (is_white_space c); [auto | discriminate].
Qed.

Lemma trimStart_app_space (pre s : jsstring) :
  forallb is_white_space pre = true -> trimStart (pre ++ s) = trimStart s.
Proof.
  induction pre as [|c pre IH]; simpl; [reflexivity|].
  intros H. apply andb_true_iff in H as [Hc Hs]. rewrite Hc. auto.
Qed.

Lemma trimStart_app_nonempty (s post : jsstring) :
  trimStart s <> [] -> trimStart (s ++ post) = trimStart s ++ post.
Proof.
  induction s as [|c s IH]; simpl; [congruence|].
  destruct (is_white_space c); auto.
Qed.

Lemma forallb_rev {A} (f : A -> bool) (l : list A) :
  forallb f (rev l) = forallb f l.
Proof.
  induction l as [|x l IH]; simpl; [reflexivity|].
  rewrite forallb_app, IH. simpl. rewrite andb_true_r. apply andb_comm.
Qed.

Lemma trimEnd_app_space (s post : jsstring) :
  forallb is_white_space post = true -> trimEnd (s ++ post) = trimEnd s.
Proof.
  intros H. unfold trimEnd. rewrite rev_app_distr.
  rewrite trimStart_app_space; [reflexivity|]. now rewrite forallb_rev.
Qed.

Lemma trimEnd_all_space (s : jsstring) :
  forallb is_white_space s = true -> trimEnd s = [].
Proof.
  intros H. unfold trimEnd. rewrite trimStart_all_space; [reflexivity|].
  now rewrite forallb_rev.
Qed.

Lemma trim_all_space (s : jsstring) :
  forallb is_white_space s = true -> trim s = [].
Proof.
  intros H. unfold trim. now rewrite trimStart_all_space.
Qed.

(** White space around a value does not survive [trim]. *)
Lemma trim_padding (pre v post : jsstring) :
  forallb is_white_space pre = true ->
  forallb is_white_space post = true ->
  trim (pre ++ v ++ post) = trim v.
Proof.
  intros Hpre Hpost. unfold trim. rewrite trimStart_app_space by assumption.
  destruct (trimStart v) as [|c r] eqn:E.
  - apply trimStart_nil_all_space in E.
    rewrite trimStart_app_space by assumption.
    rewrite (trimStart_all_space post) by assumption. reflexivity.
  - rewrite trimStart_app_nonempty by congruence. rewrite E.
    now apply trimEnd_app_space.
Qed.

End Trim.

(** ** The matcher agrees with the language of the pattern *)

Section Matcher.
Import JsString Regex.

Lemma lang_inv r s :
  lang r s ->
  match r with
  | RNone => False
  | REps => s = []
  | RSet cs => exists c, s = [c] /\ cset_mem cs c = true
  | RCat r1 r2 => exists s1 s2, s = s1 ++ s2 /\ lang r1 s1 /\ lang r2 s2
  | RAlt r1 r2 => lang r1 s \/ lang r2 s
  | RStar r1 =>
      s = [] \/ exists s1 s2, s = s1 ++ s2 /\ lang r1 s1 /\ lang (RStar r1) s2
  end.
Proof. destruct 1; eauto 10. Qed.

Lemma nullable_lang r : nullable r = true <-> lang r [].
Proof.
  induction r as [| |cs|r1 IH1 r2 IH2|r1 IH1 r2 IH2|r IH]; cbn [nullable].
  - split; [discriminate | intros H; apply lang_inv in H; contradiction].
  - split; [constructor | reflexivity].
  - split; [discriminate|].
    intros H. apply lang_inv in H as (c & E & _). discriminate.
  - rewrite andb_true_iff, IH1, IH2. split.
    + intros [H1 H2]. exact (LCat _ _ [] [] H1 H2).
    + intros H. apply lang_inv in H as (s1 & s2 & E & H1 & H2).
      symmetry in E. apply app_eq_nil in E as [-> ->]. auto.
  - rewrite orb_true_iff, IH1, IH2. split.
    + intros [H|H]; [now apply LAltL | now apply LAltR].
    + intros H. now apply lang_inv in H.
  - split; [constructor | reflexivity].
Qed.

Lemma lang_star_cons r c s :
  lang (RStar r) (c :: s) ->
  exists s1 s2, s = s1 ++ s2 /\ lang r (c :: s1) /\ lang (RStar r) s2.
Proof.
  intros H. remember (RStar r) as r' eqn:Er. remember (c :: s) as w eqn:Ew.
  revert Er s Ew.
  induction H as [| | | | | |r0 s1 s2 H1 _ H2 IH2]; intros Er s0 Ew;
    try discriminate.
  injection Er as ->. destruct s1 as [|c1 s1].
  - cbn [app] in Ew. now apply IH2.
  - cbn [app] in Ew. injection Ew as -> <-. eauto.
Qed.

Lemma deriv_lang r c s : lang (deriv c r) s <-> lang r (c :: s).
Proof.
  revert s.
  induction r as [| |cs|r1 IH1 r2 IH2|r1 IH1 r2 IH2|r IH]; intros s;
    cbn [deriv].
  - split; intros H; apply lang_inv in H; contradiction.
  - split; intros H; apply lang_inv in H; [contradiction | discriminate].
  - destruct (cset_mem cs c) eqn:E; split; intros H; apply lang_inv in H.
    + subst s. now constructor.
    + destruct H as (c' & [= <- ->] & _). constructor.
    + contradiction.
    + destruct H as (c' & [= <- ->] & H). congruence.
  - assert (Hcat : lang (RCat (deriv c r1) r2) s ->
                   lang (RCat r1 r2) (c :: s)).
    { intros H. apply lang_inv in H as (s1 & s2 & -> & H1 & H2).
      apply IH1 in H1. exact (LCat _ _ (c :: s1) s2 H1 H2). }
    assert (Hinv : lang (RCat r1 r2) (c :: s) ->
                   lang (RCat (deriv c r1) r2) s
                   \/ (lang r1 [] /\ lang (deriv c r2) s)).
    { intros H. apply lang_inv in H as (s1 & s2 & E & H1 & H2).
      destruct s1 as [|c1 s1]; cbn [app] in E.
      - right. subst s2. split; [exact H1 | now apply IH2].
      - injection E as -> ->. left. apply LCat; [now apply IH1 | exact H2]. }
    destruct (nullable r1) eqn:N.
    + split.
      * intros H. apply lang_inv in H as [H|H]; [now apply Hcat|].
        apply nullable_lang in N. apply IH2 in H.
        exact (LCat _ _ [] (c :: s) N H).
      * intros H. destruct (Hinv H) as [H1|[_ H2]];
          [now apply LAltL | now apply LAltR].
    + split; [exact Hcat|].
      intros H. destruct (Hinv H) as [H1|[H1 _]]; [exact H1|].
      apply nullable_lang in H1. congruence.
  - split; intros H; apply lang_inv in H as [H|H];
      first [apply LAltL; now apply IH1 | apply LAltR; now apply IH2].
  - split.
    + intros H. apply lang_inv in H as (s1 & s2 & -> & H1 & H2).
      apply IH in H1. exact (LStarCons r (c :: s1) s2 H1 H2).
    + intros H. apply lang_star_cons in H as (s1 & s2 & -> & H1 & H2).
      apply LCat; [now apply IH | exact H2].
Qed.

(** The matcher decides membership in the language of the pattern. *)
Lemma matches_lang r s : matches r s = true <-> lang r s.
Proof.
  revert r. induction s as [|c s IH]; intros r; cbn [matches].
  - apply nullable_lang.
  - rewrite IH. apply deriv_lang.
Qed.

Lemma lang_star_set cs s :
  lang (RStar (RSet cs)) s <-> Forall (fun c => cset_mem cs c = true) s.
Proof.
  split.
  - intros H. remember (RStar (RSet cs)) as r eqn:Er.
    induction H as [| | | | | |r0 s1 s2 H1 _ H2 IH2]; try discriminate.
    + constructor.
    + injection Er as ->. apply lang_inv in H1 as (c & -> & Hc).
      constructor; auto.
  - induction 1 as [|c l Hc _ IH]; [constructor|].
    exact (LStarCons _ [c] l (LSet cs c Hc) IH).
Qed.

Lemma lang_plus_set cs s :
  lang (RPlus (RSet cs)) s
  <-> s <> [] /\ Forall (fun c => cset_mem cs c = true) s.
Proof.
  unfold RPlus. split.
  - intros H. apply lang_inv in H as (s1 & s2 & -> & H1 & H2).
    apply lang_inv in H1 as (c & -> & Hc). apply lang_star_set in H2.
    split; [discriminate|]. constructor; assumption.
  - intros [Hne Hall]. destruct Hall as [|c l Hc Hl]; [contradiction|].
    apply lang_star_set in Hl. exact (LCat _ _ [c] l (LSet cs c Hc) Hl).
Qed.

(** What the e-mail pattern accepts: three non-empty runs of characters
    that are neither white space nor [@], the first two separated by [@]
    and the last two by a full stop. *)
Lemma emailRegex_accepts s :
  matches PortfolioApp.emailRegex s = true
  <-> exists a b c,
        s = a ++ [64%N] ++ b ++ [46%N] ++ c
        /\ a <> [] /\ b <> [] /\ c <> []
        /\ Forall (fun ch => is_white_space ch = false /\ ch <> 64%N)
                  (a ++ b ++ c).
Proof.
  assert (M : forall ch, cset_mem PortfolioApp.not_space_at ch = true
                         <-> is_white_space ch = false /\ ch <> 64%N).
  { intros ch. unfold PortfolioApp.not_space_at. cbn [cset_mem].
    rewrite negb_true_iff, orb_false_iff, N.eqb_neq. tauto. }
  assert (F : forall l, Forall (fun c => cset_mem PortfolioApp.not_space_at c
                                          = true) l
                        <-> Forall (fun ch => is_white_space ch = false
                                              /\ ch <> 64%N) l).
  { intros l. rewrite !List.Forall_forall.
    split; intros H x Hx; apply M, H, Hx. }
  rewrite matches_lang. unfold PortfolioApp.emailRegex. split.
  - intros H. apply lang_inv in H as (a & r1 & -> & Ha & H).
    apply lang_inv in H as (at_ & r2 & -> & Hat & H).
    apply lang_inv in H as (b & r3 & -> & Hb & H).
    apply lang_inv in H as (dot & c & -> & Hdot & Hc).
    apply lang_inv in Hat as (x & -> & Hx).
    apply lang_inv in Hdot as (y & -> & Hy).
    cbn [cset_mem] in Hx, Hy. apply N.eqb_eq in Hx, Hy. subst x y.
    apply lang_plus_set in Ha as [Na Fa], Hb as [Nb Fb], Hc as [Nc Fc].
    exists a, b, c. repeat apply conj; auto.
    rewrite !Forall_app. rewrite <- !F. auto.
  - intros (a & b & c & -> & Na & Nb & Nc & Hall).
    apply Forall_app in Hall as [Fa Hall].
    apply Forall_app in Hall as [Fb Fc]. apply F in Fa, Fb, Fc.
    apply LCat; [now apply lang_plus_set|].
    apply LCat; [constructor; reflexivity|].
    apply LCat; [now apply lang_plus_set|].
    apply LCat; [constructor; reflexivity | now apply lang_plus_set].
Qed.

End Matcher.

(** ** Class lists *)

Section ClassLists.
Import Dom.

Lemma elem_of_token_add (t u : string) (l : list string) :
  u ∈ token_add t l <-> u ∈ l \/ u = t.
Proof.
  unfold token_add. destruct (decide (t ∈ l)) as [Hin|Hout].
  - split; [auto|]. intros [H| ->]; assumption.
  - rewrite elem_of_app, list_elem_of_singleton. reflexivity.
Qed.

Lemma elem_of_tokens_add (ts l : list string) (u : string) :
  u ∈ tokens_add ts l <-> u ∈ l \/ u ∈ ts.
Proof.
  unfold tokens_add. revert l.
  induction ts as [|t ts IH]; intros l; simpl.
  - rewrite elem_of_nil. tauto.
  - rewrite IH, elem_of_token_add, elem_of_cons. tauto.
Qed.

Lemma elem_of_tokens_remove (ts l : list string) (u : string) :
  u ∈ tokens_remove ts l <-> u ∈ l /\ u ∉ ts.
Proof.
  unfold tokens_remove. rewrite list_elem_of_filter. tauto.
Qed.

Lemma elem_of_token_toggle_other (t u : string) (l : list string) :
  u <> t -> (u ∈ token_toggle t l <-> u ∈ l).
Proof.
  intros Hne. unfold token_toggle. destruct (decide (t ∈ l)).
  - rewrite elem_of_tokens_remove, list_elem_of_singleton. tauto.
  - rewrite elem_of_app, list_elem_of_singleton. tauto.
Qed.

Lemma classList_classList_add (e e' : nat) ts (d : document) :
  classList (classList_add e ts d) e' =
  if decide (e = e') then tokens_add ts (classList d e) else classList d e'.
Proof.
  unfold classList at 1, classList_add. simpl. rewrite lookup_insert.
  destruct (decide (e = e')); reflexivity.
Qed.

Lemma classList_classList_remove (e e' : nat) ts (d : document) :
  classList (classList_remove e ts d) e' =
  if decide (e = e') then tokens_remove ts (classList d e) else classList d e'.
Proof.
  unfold classList at 1, classList_remove. simpl. rewrite lookup_insert.
  destruct (decide (e = e')); reflexivity.
Qed.

Lemma classList_classList_toggle (e e' : nat) t (d : document) :
  classList (classList_toggle e t d) e' =
  if decide (e = e') then token_toggle t (classList d e) else classList d e'.
Proof.
  unfold classList at 1, classList_toggle. simpl. rewrite lookup_insert.
  destruct (decide (e = e')); reflexivity.
Qed.

Lemma classified_known (d : document) (e : nat) (t : string) :
  t ∈ classList d e -> e ∈ known d.
Proof.
  unfold classList, known. intros H.
  destruct (classes d !! e) as [l|] eqn:E; simpl in H.
  - assert (e ∈ dom (classes d)) by (apply elem_of_dom; eauto). set_solver.
  - apply elem_of_nil in H. contradiction.
Qed.

Lemma input_known (d : document) (e : nat) (i : input) :
  inputs d !! e = Some i -> e ∈ known d.
Proof.
  intros H. unfold known.
  assert (e ∈ dom (inputs d)) by (apply elem_of_dom; eauto). set_solver.
Qed.

Lemma createElement_fresh ts (d : document) :
  fst (createElement ts d) ∉ known d.
Proof. unfold createElement. cbn [fst]. apply is_fresh. Qed.

Lemma classList_createElement ts (d : document) (e : nat) :
  e ∈ known d ->
  classList (snd (createElement ts d)) e = classList d e.
Proof.
  intros Hk. unfold createElement, classList. cbn [snd set_classes classes].
  rewrite lookup_insert_ne; [reflexivity|].
  intros <-. exact (is_fresh _ Hk).
Qed.

Lemma classList_created ts (d : document) :
  classList (snd (createElement ts d)) (fst (createElement ts d))
  = tokens_add ts [].
Proof.
  unfold createElement, classList. cbn [fst snd set_classes classes].
  now rewrite lookup_insert_eq.
Qed.

End ClassLists.

(** ** The terminal class is never taken away *)

Section Keeps.
Import Dom Browser Notions.

Lemma keeps_refl d : keeps d d.
Proof. intros el H. exact H. Qed.

Lemma keeps_trans d1 d2 d3 : keeps d1 d2 -> keeps d2 d3 -> keeps d1 d3.
Proof. intros H12 H23 el H. auto. Qed.

Lemma keeps_same_classes (d d' : document) :
  classes d' = classes d -> keeps d d'.
Proof. intros E el. unfold classList. now rewrite E. Qed.

Lemma keeps_classList_add e ts d : keeps d (classList_add e ts d).
Proof.
  intros el H. rewrite classList_classList_add.
  destruct (decide (e = el)) as [->|]; [|exact H].
  apply elem_of_tokens_add. now left.
Qed.

Lemma keeps_classList_remove e ts d :
  "animate-visible" ∉ ts -> keeps d (classList_remove e ts d).
Proof.
  intros Hts el H. rewrite classList_classList_remove.
  destruct (decide (e = el)) as [->|]; [|exact H].
  apply elem_of_tokens_remove. now split.
Qed.

Lemma keeps_classList_toggle e t d :
  t <> "animate-visible" -> keeps d (classList_toggle e t d).
Proof.
  intros Hne el H. rewrite classList_classList_toggle.
  destruct (decide (e = el)) as [->|]; [|exact H].
  apply elem_of_token_toggle_other; [congruence | exact H].
Qed.

Lemma keeps_createElement ts d : keeps d (snd (createElement ts d)).
Proof.
  intros el H. rewrite classList_createElement; [exact H|].
  eapply classified_known; eassumption.
Qed.

Lemma keeps_fold_left {A} (f : browser -> A -> browser) (l : list A) :
  (forall b x, keeps (page b) (page (f b x))) ->
  forall b, keeps (page b) (page (fold_left f l b)).
Proof.
  intros Hf. induction l as [|x l IH]; intros b; simpl.
  - apply keeps_refl.
  - eapply keeps_trans; [apply Hf | apply IH].
Qed.

End Keeps.

Section KeepsHandlers.
Import Dom Browser Notions.

Local Ltac same := apply keeps_same_classes; reflexivity.

Lemma page_on_entries entries b :
  page (ScrollAnimator.on_entries entries b) = page b.
Proof.
  unfold ScrollAnimator.on_entries. revert b.
  induction entries as [|en l IH]; intros b; simpl; [reflexivity|].
  rewrite IH. destruct (ScrollAnimator.isIntersecting en); reflexivity.
Qed.

Lemma page_deliver a entries b :
  page (ScrollAnimator.deliver a entries b) = page b.
Proof.
  unfold ScrollAnimator.deliver.
  destruct (ScrollAnimator.observer a); [apply page_on_entries | reflexivity].
Qed.

Lemma page_observeElement el s s' :
  ScrollAnimator.observeElement el s = Ok s' -> page (snd s') = page (snd s).
Proof.
  unfold ScrollAnimator.observeElement, ScrollAnimator.observe.
  destruct (decide _); [intros [= <-]; reflexivity|].
  destruct (ScrollAnimator.observer (fst s)); simpl; [|discriminate].
  intros [= <-]. reflexivity.
Qed.

Lemma page_forEach_observeElement l s s' :
  ScrollAnimator.forEach ScrollAnimator.observeElement l s = Ok s' ->
  page (snd s') = page (snd s).
Proof.
  revert s. induction l as [|el l IH]; intros s; simpl.
  - intros [= <-]. reflexivity.
  - destruct (ScrollAnimator.observeElement el s) as [s1|] eqn:E; simpl;
      [|discriminate].
    intros H. rewrite (IH _ H). eapply page_observeElement; eassumption.
Qed.

Lemma page_observeElements a b a' b' :
  ScrollAnimator.observeElements a b = Ok (a', b') -> page b' = page b.
Proof.
  unfold ScrollAnimator.observeElements. intros H.
  apply page_forEach_observeElement in H. exact H.
Qed.

Lemma page_on_load b : page (ScrollAnimator.on_load b) = page b.
Proof.
  unfold ScrollAnimator.on_load.
  generalize ScrollAnimator.hero_timers. intros l. revert b.
  induction l as [|sd l IH]; intros b; simpl; [reflexivity|].
  rewrite IH. destruct (querySelector _ _); reflexivity.
Qed.

Lemma keeps_reveal el b : keeps (page b) (page (ScrollAnimator.reveal el b)).
Proof.
  unfold ScrollAnimator.reveal.
  destruct (existsb _ _); simpl; apply keeps_classList_add.
Qed.

Lemma keeps_clearFieldError field d :
  keeps d (PortfolioApp.clearFieldError field d).
Proof.
  unfold PortfolioApp.clearFieldError.
  destruct (parentNode d !! field); [|apply keeps_refl].
  destruct (field_errors d _) as [|[x e] r]; [apply keeps_refl | same].
Qed.

Lemma keeps_showFieldError field msg d :
  keeps d (PortfolioApp.showFieldError field msg d).
Proof.
  unfold PortfolioApp.showFieldError.
  eapply keeps_trans; [apply (keeps_clearFieldError field)|].
  pose proof (keeps_createElement ["field-error"]
                (PortfolioApp.clearFieldError field d)) as K.
  destruct (createElement _ _) as [e d2]. simpl in K.
  eapply keeps_trans; [exact K|]. simpl.
  destruct (parentNode d2 !! field); same.
Qed.

Lemma not_visible_in (ts : list string) :
  forallb (fun t => negb (String.eqb t "animate-visible")) ts = true ->
  "animate-visible" ∉ ts.
Proof.
  intros H Hin. apply list_elem_of_In in Hin.
  rewrite forallb_forall in H. specialize (H _ Hin).
  now rewrite String.eqb_refl in H.
Qed.

Lemma Ok_pair_inv {A B} (a a' : A) (b b' : B) :
  Ok (a, b) = Ok (a', b') -> a = a' /\ b = b'.
Proof. intros H. injection H as -> ->. auto. Qed.

Lemma keeps_validateField field b r b' :
  PortfolioApp.validateField field b = Ok (r, b') -> keeps (page b) (page b').
Proof.
  unfold PortfolioApp.validateField.
  destruct (inputs (page b) !! field) as [i|]; [|discriminate].
  assert (K : keeps (page b)
                (classList_remove field ["error"; "success"] (page b)))
    by (apply keeps_classList_remove, not_visible_in; reflexivity).
  destruct (_ && _); [|destruct (_ && _)]; intros H;
    apply Ok_pair_inv in H as [_ <-]; cbn [page set_page];
    (eapply keeps_trans; [exact K|]);
    (eapply keeps_trans; [apply keeps_classList_add|]).
  - apply keeps_showFieldError.
  - apply keeps_showFieldError.
  - apply keeps_clearFieldError.
Qed.

Lemma keeps_validateAll l ok b :
  keeps (page b) (page (fst (PortfolioApp.validateAll l ok b))).
Proof.
  revert ok b. induction l as [|x l IH]; intros ok b;
    cbn [PortfolioApp.validateAll].
  - apply keeps_refl.
  - destruct (PortfolioApp.validateField x b) as [[r1 b1]|] eqn:E;
      [|apply keeps_refl].
    eapply keeps_trans; [eapply keeps_validateField; eassumption | apply IH].
Qed.

Lemma keeps_showNotification msg ty b :
  keeps (page b) (page (PortfolioApp.showNotification msg ty b)).
Proof.
  unfold PortfolioApp.showNotification.
  set (d1 := match querySelector "notification" (page b) with
             | Some n => remove n (page b)
             | None => page b
             end).
  assert (K1 : keeps (page b) d1)
    by (subst d1; destruct (querySelector _ _); [same | apply keeps_refl]).
  pose proof (keeps_createElement
                ["notification"; "notification-" +:+ ty] d1) as K2.
  destruct (createElement _ d1) as [n d2]. simpl in *.
  eapply keeps_trans; [exact K1|]. eapply keeps_trans; [exact K2|]. same.
Qed.

Lemma keeps_notif_remove n b :
  keeps (page b) (page (PortfolioApp.notif_remove n b)).
Proof.
  unfold PortfolioApp.notif_remove. destruct (decide _); [same | apply keeps_refl].
Qed.

Lemma keeps_modal_remove m b :
  keeps (page b) (page (PortfolioApp.modal_remove m b)).
Proof.
  unfold PortfolioApp.modal_remove. destruct (decide _); same.
Qed.

Lemma keeps_handleFormSubmission f b :
  keeps (page b) (page (fst (PortfolioApp.handleFormSubmission f b))).
Proof.
  unfold PortfolioApp.handleFormSubmission.
  destruct (PortfolioApp.submit f) as [btn|]; [|apply keeps_refl].
  pose proof (keeps_validateAll
                (List.filter (fun e => contains (page b) e "form-input")
                             (PortfolioApp.descendants f)) true b) as K.
  destruct (PortfolioApp.validateAll _ true b) as [b0 [r|e]]; cbn [fst] in *;
    [|exact K].
  destruct r; cbn [negb fst].
  - eapply keeps_trans; [exact K | same].
  - eapply keeps_trans; [exact K | apply keeps_showNotification].
Qed.

Lemma keeps_submit_done txt ins ctl btn b :
  keeps (page b) (page (PortfolioApp.submit_done txt ins ctl btn b)).
Proof.
  unfold PortfolioApp.submit_done.
  set (b1 := PortfolioApp.showNotification _ _ b).
  set (b2 := set_page (PortfolioApp.form_reset ctl) b1).
  set (b3 := fold_left _ ins b2).
  assert (K1 : keeps (page b) (page b1))
    by (subst b1; apply keeps_showNotification).
  assert (K2 : keeps (page b1) (page b2)) by (subst b2; same).
  assert (K3 : keeps (page b2) (page b3)).
  { subst b3. apply keeps_fold_left. intros b0 x. simpl.
    apply keeps_classList_remove, not_visible_in. reflexivity. }
  eapply keeps_trans; [exact K1|]. eapply keeps_trans; [exact K2|].
  eapply keeps_trans; [exact K3|]. same.
Qed.

Lemma keeps_showProjectModal pd b b' :
  PortfolioApp.showProjectModal pd b = Ok b' -> keeps (page b) (page b').
Proof.
  unfold PortfolioApp.showProjectModal.
  pose proof (keeps_createElement ["project-modal"] (page b)) as K.
  destruct (createElement _ _) as [m d1]. simpl in K.
  destruct (PortfolioApp.details pd); [|discriminate].
  intros [= <-]. eapply keeps_trans; [exact K | same].
Qed.

Lemma keeps_project_link_click href c b b' :
  PortfolioApp.project_link_click href c b = Ok b' ->
  keeps (page b) (page b').
Proof.
  unfold PortfolioApp.project_link_click.
  destruct (_ || _).
  - destruct c as [c|]; simpl; [|discriminate].
    destruct (PortfolioApp.getProjectData c) as [pd|]; simpl; [|discriminate].
    apply keeps_showProjectModal.
  - intros [= <-]. same.
Qed.

Lemma keeps_write o d : keeps d (Program.write o d).
Proof.
  destruct o; unfold Program.write;
    try apply keeps_classList_add;
    try (apply keeps_classList_remove, not_visible_in; reflexivity);
    try (apply keeps_classList_toggle; discriminate).
  pose proof (keeps_createElement tokens d) as K.
  destruct (createElement _ _) as [e d1]. simpl in K.
  eapply keeps_trans; [exact K | same].
Qed.

Lemma keeps_fire a b : keeps (page b) (page (Program.fire a b)).
Proof.
  destruct a; simpl.
  - apply keeps_reveal.
  - same.
  - apply keeps_classList_add.
  - apply keeps_submit_done.
  - same.
  - same.
  - apply keeps_notif_remove.
  - same.
  - apply keeps_modal_remove.
  - apply keeps_classList_remove, not_visible_in; reflexivity.
  - apply keeps_classList_remove, not_visible_in; reflexivity.
  - same.
Qed.

Lemma page_take_timer b a b' : take_timer b = Some (a, b') -> page b' = page b.
Proof.
  unfold take_timer. destruct (pop_earliest _) as [[t rest]|]; [|discriminate].
  intros [= <- <-]. reflexivity.
Qed.

Lemma keeps_step o w :
  keeps (page (Program.env w)) (page (Program.env (Program.step o w))).
Proof.
  destruct o; simpl.
  - destruct (Program.animator w); [apply keeps_refl|].
    destruct (ScrollAnimator.construct _); apply keeps_refl.
  - destruct (Program.animator w) as [a|]; [|apply keeps_refl].
    destruct (ScrollAnimator.sweep_bound a); [|apply keeps_refl].
    destruct (ScrollAnimator.observeElements a _) as [[a' b']|] eqn:E;
      [|apply keeps_refl].
    simpl. apply page_observeElements in E. rewrite E. apply keeps_refl.
  - destruct (Program.animator w) as [a|]; [|apply keeps_refl].
    destruct (ScrollAnimator.load_bound a); [|apply keeps_refl].
    cbn [Program.with_env Program.env]. unfold PageTransitions.on_load.
    cbn [setTimeout page set_page]. rewrite page_on_load.
    apply keeps_classList_add.
  - destruct (Program.portfolio w) as [app|]; [|apply keeps_refl].
    destruct (PortfolioApp.loading_bound app); [|apply keeps_refl].
    cbn [Program.with_env Program.env]. unfold PortfolioApp.on_load.
    cbn [setTimeout page set_page]. apply keeps_classList_add.
  - destruct (Program.animator w) as [a|]; [|apply keeps_refl].
    simpl. rewrite page_deliver. apply keeps_refl.
  - destruct (Program.portfolio w); [apply keeps_refl|].
    cbn [Program.env].
    destruct (PortfolioApp.typewriter _); [same | apply keeps_refl].
  - destruct (decide _); [|apply keeps_refl]. simpl.
    destruct (PortfolioApp.validateField field _) as [[r b']|] eqn:E; simpl;
      [|apply keeps_refl].
    eapply keeps_validateField; eassumption.
  - destruct (decide _); [|apply keeps_refl]. simpl.
    apply keeps_clearFieldError.
  - destruct (Program.bound_form w) as [f|]; [|apply keeps_refl].
    cbn [Program.with_env Program.env]. apply keeps_handleFormSubmission.
  - destruct (Program.portfolio w) as [app|]; [|apply keeps_refl].
    destruct (PortfolioApp.project_links_bound app); [|apply keeps_refl].
    simpl.
    destruct (PortfolioApp.project_link_click _ _ _) as [b'|] eqn:E; simpl;
      [|apply keeps_refl].
    eapply keeps_project_link_click; eassumption.
  - destruct (decide _); [same | apply keeps_refl].
  - destruct (take_timer _) as [[a b]|] eqn:E; [|apply keeps_refl].
    simpl. rewrite <- (page_take_timer _ _ _ E). apply keeps_fire.
  - same.
  - simpl. apply keeps_write.
Qed.

Lemma keeps_run ops w :
  keeps (page (Program.env w)) (page (Program.env (Program.run ops w))).
Proof.
  unfold Program.run. revert w.
  induction ops as [|o ops IH]; intros w; simpl.
  - apply keeps_refl.
  - eapply keeps_trans; [apply keeps_step | apply IH].
Qed.

End KeepsHandlers.

(** ** Reveal is irreversible *)

Section Irreversible.
Import Dom Browser Program Notions.

Lemma revealed_iff w el :
  revealed w el = true <-> "animate-visible" ∈ classList (page (env w)) el.
Proof. unfold revealed, contains. apply bool_decide_eq_true. Qed.

Lemma revealed_step o w el :
  revealed w el = true -> revealed (step o w) el = true.
Proof. rewrite !revealed_iff. apply keeps_step. Qed.

Lemma states_head ops w : exists tl, states ops w = w :: tl.
Proof. destruct ops; simpl; eauto. Qed.

Lemma flips_cons2 (x y : bool) (l : list bool) :
  flips (x :: y :: l) = (if Bool.eqb x y then 0 else 1) + flips (y :: l).
Proof. reflexivity. Qed.

Lemma flips_states ops w el :
  (revealed w el = true ->
   flips (map (fun w' => revealed w' el) (states ops w)) = 0)
  /\ flips (map (fun w' => revealed w' el) (states ops w)) <= 1.
Proof.
  revert w. induction ops as [|o ops IH]; intros w.
  - simpl. split; [reflexivity | lia].
  - destruct (IH (step o w)) as [IH0 IH1].
    destruct (states_head ops (step o w)) as [tl Htl].
    cbn [states]. rewrite Htl in *. cbn [map] in *.
    rewrite flips_cons2.
    destruct (revealed w el) eqn:Hw.
    + pose proof (revealed_step o w el Hw) as Hs.
      rewrite (IH0 Hs), Hs. simpl. split; [intros _|]; lia.
    + split; [discriminate|].
      destruct (revealed (step o w) el) eqn:Hs.
      * rewrite (IH0 eq_refl). simpl. lia.
      * change (Bool.eqb false false) with true. cbv iota. lia.
Qed.

(** C2: once an element carries the terminal class [animate-visible], no
    step of either script takes it away again, whatever follows; along
    any run the revealed flag of an element therefore changes at most
    once. *)
Theorem revealed_never_reverts (ops : list op) (w : world) (el : elem) :
  (revealed w el = true -> revealed (run ops w) el = true)
  /\ flips (map (fun w' => revealed w' el) (states ops w)) <= 1.
Proof.
  split.
  - rewrite !revealed_iff. apply keeps_run.
  - apply flips_states.
Qed.

Lemma revealed_never_reverts_witness :
  revealed Demo.demo_revealed 1 = true
  /\ revealed (run Demo.demo_afterwards Demo.demo_revealed) 1 = true
  /\ flips (map (fun w' => revealed w' 1)
               (states Demo.demo_afterwards Demo.demo_revealed)) <= 1.
Proof.
  assert (H : revealed Demo.demo_revealed 1 = true) by (vm_compute; reflexivity).
  split; [exact H|].
  destruct (revealed_never_reverts Demo.demo_afterwards Demo.demo_revealed 1)
    as [Hkeep Hflips].
  split; [exact (Hkeep H) | exact Hflips].
Defined.

End Irreversible.

(** ** Field validation *)

Section Validation.
Import JsString Regex Dom Browser Notions.
Import PortfolioApp.

Local Ltac splits := repeat apply conj.

Lemma solid_known d : solid d ⊆ known d.
Proof.
  intros x. unfold solid, known. rewrite !elem_of_union. tauto.
Qed.

Lemma frame_refl b : frame b b.
Proof. unfold frame. splits; auto. Qed.

Lemma frame_trans b1 b2 b3 : frame b1 b2 -> frame b2 b3 -> frame b1 b3.
Proof.
  unfold frame.
  intros (I1 & D1 & A1 & M1 & P1 & T1 & C1 & N1 & S1 & X1)
         (I2 & D2 & A2 & M2 & P2 & T2 & C2 & N2 & S2 & X2).
  splits; try congruence.
  - set_solver.
  - intros e He. rewrite X2 by set_solver. auto.
Qed.

Lemma classes_clearFieldError field d :
  classes (clearFieldError field d) = classes d
  /\ inputs (clearFieldError field d) = inputs d
  /\ text (clearFieldError field d) = text d
  /\ attached (clearFieldError field d) = attached d
  /\ disabled (clearFieldError field d) = disabled d
  /\ modal (clearFieldError field d) = modal d
  /\ parentNode (clearFieldError field d) = parentNode d.
Proof.
  unfold clearFieldError. destruct (parentNode d !! field); [|tauto].
  destruct (field_errors d _) as [|[x e] r]; simpl; tauto.
Qed.

Lemma solid_clearFieldError field d : solid (clearFieldError field d) = solid d.
Proof.
  destruct (classes_clearFieldError field d) as (C & I & T & A & _).
  unfold solid. now rewrite C, I, T, A.
Qed.

Lemma frame_clearFieldError field b :
  frame b (set_page (clearFieldError field) b).
Proof.
  destruct (classes_clearFieldError field (page b))
    as (C & I & T & A & D & M & P).
  unfold frame. simpl. rewrite solid_clearFieldError, T.
  splits; auto.
Qed.

Lemma frame_set_classes g b :
  dom (classes (page b)) ⊆ dom (g (classes (page b))) ->
  frame b (set_page (set_classes g) b).
Proof.
  intros Hd. unfold frame. cbn [page set_page timers calls now].
  splits; auto. unfold solid. cbn [set_classes classes attached text inputs].
  intros x. rewrite !elem_of_union. specialize (Hd x). tauto.
Qed.

Lemma frame_classList_add e ts b : frame b (set_page (classList_add e ts) b).
Proof.
  unfold classList_add. apply frame_set_classes. rewrite dom_insert_L.
  set_solver.
Qed.

Lemma frame_classList_remove e ts b :
  frame b (set_page (classList_remove e ts) b).
Proof.
  unfold classList_remove. apply frame_set_classes. rewrite dom_insert_L.
  set_solver.
Qed.

Lemma createElement_spec ts d e d2 :
  createElement ts d = (e, d2) ->
  (e ∉ known d)
  /\ classes d2 = <[e := tokens_add ts []]> (classes d)
  /\ attached d2 = attached d /\ parentNode d2 = parentNode d
  /\ text d2 = text d /\ inputs d2 = inputs d /\ disabled d2 = disabled d
  /\ modal d2 = modal d.
Proof.
  unfold createElement. intros H. apply pair_equal_spec in H as [<- <-].
  split; [apply is_fresh|]. splits; reflexivity.
Qed.

Lemma showFieldError_doc field msg d :
  inputs (showFieldError field msg d) = inputs d
  /\ disabled (showFieldError field msg d) = disabled d
  /\ attached (showFieldError field msg d) = attached d
  /\ modal (showFieldError field msg d) = modal d
  /\ parentNode (showFieldError field msg d) = parentNode d
  /\ solid d ⊆ solid (showFieldError field msg d)
  /\ (forall x, x ∈ solid d ->
                text (showFieldError field msg d) !! x = text d !! x).
Proof.
  destruct (classes_clearFieldError field d) as (C & I & T & A & D & M & P).
  pose proof (solid_clearFieldError field d) as S.
  unfold showFieldError.
  destruct (createElement _ _) as [e d2] eqn:E.
  apply createElement_spec in E
    as (F & C2 & A2 & P2 & T2 & I2 & D2 & M2).
  assert (Hsol : e ∉ solid d).
  { rewrite <- S. intros H. apply F. now apply solid_known. }
  assert (G : forall d', classes d' = classes d2 ->
              attached d' = attached d2 ->
              text d' = <[e := msg]> (text d2) ->
              inputs d' = inputs d2 ->
              solid d ⊆ solid d'
              /\ (forall x, x ∈ solid d -> text d' !! x = text d !! x)).
  { intros d' Hc Ha Ht Hi. split.
    - unfold solid. rewrite Hc, Ha, Ht, Hi, C2, A2, T2, I2, C, A, T, I.
      rewrite !dom_insert_L. set_solver.
    - intros x Hx. rewrite Ht, lookup_insert_ne, T2, T; [reflexivity|].
      intros <-. contradiction. }
  cbn [set_text parentNode].
  destruct (parentNode d2 !! field);
    cbn [set_text set_errors inputs disabled attached modal parentNode];
    rewrite ?I2, ?D2, ?A2, ?M2, ?P2;
    (splits; auto; apply G; reflexivity).
Qed.

Lemma frame_showFieldError field msg b :
  frame b (set_page (showFieldError field msg) b).
Proof.
  destruct (showFieldError_doc field msg (page b))
    as (I & D & A & M & P & S & X).
  unfold frame. cbn [page set_page timers calls now]. splits; auto.
Qed.

Lemma classList_clearFieldError field d e :
  classList (clearFieldError field d) e = classList d e.
Proof.
  destruct (classes_clearFieldError field d) as (C & _).
  unfold classList. now rewrite C.
Qed.

Lemma classList_showFieldError field msg d e :
  e ∈ solid d -> classList (showFieldError field msg d) e = classList d e.
Proof.
  intros He. unfold showFieldError.
  pose proof (classList_createElement ["field-error"]
                (clearFieldError field d) e) as K.
  destruct (createElement _ _) as [x d2]. simpl in K.
  transitivity (classList d2 e).
  - destruct (parentNode _ !! field); reflexivity.
  - rewrite K, classList_clearFieldError; [reflexivity|].
    apply solid_known. now rewrite solid_clearFieldError.
Qed.

(** What [validateField] does to a control: its answer, the two marker
    classes of the field, and what it leaves alone. *)
Lemma validateField_spec field b i :
  inputs (page b) !! field = Some i ->
  exists b',
    validateField field b = Ok (valid_input i, b')
    /\ classList (page b') field
       = tokens_add [if valid_input i then "success" else "error"]
           (tokens_remove ["error"; "success"] (classList (page b) field))
    /\ frame b b'.
Proof.
  intros Hi. unfold validateField, valid_input. rewrite Hi.
  assert (Hs : field ∈ solid (page b)).
  { unfold solid. assert (field ∈ dom (inputs (page b)))
      by (apply elem_of_dom; eauto). set_solver. }
  set (b1 := set_page (classList_remove field ["error"; "success"]) b).
  assert (F1 : frame b b1) by apply frame_classList_remove.
  assert (Hs1 : forall ts, field ∈ solid (classList_add field ts (page b1))).
  { intros ts. unfold solid, classList_add. simpl. rewrite dom_insert_L.
    set_solver. }
  assert (Hc : forall ts, classList (classList_add field ts (page b1)) field
               = tokens_add ts (tokens_remove ["error"; "success"]
                                              (classList (page b) field))).
  { intros ts. rewrite classList_classList_add.
    destruct (decide (field = field)); [|contradiction].
    subst b1. simpl. rewrite classList_classList_remove.
    destruct (decide (field = field)); [reflexivity|contradiction]. }
  destruct (String.eqb (in_type i) "email"
            && negb (matches emailRegex (trim (in_value i)))); simpl.
  - eexists. split; [reflexivity|]. split.
    + simpl. rewrite classList_showFieldError by apply Hs1. apply Hc.
    + eapply frame_trans; [exact F1|].
      eapply frame_trans; [apply (frame_classList_add field ["error"])|].
      apply (frame_showFieldError field
               "Please enter a valid email address"
               (set_page (classList_add field ["error"]) b1)).
  - destruct (in_required i && falsy (trim (in_value i))); simpl.
    + eexists. split; [reflexivity|]. split.
      * simpl. rewrite classList_showFieldError by apply Hs1. apply Hc.
      * eapply frame_trans; [exact F1|].
        eapply frame_trans; [apply (frame_classList_add field ["error"])|].
        apply (frame_showFieldError field "This field is required"
                 (set_page (classList_add field ["error"]) b1)).
    + eexists. split; [reflexivity|]. split.
      * simpl. rewrite classList_clearFieldError. apply Hc.
      * eapply frame_trans; [exact F1|].
        eapply frame_trans; [apply (frame_classList_add field ["success"])|].
        apply (frame_clearFieldError field
                 (set_page (classList_add field ["success"]) b1)).
Qed.

Lemma marker_success l :
  "success" ∈ tokens_add ["success"] (tokens_remove ["error"; "success"] l)
  /\ "error" ∉ tokens_add ["success"] (tokens_remove ["error"; "success"] l).
Proof.
  split.
  - apply elem_of_tokens_add. right. apply list_elem_of_singleton. reflexivity.
  - rewrite elem_of_tokens_add, elem_of_tokens_remove, list_elem_of_singleton.
    intros [[_ H]|H]; [|discriminate]. apply H. apply list_elem_of_here.
Qed.

Lemma marker_error l :
  "error" ∈ tokens_add ["error"] (tokens_remove ["error"; "success"] l)
  /\ "success" ∉ tokens_add ["error"] (tokens_remove ["error"; "success"] l).
Proof.
  split.
  - apply elem_of_tokens_add. right. apply list_elem_of_singleton. reflexivity.
  - rewrite elem_of_tokens_add, elem_of_tokens_remove, list_elem_of_singleton.
    intros [[_ H]|H]; [|discriminate]. apply H.
    apply list_elem_of_further, list_elem_of_here.
Qed.

(** A field is classified by the marker class validation leaves on it. *)
Lemma validateField_classifies field b i :
  inputs (page b) !! field = Some i ->
  exists b',
    validateField field b = Ok (valid_input i, b')
    /\ (if valid_input i
        then "success" ∈ classList (page b') field
             /\ "error" ∉ classList (page b') field
        else "error" ∈ classList (page b') field
             /\ "success" ∉ classList (page b') field)
    /\ frame b b'.
Proof.
  intros Hi. destruct (validateField_spec field b i Hi) as (b' & E & C & F).
  exists b'. split; [exact E|]. split; [|exact F].
  rewrite C. destruct (valid_input i); [apply marker_success | apply marker_error].
Qed.

Lemma pattern_rejects : matches emailRegex (trim (lit "not-an-email")) = false.
Proof. vm_compute. reflexivity. Qed.

Lemma pattern_accepts : matches emailRegex (trim (lit "a@b.co")) = true.
Proof. vm_compute. reflexivity. Qed.

Lemma with_value_lookup field v b i :
  inputs (page b) !! field = Some i ->
  inputs (page (with_value field v b)) !! field = Some (input_set_value v i).
Proof.
  intros Hi. unfold with_value. cbn [page set_page set_inputs inputs].
  rewrite lookup_alter_eq, Hi. reflexivity.
Qed.

Lemma classList_with_value field v b e :
  classList (page (with_value field v b)) e = classList (page b) e.
Proof. reflexivity. Qed.

(** C5: validating (as the blur listener does) an e-mail field whose
    value is "not-an-email" answers false and leaves the field marked
    [error] and not [success]; with the value "a@b.co" it answers true and
    leaves the field marked [success] and not [error].  The first value
    fails the pattern and the second passes it. *)
Theorem email_field_examples (field : elem) (b : browser) (i : input) :
  inputs (page b) !! field = Some i ->
  in_type i = "email" ->
  (matches emailRegex (trim (lit "not-an-email")) = false
   /\ exists b',
        validateField field (with_value field (lit "not-an-email") b)
        = Ok (false, b')
        /\ "error" ∈ classList (page b') field
        /\ "success" ∉ classList (page b') field)
  /\ (matches emailRegex (trim (lit "a@b.co")) = true
      /\ exists b',
           validateField field (with_value field (lit "a@b.co") b)
           = Ok (true, b')
           /\ "success" ∈ classList (page b') field
           /\ "error" ∉ classList (page b') field).
Proof.
  intros Hi Ht. split.
  - split; [apply pattern_rejects|].
    destruct (validateField_classifies field _ _
                (with_value_lookup field (lit "not-an-email") b i Hi))
      as (b' & E & C & _).
    assert (V : valid_input (input_set_value (lit "not-an-email") i) = false).
    { unfold valid_input. cbn [input_set_value in_type in_value in_required].
      now rewrite Ht, pattern_rejects. }
    rewrite V in *. eauto.
  - split; [apply pattern_accepts|].
    destruct (validateField_classifies field _ _
                (with_value_lookup field (lit "a@b.co") b i Hi))
      as (b' & E & C & _).
    assert (V : valid_input (input_set_value (lit "a@b.co") i) = true).
    { unfold valid_input. cbn [input_set_value in_type in_value in_required].
      rewrite Ht, pattern_accepts.
      destruct (in_required i); vm_compute; reflexivity. }
    rewrite V in *. eauto.
Qed.

Lemma email_field_examples_witness :
  inputs (page (Program.env (Program.initial Demo.demo_page true))) !! 3
  = Some {| in_type := "email"; in_value := lit "a@b.co";
            in_default := []; in_required := true |}
  /\ (exists b',
        validateField 3
          (with_value 3 (lit "not-an-email")
             (Program.env (Program.initial Demo.demo_page true)))
        = Ok (false, b')
        /\ "error" ∈ classList (page b') 3
        /\ "success" ∉ classList (page b') 3)
  /\ (exists b',
        validateField 3
          (with_value 3 (lit "a@b.co")
             (Program.env (Program.initial Demo.demo_page true)))
        = Ok (true, b')
        /\ "success" ∈ classList (page b') 3
        /\ "error" ∉ classList (page b') 3).
Proof.
  assert (H : inputs (page (Program.env (Program.initial Demo.demo_page true)))
              !! 3
              = Some {| in_type := "email"; in_value := lit "a@b.co";
                        in_default := []; in_required := true |})
    by (vm_compute; reflexivity).
  split; [exact H|].
  destruct (email_field_examples 3 _ _ H eq_refl) as [[_ Hbad] [_ Hgood]].
  split; [exact Hbad | exact Hgood].
Defined.

(** C10: validation works on the trimmed value.  A required field whose
    value is white space only is answered false and marked [error]; and
    white space put before or after a value changes neither the answer
    nor the marker classes validation leaves on the field. *)
Theorem validation_uses_trimmed_value (field : elem) (b : browser) (i : input)
  (pre v post : jsstring) :
  inputs (page b) !! field = Some i ->
  forallb is_white_space pre = true ->
  forallb is_white_space post = true ->
  (in_required i = true ->
   exists b', validateField field (with_value field pre b) = Ok (false, b')
              /\ "error" ∈ classList (page b') field
              /\ "success" ∉ classList (page b') field)
  /\ exists r b1 b2,
       validateField field (with_value field (pre ++ v ++ post) b) = Ok (r, b1)
       /\ validateField field (with_value field v b) = Ok (r, b2)
       /\ classList (page b1) field = classList (page b2) field.
Proof.
  intros Hi Hpre Hpost. split.
  - intros Hreq.
    destruct (validateField_classifies field _ _
                (with_value_lookup field pre b i Hi)) as (b' & E & C & _).
    assert (V : valid_input (input_set_value pre i) = false).
    { unfold valid_input. cbn [input_set_value in_type in_value in_required].
      rewrite Hreq, (trim_all_space pre Hpre). simpl. apply andb_false_r. }
    rewrite V in *. eauto.
  - destruct (validateField_spec field _ _
                (with_value_lookup field (pre ++ v ++ post) b i Hi))
      as (b1 & E1 & C1 & _).
    destruct (validateField_spec field _ _
                (with_value_lookup field v b i Hi))
      as (b2 & E2 & C2 & _).
    assert (V : valid_input (input_set_value (pre ++ v ++ post) i)
                = valid_input (input_set_value v i)).
    { unfold valid_input. cbn [input_set_value in_type in_value in_required].
      now rewrite trim_padding. }
    rewrite V in *. exists (valid_input (input_set_value v i)), b1, b2.
    split; [exact E1|]. split; [exact E2|].
    rewrite C1, C2, !classList_with_value. reflexivity.
Qed.

Lemma validation_uses_trimmed_value_witness :
  (exists b',
     validateField 3
       (with_value 3 (lit "  ")
          (Program.env (Program.initial Demo.demo_page true)))
     = Ok (false, b')
     /\ "error" ∈ classList (page b') 3 /\ "success" ∉ classList (page b') 3)
  /\ exists r b1 b2,
       validateField 3
         (with_value 3 (lit "  " ++ lit "a@b.co" ++ [9; 10]%N)
            (Program.env (Program.initial Demo.demo_page true)))
       = Ok (r, b1)
       /\ validateField 3
            (with_value 3 (lit "a@b.co")
               (Program.env (Program.initial Demo.demo_page true)))
          = Ok (r, b2)
       /\ classList (page b1) 3 = classList (page b2) 3.
Proof.
  assert (H : inputs (page (Program.env (Program.initial Demo.demo_page true)))
              !! 3
              = Some {| in_type := "email"; in_value := lit "a@b.co";
                        in_default := []; in_required := true |})
    by (vm_compute; reflexivity).
  destruct (validation_uses_trimmed_value 3 _ _
              (lit "  ") (lit "a@b.co") [9; 10]%N H eq_refl eq_refl)
    as [Hreq Hpad].
  split; [exact (Hreq eq_refl) | exact Hpad].
Defined.

End Validation.

(** ** Submission *)

Section Submission.
Import JsString Regex Dom Browser Notions.
Import PortfolioApp.

Local Ltac splits := repeat apply conj.

Lemma forallb_valid_at_frame b b' l :
  frame b b' ->
  forallb (valid_at (page b')) l = forallb (valid_at (page b)) l.
Proof.
  intros (I & _). induction l as [|e l IH]; simpl; [reflexivity|].
  rewrite IH. unfold valid_at. now rewrite I.
Qed.

Lemma validateAll_spec l ok b :
  (forall e, e ∈ l -> is_Some (inputs (page b) !! e)) ->
  exists b',
    validateAll l ok b = (b', Ok (ok && forallb (valid_at (page b)) l))
    /\ frame b b'.
Proof.
  revert ok b. induction l as [|x l IH]; intros ok b Hl.
  - exists b. simpl. rewrite andb_true_r. split; [reflexivity | apply frame_refl].
  - destruct (Hl x) as [i Hi]; [apply list_elem_of_here|].
    destruct (validateField_spec x b i Hi) as (b1 & E1 & _ & F1).
    destruct (IH (if valid_input i then ok else false) b1) as (b' & E & F).
    { intros e He. destruct F1 as (I1 & _). rewrite I1.
      apply Hl. now apply list_elem_of_further. }
    exists b'. split; [|eapply frame_trans; eassumption].
    cbn [validateAll]. rewrite E1, E.
    rewrite (forallb_valid_at_frame b b1 l F1). cbn [forallb].
    unfold valid_at at 2. rewrite Hi.
    destruct (valid_input i), ok; reflexivity.
Qed.

Lemma querySelector_Some sel d x :
  querySelector sel d = Some x -> sel ∈ classList d x /\ x ∈ attached d.
Proof.
  unfold querySelector, querySelectorAll.
  destruct (List.filter _ _) as [|y l] eqn:Ef; [discriminate|].
  intros [= ->].
  assert (Hin : In x (List.filter (has_any_class d [sel]) (attached d)))
    by (rewrite Ef; left; reflexivity).
  apply filter_In in Hin as [Ha Hc]. split; [|now apply list_elem_of_In].
  unfold has_any_class in Hc. cbn [existsb] in Hc.
  rewrite orb_false_r in Hc. unfold contains in Hc.
  now apply bool_decide_eq_true in Hc.
Qed.

(** What [showNotification] does: one new banner, last in the body, off
    the screen, with its two timers; whatever banner was shown before is
    gone. *)
Lemma showNotification_spec msg ty b :
  exists n,
    (n ∉ solid (page b))
    /\ n ∈ attached (page (showNotification msg ty b))
    /\ classList (page (showNotification msg ty b)) n
       = tokens_add ["notification"; "notification-" +:+ ty] []
    /\ text (page (showNotification msg ty b)) = <[n := msg]> (text (page b))
    /\ inputs (page (showNotification msg ty b)) = inputs (page b)
    /\ disabled (page (showNotification msg ty b)) = disabled (page b)
    /\ calls (showNotification msg ty b)
       = calls b ++ [CallSetTimeout (ANotifIn n) 100;
                     CallSetTimeout (ANotifOut n) 5000]
    /\ timers (showNotification msg ty b)
       = timers b ++ [{| due := now b + 100; act := ANotifIn n |};
                      {| due := now b + 5000; act := ANotifOut n |}]
    /\ transform (page (showNotification msg ty b)) !! n
       = Some "translateX(400px)".
Proof.
  unfold showNotification.
  set (d1 := match querySelector "notification" (page b) with
             | Some x => remove x (page b)
             | None => page b
             end).
  assert (H1 : classes d1 = classes (page b) /\ text d1 = text (page b)
               /\ inputs d1 = inputs (page b)
               /\ disabled d1 = disabled (page b)).
  { subst d1. destruct (querySelector _ _); splits; reflexivity. }
  destruct H1 as (C1 & T1 & I1 & D1).
  destruct (createElement _ d1) as [n d2] eqn:E.
  apply createElement_spec in E as (F & C2 & A2 & P2 & T2 & I2 & D2 & M2).
  exists n.
  cbn [page set_page setTimeout calls timers now set_text set_transform
       appendToBody set_attached classes text inputs disabled attached
       transform].
  splits.
  - intros Hs. apply F. unfold solid in Hs. unfold known.
    rewrite C1, T1, I1. rewrite !elem_of_union in *.
    destruct Hs as [[[Hs|Hs]|Hs]|Hs]; try tauto.
    assert (Hd : n ∈ dom (classes (page b)) \/ n ∈ attached d1);
      [|rewrite elem_of_list_to_set; tauto].
    apply elem_of_list_to_set in Hs. subst d1.
    destruct (querySelector "notification" (page b)) as [x|] eqn:Eq; [|tauto].
    cbn [remove set_attached attached].
    destruct (decide (n = x)) as [->|Hne].
    + left. apply elem_of_dom. apply querySelector_Some in Eq as [Hc _].
      unfold classList in Hc.
      destruct (classes (page b) !! x); [eauto|].
      apply elem_of_nil in Hc. contradiction.
    + right. apply list_elem_of_filter. split; [exact Hne | exact Hs].
  - apply elem_of_app. right. apply list_elem_of_singleton. reflexivity.
  - unfold classList, appendToBody, set_attached, set_transform, set_text.
    cbn [classes]. rewrite C2, lookup_insert_eq. reflexivity.
  - now rewrite T2, T1.
  - now rewrite I2, I1.
  - now rewrite D2, D1.
  - rewrite <- app_assoc. reflexivity.
  - rewrite <- app_assoc. reflexivity.
  - apply lookup_insert_eq.
Qed.

Lemma notif_remove_detaches n b : n ∉ attached (page (notif_remove n b)).
Proof.
  unfold notif_remove. destruct (decide _) as [Hin|Hout]; [|exact Hout].
  cbn [page set_page remove set_attached attached].
  rewrite list_elem_of_filter. tauto.
Qed.

(** What the three timers of a banner do when they fire: the first
    slides it in, the second slides it out and schedules the third, which
    takes it out of the page. *)
Lemma banner_timers n bl :
  transform (page (Program.fire (ANotifIn n) bl)) !! n = Some "translateX(0)"
  /\ transform (page (Program.fire (ANotifOut n) bl)) !! n
     = Some "translateX(400px)"
  /\ timers (Program.fire (ANotifOut n) bl)
     = timers bl ++ [{| due := now bl + 300; act := ANotifRemove n |}]
  /\ n ∉ attached (page (Program.fire (ANotifRemove n) bl)).
Proof.
  cbn [Program.fire]. unfold notif_in, notif_out.
  cbn [page set_page setTimeout timers now set_transform transform].
  split; [apply lookup_insert_eq|]. split; [apply lookup_insert_eq|].
  split; [reflexivity|]. apply notif_remove_detaches.
Qed.

(** C7: when a field of the form fails validation, [handleFormSubmission]
    shows the error banner and returns.  The banner is the only thing it
    adds: its two timers are the only calls made (nothing is scheduled at
    2000 ms), the submit button is neither disabled nor relabelled, and no
    control of the form changes value.  The banner is appended off the
    screen, at [translateX(400px)]; its first timer, due 100 ms later,
    slides it in to [translateX(0)].  The banner is transient: the
    slide-out timer, due at 5000 ms, moves it back to
    [translateX(400px)] and schedules its removal 300 ms later, and that
    removal takes it out of the page. *)
Theorem invalid_submission_aborts (f : form) (b : browser) (submitButton : elem) :
  submit f = Some submitButton ->
  is_Some (text (page b) !! submitButton) ->
  (forall e, e ∈ List.filter (fun e => contains (page b) e "form-input")
                             (descendants f) ->
             is_Some (inputs (page b) !! e)) ->
  forallb (valid_at (page b))
          (List.filter (fun e => contains (page b) e "form-input")
                       (descendants f)) = false ->
  exists b' n,
    handleFormSubmission f b = (b', Ok tt)
    /\ n ∈ attached (page b')
    /\ classList (page b') n = ["notification"; "notification-error"]
    /\ text (page b') !! n = Some "Please fix the errors in the form"
    /\ calls b' = calls b ++ [CallSetTimeout (ANotifIn n) 100;
                              CallSetTimeout (ANotifOut n) 5000]
    /\ (forall bl, In (CallSetTimeout (ANotifRemove n) 300)
                      (calls (Program.fire (ANotifOut n) bl))
                   /\ n ∉ attached (page (Program.fire (ANotifRemove n) bl)))
    /\ disabled (page b') = disabled (page b)
    /\ text (page b') !! submitButton = text (page b) !! submitButton
    /\ inputs (page b') = inputs (page b)
    /\ transform (page b') !! n = Some "translateX(400px)"
    /\ timers b' = timers b ++ [{| due := now b + 100; act := ANotifIn n |};
                                {| due := now b + 5000; act := ANotifOut n |}]
    /\ (forall bl,
          transform (page (Program.fire (ANotifIn n) bl)) !! n
          = Some "translateX(0)"
          /\ transform (page (Program.fire (ANotifOut n) bl)) !! n
             = Some "translateX(400px)"
          /\ timers (Program.fire (ANotifOut n) bl)
             = timers bl ++ [{| due := now bl + 300; act := ANotifRemove n |}]).
Proof.
  intros Hbtn Hlabel Hctl Hbad.
  destruct (validateAll_spec _ true b Hctl) as (b1 & E & F).
  rewrite Hbad in E. cbn [andb] in E.
  destruct F as (I1 & D1 & A1 & M1 & P1 & T1 & C1 & N1 & S1 & X1).
  destruct (showNotification_spec "Please fix the errors in the form" "error" b1)
    as (n & Hn & Hatt & Hcls & Htxt & Hin & Hdis & Hcalls & Htim & Htr).
  exists (showNotification "Please fix the errors in the form" "error" b1), n.
  assert (Hs : submitButton ∈ solid (page b)).
  { unfold solid. rewrite !elem_of_union. apply elem_of_dom in Hlabel. tauto. }
  splits.
  - unfold handleFormSubmission. rewrite Hbtn, E. reflexivity.
  - exact Hatt.
  - rewrite Hcls. reflexivity.
  - rewrite Htxt. apply lookup_insert_eq.
  - rewrite Hcalls, C1. reflexivity.
  - intros bl. split.
    + cbn [Program.fire notif_out setTimeout calls]. apply in_or_app. right.
      left. reflexivity.
    + cbn [Program.fire]. apply notif_remove_detaches.
  - now rewrite Hdis, D1.
  - rewrite Htxt, lookup_insert_ne; [now apply X1|].
    intros <-. apply Hn. now apply S1.
  - now rewrite Hin, I1.
  - exact Htr.
  - now rewrite Htim, T1, N1.
  - intros bl. destruct (banner_timers n bl) as (B1 & B2 & B3 & _).
    split; [exact B1|]. split; [exact B2 | exact B3].
Qed.

Lemma invalid_submission_aborts_witness :
  forallb (valid_at (page Demo.demo_invalid)) [3; 4] = false
  /\ exists b' n,
       handleFormSubmission Demo.demo_form Demo.demo_invalid = (b', Ok tt)
       /\ n ∈ attached (page b')
       /\ classList (page b') n = ["notification"; "notification-error"]
       /\ calls b' = [CallSetTimeout (ANotifIn n) 100;
                      CallSetTimeout (ANotifOut n) 5000]
       /\ disabled (page b') = disabled (page Demo.demo_invalid)
       /\ text (page b') !! 5 = Some "Send Message"
       /\ inputs (page b') = inputs (page Demo.demo_invalid)
       /\ transform (page b') !! n = Some "translateX(400px)"
       /\ transform (page (Program.fire (ANotifIn n) b')) !! n
          = Some "translateX(0)".
Proof.
  split; [vm_compute; reflexivity|].
  assert (Hlabel : is_Some (text (page Demo.demo_invalid) !! 5))
    by (exists "Send Message"; vm_compute; reflexivity).
  assert (Hctl : forall e,
             e ∈ List.filter (fun e => contains (page Demo.demo_invalid) e
                                                "form-input")
                             (descendants Demo.demo_form) ->
             is_Some (inputs (page Demo.demo_invalid) !! e)).
  { intros e He. apply list_elem_of_In in He. vm_compute in He.
    destruct He as [<-|[<-|[]]]; eexists; vm_compute; reflexivity. }
  assert (Hbad : forallb (valid_at (page Demo.demo_invalid))
                    (List.filter (fun e => contains (page Demo.demo_invalid) e
                                                    "form-input")
                                 (descendants Demo.demo_form)) = false)
    by (vm_compute; reflexivity).
  destruct (invalid_submission_aborts Demo.demo_form Demo.demo_invalid 5
              eq_refl Hlabel Hctl Hbad)
    as (b' & n & E & Ha & Hc & _ & Hcalls & _ & Hd & Ht & Hi & Htr & _ & Hl).
  exists b', n. repeat apply conj; try assumption.
  exact (proj1 (Hl b')).
Defined.



Lemma reset_idempotent i :
  input_set_value (in_default (input_set_value (in_default i) i))
                  (input_set_value (in_default i) i)
  = input_set_value (in_default i) i.
Proof. reflexivity. Qed.




End Submission.

(** ** Calls made to the browser *)

Section Calls.
Import Dom Browser Program Notions.

Lemma quiet_refl b : quiet_ext b b.
Proof. exists []. split; [now rewrite app_nil_r | reflexivity]. Qed.

Lemma quiet_trans b1 b2 b3 : quiet_ext b1 b2 -> quiet_ext b2 b3 -> quiet_ext b1 b3.
Proof.
  intros (l1 & E1 & Q1) (l2 & E2 & Q2). exists (l1 ++ l2). split.
  - now rewrite E2, E1, app_assoc.
  - rewrite forallb_app, Q1, Q2. reflexivity.
Qed.

Lemma quiet_same b b' : calls b' = calls b -> quiet_ext b b'.
Proof. intros E. exists []. split; [now rewrite app_nil_r | reflexivity]. Qed.

Lemma quiet_setTimeout a delay b :
  quiet (CallSetTimeout a delay) = true -> quiet_ext b (setTimeout a delay b).
Proof.
  intros Q. exists [CallSetTimeout a delay]. split; [reflexivity|].
  cbn [forallb]. now rewrite Q.
Qed.

Lemma quiet_frame b b' : frame b b' -> quiet_ext b b'.
Proof. intros (_ & _ & _ & _ & _ & _ & C & _). now apply quiet_same. Qed.

Lemma quiet_fold_left {A} (f : browser -> A -> browser) (l : list A) :
  (forall b x, quiet_ext b (f b x)) ->
  forall b, quiet_ext b (fold_left f l b).
Proof.
  intros Hf. induction l as [|x l IH]; intros b; cbn [fold_left].
  - apply quiet_refl.
  - eapply quiet_trans; [apply Hf | apply IH].
Qed.

Lemma quiet_reveal el b : quiet_ext b (ScrollAnimator.reveal el b).
Proof.
  unfold ScrollAnimator.reveal. destruct (existsb _ _).
  - eapply quiet_trans; [|apply quiet_setTimeout; reflexivity].
    now apply quiet_same.
  - now apply quiet_same.
Qed.

Lemma quiet_on_load b : quiet_ext b (ScrollAnimator.on_load b).
Proof.
  unfold ScrollAnimator.on_load. apply quiet_fold_left. intros b0 sd.
  destruct (querySelector _ _); [|apply quiet_refl].
  now apply quiet_setTimeout.
Qed.

Lemma quiet_showNotification msg ty b :
  quiet_ext b (PortfolioApp.showNotification msg ty b).
Proof.
  destruct (showNotification_spec msg ty b) as (n & _ & _ & _ & _ & _ & _ & C & _).
  eexists. split; [exact C | reflexivity].
Qed.

Lemma validateField_frame field b r b' :
  PortfolioApp.validateField field b = Ok (r, b') -> frame b b'.
Proof.
  intros E. destruct (inputs (page b) !! field) as [i|] eqn:Hi.
  - destruct (validateField_spec field b i Hi) as (b2 & E2 & _ & F).
    rewrite E in E2. apply Ok_pair_inv in E2 as [_ ->]. exact F.
  - unfold PortfolioApp.validateField in E. rewrite Hi in E. discriminate.
Qed.

Lemma validateAll_frame l ok b :
  frame b (fst (PortfolioApp.validateAll l ok b)).
Proof.
  revert ok b. induction l as [|x l IH]; intros ok b;
    cbn [PortfolioApp.validateAll].
  - apply frame_refl.
  - destruct (PortfolioApp.validateField x b) as [[r1 b1]|] eqn:E1;
      [|apply frame_refl].
    eapply frame_trans; [eapply validateField_frame; eassumption | apply IH].
Qed.

Lemma quiet_handleFormSubmission f b :
  quiet_ext b (fst (PortfolioApp.handleFormSubmission f b)).
Proof.
  unfold PortfolioApp.handleFormSubmission.
  destruct (PortfolioApp.submit f) as [btn|]; [|apply quiet_refl].
  pose proof (quiet_frame _ _ (validateAll_frame
                (List.filter (fun e => contains (page b) e "form-input")
                             (PortfolioApp.descendants f)) true b)) as K.
  destruct (PortfolioApp.validateAll _ true b) as [b0 [r|e]]; cbn [fst] in *;
    [|exact K].
  destruct r; cbn [negb fst]; (eapply quiet_trans; [exact K|]).
  - eapply quiet_trans; [|apply quiet_setTimeout; reflexivity].
    now apply quiet_same.
  - apply quiet_showNotification.
Qed.

Lemma calls_fold_set_page {A} (g : A -> document -> document) (l : list A) b :
  calls (fold_left (fun b x => set_page (g x) b) l b) = calls b.
Proof.
  revert b. induction l as [|x l IH]; intros b; cbn [fold_left];
    [reflexivity|]. now rewrite IH.
Qed.

Lemma quiet_submit_done txt ins ctl btn b :
  quiet_ext b (PortfolioApp.submit_done txt ins ctl btn b).
Proof.
  unfold PortfolioApp.submit_done.
  eapply quiet_trans; [apply (quiet_showNotification
    "Message sent successfully! I'll get back to you soon." "success")|].
  apply quiet_same. cbn [set_page calls].
  now rewrite (calls_fold_set_page (fun x => classList_remove x ["success"])).
Qed.

Lemma quiet_showProjectModal pd b b' :
  PortfolioApp.showProjectModal pd b = Ok b' -> quiet_ext b b'.
Proof.
  unfold PortfolioApp.showProjectModal.
  destruct (createElement _ _) as [m d1].
  destruct (PortfolioApp.details pd); [|discriminate].
  intros [= <-]. eapply quiet_trans; [|apply quiet_setTimeout; reflexivity].
  now apply quiet_same.
Qed.

Lemma quiet_project_link_click href c b b' :
  PortfolioApp.project_link_click href c b = Ok b' -> quiet_ext b b'.
Proof.
  unfold PortfolioApp.project_link_click. destruct (_ || _).
  - destruct c as [c|]; cbn [PortfolioApp.from_option_or_throw bind];
      [|discriminate].
    destruct (PortfolioApp.getProjectData c) as [pd|]; cbn [bind];
      [|discriminate].
    apply quiet_showProjectModal.
  - intros [= <-]. eexists. split; [reflexivity | reflexivity].
Qed.

Lemma quiet_fire a b : quiet_ext b (fire a b).
Proof.
  destruct a; cbn [fire].
  - apply quiet_reveal.
  - now apply quiet_same.
  - now apply quiet_same.
  - apply quiet_submit_done.
  - now apply quiet_same.
  - unfold PortfolioApp.notif_out.
    eapply quiet_trans; [|apply quiet_setTimeout; reflexivity].
    now apply quiet_same.
  - unfold PortfolioApp.notif_remove. destruct (decide _); now apply quiet_same.
  - now apply quiet_same.
  - unfold PortfolioApp.modal_remove. destruct (decide _); now apply quiet_same.
  - now apply quiet_same.
  - now apply quiet_same.
  - now apply quiet_same.
Qed.

Lemma calls_take_timer b a b' : take_timer b = Some (a, b') -> calls b' = calls b.
Proof.
  unfold take_timer. destruct (pop_earliest _) as [[t rest]|]; [|discriminate].
  intros [= <- <-]. reflexivity.
Qed.

End Calls.

(** ** Registration with the observer *)

Section Registration.
Import Dom Browser Program Notions.
Import ScrollAnimator.

Lemma quiet_filters l el :
  forallb quiet l = true ->
  List.filter (is_observe_call el) l = []
  /\ List.filter (is_reveal_call el) l = [].
Proof.
  induction l as [|c l IH]; cbn [forallb List.filter]; [auto|].
  intros H. apply andb_true_iff in H as [Hc Hl].
  destruct (IH Hl) as [IH1 IH2].
  destruct c as [x|a q|u]; cbn [is_observe_call is_reveal_call];
    try discriminate; auto.
  destruct a; try discriminate; auto.
Qed.

Lemma quiet_registrations w w' el :
  quiet_ext (env w) (env w') -> registrations el w' = registrations el w.
Proof.
  intros (l & E & Q). unfold registrations.
  rewrite E, List.filter_app, (proj1 (quiet_filters l el Q)), app_nil_r.
  reflexivity.
Qed.

Lemma quiet_invocations w w' el :
  quiet_ext (env w) (env w') ->
  handler_invocations el w' = handler_invocations el w.
Proof.
  intros (l & E & Q). unfold handler_invocations.
  rewrite E, List.filter_app, (proj2 (quiet_filters l el Q)), app_nil_r.
  reflexivity.
Qed.

(** Steps other than a sweep or a delivery make quiet calls only. *)
Lemma quiet_step o w :
  match o with
  | Sweep | Intersect _ => True
  | _ => quiet_ext (env w) (env (step o w))
  end.
Proof.
  destruct o; cbn [step]; try exact I.
  - destruct (animator w); [apply quiet_refl|].
    destruct (construct _); apply quiet_refl.
  - destruct (animator w) as [a|]; [|apply quiet_refl].
    destruct (load_bound a); [|apply quiet_refl].
    cbn [with_env env]. unfold PageTransitions.on_load.
    eapply quiet_trans; [apply quiet_on_load|].
    eapply quiet_trans; [|apply quiet_setTimeout; reflexivity].
    now apply quiet_same.
  - destruct (portfolio w) as [app|]; [|apply quiet_refl].
    destruct (PortfolioApp.loading_bound app); [|apply quiet_refl].
    cbn [with_env env]. unfold PortfolioApp.on_load.
    eapply quiet_trans; [|apply quiet_setTimeout; reflexivity].
    now apply quiet_same.
  - destruct (portfolio w); [apply quiet_refl|]. cbn [env].
    destruct (PortfolioApp.typewriter _); [|apply quiet_refl].
    unfold PortfolioApp.typewriter_start.
    eapply quiet_trans; [|apply quiet_setTimeout; reflexivity].
    now apply quiet_same.
  - destruct (decide _); [|apply quiet_refl]. cbn [with_env env].
    destruct (PortfolioApp.validateField field _) as [[r b']|] eqn:E;
      cbn [bind or_unchanged snd]; [|apply quiet_refl].
    eapply quiet_frame, validateField_frame; eassumption.
  - destruct (decide _); [|apply quiet_refl]. now apply quiet_same.
  - destruct (bound_form w); [|apply quiet_refl]. cbn [with_env env].
    apply quiet_handleFormSubmission.
  - destruct (portfolio w) as [app|]; [|apply quiet_refl].
    destruct (PortfolioApp.project_links_bound app); [|apply quiet_refl].
    cbn [with_env env].
    destruct (PortfolioApp.project_link_click _ _ _) as [b'|] eqn:E;
      cbn [or_unchanged]; [|apply quiet_refl].
    eapply quiet_project_link_click; eassumption.
  - destruct (decide _); [|apply quiet_refl]. cbn [with_env env].
    unfold PortfolioApp.closeProjectModal.
    eapply quiet_trans; [|apply quiet_setTimeout; reflexivity].
    now apply quiet_same.
  - destruct (take_timer _) as [[a b]|] eqn:E; [|apply quiet_refl].
    cbn [with_env env]. eapply quiet_trans; [|apply quiet_fire].
    apply quiet_same. eapply calls_take_timer; eassumption.
  - now apply quiet_same.
  - now apply quiet_same.
Qed.

(** Only construction and sweeps touch the fields of the animator. *)
Lemma animator_step o w :
  match o with
  | NewScrollAnimator | Sweep => True
  | _ => animator (step o w) = animator w
  end.
Proof.
  destruct o; cbn [step]; try exact I;
    repeat match goal with
           | |- context [match ?x with _ => _ end] => destruct x eqn:?
           end;
    cbn [with_env animator]; congruence.
Qed.

Lemma fresh_targets_count seen l el :
  length (List.filter (is_observe_call el)
                      (map CallObserve (fresh_targets seen l))) = 0
  \/ (length (List.filter (is_observe_call el)
                          (map CallObserve (fresh_targets seen l))) = 1
      /\ (el ∉ seen) /\ el ∈ l).
Proof.
  revert seen. induction l as [|x l IH]; intros seen; cbn [fresh_targets].
  - now left.
  - destruct (decide (x ∈ seen)) as [Hin|Hout].
    + destruct (IH seen) as [H0|(H1 & Hs & Hl)]; [now left|].
      right. split; [exact H1|]. split; [exact Hs|].
      now apply list_elem_of_further.
    + cbn [map List.filter is_observe_call].
      destruct (IH ({[x]} ∪ seen)) as [H0|(H1 & Hs & Hl)].
      * destruct (bool_decide (x = el)) eqn:Ex.
        -- apply bool_decide_eq_true in Ex. subst x. right.
           cbn [length]. rewrite H0. split; [reflexivity|].
           split; [exact Hout | apply list_elem_of_here].
        -- now left.
      * destruct (bool_decide (x = el)) eqn:Ex.
        -- apply bool_decide_eq_true in Ex. subst x. exfalso. apply Hs.
           apply elem_of_union. left. now apply elem_of_singleton.
        -- right. split; [exact H1|]. split.
           ++ intros H. apply Hs. apply elem_of_union. now right.
           ++ now apply list_elem_of_further.
Qed.

Lemma forEach_observeElement_spec l a b a' b' :
  forEach observeElement l (a, b) = Ok (a', b') ->
  calls b' = calls b ++ map CallObserve (fresh_targets (animatedElements a) l)
  /\ animatedElements a' = list_to_set l ∪ animatedElements a
  /\ sweep_bound a' = sweep_bound a /\ load_bound a' = load_bound a
  /\ page b' = page b /\ timers b' = timers b /\ now b' = now b
  /\ hasIntersectionObserver b' = hasIntersectionObserver b.
Proof.
  revert a b. induction l as [|x l IH]; intros a b; cbn [forEach fresh_targets].
  - intros [= <- <-]. rewrite app_nil_r.
    repeat apply conj; try reflexivity. set_solver.
  - unfold observeElement at 1. cbn [fst snd].
    destruct (decide (x ∈ animatedElements a)) as [Hin|Hout]; cbn [bind].
    + intros H. destruct (IH _ _ H) as (C & A & R). rewrite C, A.
      repeat apply conj; try tauto. set_solver.
    + unfold observe. destruct (observer a) as [o|]; cbn [bind fst snd];
        [|discriminate].
      intros H. destruct (IH _ _ H) as (C & A & S & L & P & T & N & HI).
      rewrite C, A. cbn [remember animatedElements record_call calls] in *.
      repeat apply conj; try assumption.
      * now rewrite <- app_assoc.
      * set_solver.
Qed.

Lemma forEach_observeElement_seen l a b :
  (forall x, x ∈ l -> x ∈ animatedElements a) ->
  forEach observeElement l (a, b) = Ok (a, b).
Proof.
  induction l as [|x l IH]; intros H; cbn [forEach]; [reflexivity|].
  unfold observeElement at 1. cbn [fst snd].
  destruct (decide (x ∈ animatedElements a)) as [Hin|Hout].
  - cbn [bind]. apply IH. intros y Hy. apply H. now apply list_elem_of_further.
  - exfalso. apply Hout, H. apply list_elem_of_here.
Qed.

(** A second sweep over an unchanged page registers nothing. *)
Lemma sweep_twice w : step Sweep (step Sweep w) = step Sweep w.
Proof.
  cbn [step]. destruct (animator w) as [a|] eqn:Ea; [|now rewrite Ea].
  destruct (sweep_bound a) eqn:Eb; [|now rewrite Ea, Eb].
  destruct (observeElements a (env w)) as [[a' b']|] eqn:E;
    [|now rewrite Ea, Eb, E].
  cbn [animator env]. unfold observeElements in *.
  destruct (forEach_observeElement_spec _ _ _ _ _ E)
    as (_ & A & S & _ & P & _).
  rewrite S, Eb, P. rewrite forEach_observeElement_seen; [reflexivity|].
  intros x Hx. rewrite A. apply elem_of_union. left.
  now apply elem_of_list_to_set.
Qed.

(** Whatever was registered is remembered in [animatedElements]. *)
Lemma registered_once_step o w :
  (forall el, registrations el w = 0
              \/ (registrations el w = 1
                  /\ exists a, animator w = Some a /\ el ∈ animatedElements a)) ->
  forall el, registrations el (step o w) = 0
             \/ (registrations el (step o w) = 1
                 /\ exists a, animator (step o w) = Some a
                              /\ el ∈ animatedElements a).
Proof.
  intros Inv el. specialize (Inv el).
  pose proof (quiet_step o w) as Q. pose proof (animator_step o w) as A.
  destruct o;
    try (rewrite (quiet_registrations _ _ el Q), A; exact Inv).
  - (* construction *)
    rewrite (quiet_registrations _ _ el Q). cbn [step].
    destruct (animator w) as [a|] eqn:Ea; [rewrite Ea; exact Inv|].
    destruct Inv as [H0|(_ & a & Ha & _)]; [|discriminate].
    left. destruct (construct (env w)); exact H0.
  - (* sweep *)
    cbn [step]. destruct (animator w) as [a|] eqn:Ea; [|rewrite Ea; exact Inv].
    destruct (sweep_bound a); [|rewrite Ea; exact Inv].
    destruct (observeElements a (env w)) as [[a' b']|] eqn:E;
      [|rewrite Ea; exact Inv].
    unfold observeElements in E.
    destruct (forEach_observeElement_spec _ _ _ _ _ E) as (C & S & _).
    unfold registrations in *. cbn [env animator]. rewrite C.
    rewrite List.filter_app, length_app.
    destruct (fresh_targets_count (animatedElements a)
                (querySelectorAll intents (page (env w))) el)
      as [K0|(K1 & Hs & Hl)].
    + rewrite K0, Nat.add_0_r.
      destruct Inv as [H0|(H1 & a0 & Ha & Hin)]; [now left|].
      right. split; [exact H1|]. exists a'. split; [reflexivity|].
      injection Ha as <-. rewrite S. apply elem_of_union. now right.
    + rewrite K1. destruct Inv as [H0|(H1 & a0 & Ha & Hin)].
      * right. rewrite H0. split; [reflexivity|]. exists a'.
        split; [reflexivity|]. rewrite S. apply elem_of_union. left.
        now apply elem_of_list_to_set.
      * injection Ha as <-. contradiction.
  - (* delivery *)
    cbn [step]. destruct (animator w) as [a|] eqn:Ea; [|rewrite Ea; exact Inv].
    cbn [animator].
    assert (R : registrations el (with_env (deliver a entries (env w)) w)
                = registrations el w).
    { unfold registrations, deliver. cbn [with_env env].
      destruct (observer a) as [o|]; [|reflexivity].
      generalize (List.filter
                    (fun en => bool_decide (target en ∈ targets o)) entries).
      intros l. unfold on_entries. generalize (env w). clear.
      induction l as [|en l IH]; intros b; cbn [fold_left]; [reflexivity|].
      rewrite IH. destruct (isIntersecting en); [|reflexivity].
      unfold handleIntersect. cbn [setTimeout calls].
      rewrite List.filter_app. cbn [List.filter is_observe_call].
      now rewrite app_nil_r. }
    rewrite R. cbn [with_env animator]. rewrite Ea. exact Inv.
Qed.

(** C8: registration is idempotent.  Along any run of the page,
    whatever the sweeps, deliveries, timers and other events in it, no
    element is handed to [observer.observe] more than once; and a sweep
    that follows a sweep changes nothing at all. *)
Theorem registration_idempotent (d : document) (hasIO : bool) (ops : list op)
  (el : elem) :
  registrations el (run ops (initial d hasIO)) <= 1
  /\ step Sweep (step Sweep (run ops (initial d hasIO)))
     = step Sweep (run ops (initial d hasIO)).
Proof.
  split; [|apply sweep_twice].
  assert (Inv : forall w,
             (forall el, registrations el w = 0
                         \/ (registrations el w = 1
                             /\ exists a, animator w = Some a
                                          /\ el ∈ animatedElements a)) ->
             forall el, registrations el (run ops w) <= 1).
  { unfold run. induction ops as [|o ops IH]; intros w H x; cbn [fold_left].
    - destruct (H x) as [-> | [-> _]]; lia.
    - apply IH. now apply registered_once_step. }
  apply Inv. intros x. now left.
Qed.

End Registration.

(** ** How often the reveal handler runs *)

Section Invocations.
Import Dom Browser Program Notions.
Import ScrollAnimator.

Lemma invocations_on_entries el l b :
  length (List.filter (is_reveal_call el) (calls (on_entries l b)))
  = length (List.filter (is_reveal_call el) (calls b))
    + length (List.filter
                (fun en => isIntersecting en && bool_decide (target en = el)) l).
Proof.
  unfold on_entries. revert b.
  induction l as [|en l IH]; intros b; cbn [fold_left List.filter].
  - now rewrite Nat.add_0_r.
  - rewrite IH. destruct (isIntersecting en); cbn [andb]; [|reflexivity].
    unfold handleIntersect. cbn [setTimeout calls].
    rewrite List.filter_app, length_app.
    cbn [List.filter is_reveal_call].
    destruct (bool_decide (target en = el)); cbn [length]; lia.
Qed.

Lemma watched_reports el (ts : list elem) entries :
  length (List.filter
            (fun en => isIntersecting en && bool_decide (target en = el))
            (List.filter (fun en => bool_decide (target en ∈ ts)) entries))
  = if bool_decide (el ∈ ts)
    then length (List.filter
                   (fun en => isIntersecting en && bool_decide (target en = el))
                   entries)
    else 0.
Proof.
  induction entries as [|en l IH]; cbn [List.filter].
  - now destruct (bool_decide _).
  - destruct (isIntersecting en && bool_decide (target en = el)) eqn:Ep.
    + pose proof Ep as Ep'.
      apply andb_true_iff in Ep' as [_ Ep']. apply bool_decide_eq_true in Ep'.
      replace (bool_decide (target en ∈ ts)) with (bool_decide (el ∈ ts))
        by now rewrite Ep'.
      destruct (bool_decide (el ∈ ts)) eqn:Et; cbn [List.filter];
        rewrite ?Ep; cbn [length]; rewrite IH; reflexivity.
    + destruct (bool_decide (target en ∈ ts)); cbn [List.filter];
        rewrite ?Ep; exact IH.
Qed.

Lemma invocations_step o w el :
  handler_invocations el (step o w)
  = handler_invocations el w + reports el o w.
Proof.
  pose proof (quiet_step o w) as Q.
  destruct o; cbn [reports];
    try (rewrite (quiet_invocations _ _ el Q); lia).
  - (* sweep: only [observe] calls *)
    rewrite Nat.add_0_r. cbn [step].
    destruct (animator w) as [a|]; [|reflexivity].
    destruct (sweep_bound a); [|reflexivity].
    destruct (observeElements a (env w)) as [[a' b']|] eqn:E; [|reflexivity].
    unfold observeElements in E.
    destruct (forEach_observeElement_spec _ _ _ _ _ E) as (C & _).
    unfold handler_invocations. cbn [env]. rewrite C, List.filter_app.
    assert (N : forall l, List.filter (is_reveal_call el)
                                      (map CallObserve l) = []).
    { clear. induction l; cbn; auto. }
    now rewrite N, app_nil_r.
  - (* delivery *)
    unfold observed. cbn [step].
    destruct (animator w) as [a|]; [|lia].
    unfold handler_invocations, deliver. cbn [with_env env].
    destruct (observer a) as [o|]; [|lia].
    rewrite invocations_on_entries, watched_reports. reflexivity.
Qed.

(** C1, as the code has it: the reveal handler of an element runs once
    for every entry the observer delivers that reports the element, being
    one of its targets, as intersecting, and at no other time.  It runs on
    the first such report and again on every later one. *)
Theorem handler_runs_on_every_report (ops : list op) (w : world) (el : elem) :
  handler_invocations el (run ops w)
  = handler_invocations el w + intersecting_reports el ops w.
Proof.
  unfold run. revert w.
  induction ops as [|o ops IH]; intros w;
    cbn [fold_left intersecting_reports].
  - lia.
  - rewrite IH, invocations_step. lia.
Qed.

(** C1, as stated, fails: the element was registered once, came into view
    twice, and its handler ran twice. *)
Lemma one_shot_refuted :
  registrations 1 Demo.demo_two_crossings = 1
  /\ revealed Demo.demo_two_crossings 1 = true
  /\ handler_invocations 1 Demo.demo_two_crossings = 2
  /\ handler_invocations 1 Demo.demo_two_crossings <> 1.
Proof. vm_compute. repeat split; congruence. Qed.

(** C4, as the code has it: without the observation primitive
    [createObserver] raises a [ReferenceError] out of the constructor, no
    animator comes to exist, and every event the animator would have
    listened to leaves the page exactly as it was: nothing is registered
    and nothing is revealed. *)
Theorem absent_observer_raises (w : world) (ops : list op) :
  hasIntersectionObserver (env w) = false ->
  animator w = None ->
  forallb animator_op ops = true ->
  construct (env w) = Throw ReferenceError /\ run ops w = w.
Proof.
  intros Hno Hnone Hops. unfold construct, createObserver.
  rewrite Hno. split; [reflexivity|].
  unfold run. induction ops as [|o ops IH]; cbn [fold_left]; [reflexivity|].
  cbn [forallb] in Hops. apply andb_true_iff in Hops as [Ho Hops].
  assert (S : step o w = w).
  { destruct o; try discriminate; cbn [step]; rewrite Hnone; try reflexivity.
    unfold construct, createObserver. now rewrite Hno. }
  rewrite S. now apply IH.
Qed.

Lemma absent_observer_raises_witness :
  construct (env (initial Demo.demo_page false)) = Throw ReferenceError
  /\ run [NewScrollAnimator; Sweep; Load; Intersect [Demo.entering 1 350]]
         (initial Demo.demo_page false)
     = initial Demo.demo_page false.
Proof.
  exact (absent_observer_raises (initial Demo.demo_page false)
           [NewScrollAnimator; Sweep; Load; Intersect [Demo.entering 1 350]]
           eq_refl eq_refl eq_refl).
Defined.

(** C4, as stated, fails: in a browser without the primitive the
    constructor raises, and the trackable elements are never revealed. *)
Lemma no_fallback_reveal :
  construct (env (initial Demo.demo_page false)) = Throw ReferenceError
  /\ animator Demo.demo_no_observer = None
  /\ revealed Demo.demo_no_observer 1 = false
  /\ revealed Demo.demo_no_observer 2 = false.
Proof. vm_compute. repeat split; reflexivity. Qed.

End Invocations.

(** ** The stagger delay *)

Section Stagger.
Import Dom Double Browser Program Notions.
Import ScrollAnimator.

Lemma Qtrunc_compat (x y : Q) : x == y -> Qtrunc x = Qtrunc y.
Proof.
  unfold Qeq, Qtrunc. intros H.
  rewrite <- (Z.quot_mul_cancel_r (Qnum x) (Zpos (Qden x)) (Zpos (Qden y)))
    by lia.
  rewrite <- (Z.quot_mul_cancel_r (Qnum y) (Zpos (Qden y)) (Zpos (Qden x)))
    by lia.
  rewrite H. f_equal. lia.
Qed.

Lemma Qtrunc_inject_Z (z : Z) : Qtrunc (inject_Z z) = z.
Proof. unfold Qtrunc. cbn [inject_Z Qnum Qden]. apply Z.quot_1_r. Qed.

(** On whole numbers [%] is the truncated remainder. *)
Lemma js_rem_whole (y m : Z) :
  (0 < m)%Z -> js_rem (inject_Z y) (inject_Z m) == inject_Z (Z.rem y m).
Proof.
  intros Hm. unfold js_rem.
  assert (T : Qtrunc (inject_Z y / inject_Z m) = Z.quot y m).
  { unfold Qtrunc, Qdiv, Qinv, Qmult, inject_Z. cbn [Qnum Qden].
    destruct m as [|p|p]; try lia. cbn [Qnum Qden].
    rewrite Z.mul_1_r, Pos.mul_1_l. reflexivity. }
  rewrite T. pose proof (Z.quot_rem' y m) as E.
  unfold Qeq, Qminus, Qplus, Qopp, Qmult, inject_Z. cbn [Qnum Qden]. lia.
Qed.

(** What [%] computes for a modulus of 300: the dividend less a whole
    multiple of 300, smaller than 300 in size and of the sign of the
    dividend. *)
Lemma js_rem_300 (top : Q) :
  (js_rem top 300 == top - 300 * inject_Z (Qtrunc (top / 300)))%Q
  /\ (Qabs (js_rem top 300) < 300)%Q
  /\ (0 <= js_rem top 300 * top)%Q.
Proof.
  split; [reflexivity|].
  destruct top as [n d]. unfold js_rem.
  assert (T : Qtrunc ((n # d) / 300) = Z.quot n (300 * Zpos d)).
  { unfold Qtrunc, Qdiv, Qinv, Qmult. cbn [Qnum Qden].
    rewrite Z.mul_1_r. f_equal. lia. }
  rewrite T.
  pose proof (Z.quot_rem' n (300 * Zpos d)) as E.
  pose proof (Z.rem_bound_abs n (300 * Zpos d) ltac:(lia)) as B.
  assert (S : (0 <= n -> 0 <= Z.rem n (300 * Zpos d))%Z
              /\ (n <= 0 -> Z.rem n (300 * Zpos d) <= 0)%Z).
  { split; intros H; [apply Z.rem_nonneg | apply Z.rem_nonpos]; lia. }
  set (q := Z.quot n (300 * Zpos d)) in *.
  set (r := Z.rem n (300 * Zpos d)) in *.
  split.
  - unfold Qlt, Qabs, Qminus, Qplus, Qopp, Qmult, inject_Z. cbn [Qnum Qden].
    lia.
  - unfold Qle, Qminus, Qplus, Qopp, Qmult, inject_Z. cbn [Qnum Qden].
    destruct S as [S1 S2].
    replace ((n * Z.pos (1 * 1) + - (300 * q) * Z.pos d) * n * 1)%Z
      with (r * n)%Z by lia.
    rewrite Z.mul_0_l.
    destruct (Z.le_ge_cases 0 n) as [Hn|Hn].
    + apply Z.mul_nonneg_nonneg; auto.
    + apply Z.mul_nonpos_nonpos; auto.
Qed.

Lemma two_pos (k : Z) : (0 < 2 ^ k)%Q.
Proof. apply Qpower_0_lt. reflexivity. Qed.

Lemma pow2_add (a b : Z) : (2 ^ (a + b) == 2 ^ a * 2 ^ b)%Q.
Proof. apply Qpower_plus. discriminate. Qed.

Lemma pow2_inject (a : Z) : (0 <= a)%Z -> (inject_Z (2 ^ a) == 2 ^ a)%Q.
Proof. intros H. apply (Zpower_Qpower 2 a H). Qed.

Lemma pow2_le (a b : Z) : (a <= b)%Z -> (2 ^ a <= 2 ^ b)%Q.
Proof. intros H. apply Qpower_le_compat_l; [exact H | discriminate]. Qed.

Lemma pow2_lt_inv (a b : Z) : (2 ^ a < 2 ^ b)%Q -> (a < b)%Z.
Proof. intros H. apply (Qpower_lt_compat_l_inv 2); [exact H | reflexivity]. Qed.

(** [ilog2] is the floor of the binary logarithm. *)
Lemma ilog2_spec (x : Q) :
  (0 < x)%Q -> (2 ^ ilog2 x <= x)%Q /\ (x < 2 ^ (ilog2 x + 1))%Q.
Proof.
  intros Hx. destruct x as [n d].
  assert (Hn : (0 < n)%Z).
  { unfold Qlt in Hx. cbn in Hx. lia. }
  unfold ilog2. cbn [Qnum Qden].
  set (a := Z.log2 n). set (b := Z.log2 (Zpos d)).
  destruct (Z.log2_spec n Hn) as [A1 A2]. fold a in A1, A2.
  destruct (Z.log2_spec (Zpos d) eq_refl) as [B1 B2]. fold b in B1, B2.
  assert (Ha : (0 <= a)%Z) by apply Z.log2_nonneg.
  assert (Hb : (0 <= b)%Z) by apply Z.log2_nonneg.
  assert (QA1 : (2 ^ a <= inject_Z n)%Q).
  { rewrite <- pow2_inject by exact Ha. now rewrite <- Zle_Qle. }
  assert (QA2 : (inject_Z n < 2 ^ (a + 1))%Q).
  { rewrite <- pow2_inject by lia. rewrite <- Zlt_Qlt.
    now rewrite <- Z.add_1_r in A2. }
  assert (QB1 : (2 ^ b <= inject_Z (Zpos d))%Q).
  { rewrite <- pow2_inject by exact Hb. now rewrite <- Zle_Qle. }
  assert (QB2 : (inject_Z (Zpos d) <= 2 ^ (b + 1))%Q).
  { rewrite <- pow2_inject by lia. rewrite <- Zle_Qle.
    rewrite <- Z.add_1_r in B2. lia. }
  assert (Hd : (0 < inject_Z (Zpos d))%Q) by reflexivity.
  rewrite (Qmake_Qdiv n d).
  destruct (Qle_bool (2 ^ (a - b)) (inject_Z n / inject_Z (Zpos d))) eqn:T.
  - apply Qle_bool_iff in T. split; [exact T|].
    apply Qlt_shift_div_r; [exact Hd|].
    apply Qlt_le_trans with (2 ^ (a + 1))%Q; [exact QA2|].
    replace (a + 1)%Z with ((a - b + 1) + b)%Z by lia.
    rewrite pow2_add. apply Qmult_le_l; [apply two_pos | exact QB1].
  - assert (T' : (inject_Z n / inject_Z (Zpos d) < 2 ^ (a - b))%Q).
    { apply Qnot_le_lt. intros K. apply Qle_bool_iff in K.
      rewrite K in T. discriminate T. }
    split.
    + apply Qle_shift_div_l; [exact Hd|].
      apply Qle_trans with (2 ^ a)%Q; [|exact QA1].
      replace a with ((a - b - 1) + (b + 1))%Z at 2 by lia.
      rewrite pow2_add. apply Qmult_le_l; [apply two_pos | exact QB2].
    + replace (a - b - 1 + 1)%Z with (a - b)%Z by lia. exact T'.
Qed.

Lemma Qabs_gt_0 (x : Q) : ~ (x == 0)%Q -> (0 < Qabs x)%Q.
Proof.
  intros Hx. destruct (Qlt_le_dec 0 (Qabs x)) as [H|H]; [exact H|].
  exfalso. apply Hx. apply Qabs_Qle_condition in H. destruct H as [H1 H2].
  apply Qle_antisym; assumption.
Qed.

Lemma exponent_min (x : Q) : (-1074 <= exponent x)%Z.
Proof. unfold exponent. lia. Qed.

(** The significand fits 53 bits. *)
Lemma exponent_hi (x : Q) :
  ~ (x == 0)%Q -> (Qabs x < 2 ^ (exponent x + 53))%Q.
Proof.
  intros Hx.
  pose proof (Qabs_gt_0 x Hx) as P.
  destruct (ilog2_spec (Qabs x) P) as [_ H].
  eapply Qlt_le_trans; [exact H|].
  apply pow2_le. unfold exponent. lia.
Qed.

(** An exponent above the least is that of a normal number. *)
Lemma exponent_le (x : Q) (j : Z) :
  ~ (x == 0)%Q -> (-1074 <= j)%Z -> (Qabs x < 2 ^ (j + 53))%Q ->
  (exponent x <= j)%Z.
Proof.
  intros Hx Hj H.
  pose proof (Qabs_gt_0 x Hx) as P.
  destruct (ilog2_spec (Qabs x) P) as [L _].
  assert (K : (ilog2 (Qabs x) < j + 53)%Z).
  { apply pow2_lt_inv. eapply Qle_lt_trans; [exact L | exact H]. }
  unfold exponent. lia.
Qed.

Lemma nearest_even_le (q : Q) (N : Z) :
  (q <= inject_Z N)%Q -> (nearest_even q <= N)%Z.
Proof.
  intros H. unfold nearest_even. cbv zeta.
  pose proof (Qfloor_resp_le _ _ H) as F. rewrite Qfloor_Z in F.
  destruct (Z.eq_dec (Qfloor q) N) as [E|E].
  - assert (L : (q - inject_Z (Qfloor q) < 1 # 2)%Q).
    { rewrite E. apply Qle_lt_trans with 0%Q; [|reflexivity].
      apply (Qplus_le_l _ _ (inject_Z N)). ring_simplify. exact H. }
    apply Qlt_alt in L. unfold Qcompare in *. rewrite L. lia.
  - destruct (_ ?= _)%Q; [destruct (Z.even _)| |]; lia.
Qed.

Lemma nearest_even_ge (q : Q) (N : Z) :
  (inject_Z N <= q)%Q -> (N <= nearest_even q)%Z.
Proof.
  intros H. unfold nearest_even. cbv zeta.
  pose proof (Qfloor_resp_le _ _ H) as F. rewrite Qfloor_Z in F.
  destruct (_ ?= _)%Q; [destruct (Z.even _)| |]; lia.
Qed.


Lemma grid (N j e : Z) :
  (e <= j)%Z -> (inject_Z N * 2 ^ j == inject_Z (N * 2 ^ (j - e)) * 2 ^ e)%Q.
Proof.
  intros H. rewrite inject_Z_mult, pow2_inject by lia.
  replace j with ((j - e) + e)%Z at 1 by lia. rewrite pow2_add. ring.
Qed.

(** Rounding does not cross a number of the grid it rounds to. *)
Lemma round64_le (x : Q) (N j : Z) :
  (-1074 <= j)%Z -> (Qabs x < 2 ^ (j + 53))%Q ->
  (x <= inject_Z N * 2 ^ j)%Q -> (round64 x <= inject_Z N * 2 ^ j)%Q.
Proof.
  intros Hj Hs H. unfold round64.
  destruct (Qeq_bool x 0) eqn:Z0.
  - apply Qeq_bool_iff in Z0. rewrite <- Z0. exact H.
  - assert (Hx : ~ (x == 0)%Q).
    { intros K. apply Qeq_bool_iff in K. rewrite K in Z0. discriminate Z0. }
    pose proof (exponent_le x j Hx Hj Hs) as E. cbv zeta.
    rewrite (grid N j (exponent x) E).
    apply Qmult_le_compat_r; [|apply Qlt_le_weak, two_pos].
    rewrite <- Zle_Qle. apply nearest_even_le.
    apply Qle_shift_div_r; [apply two_pos|].
    rewrite <- (grid N j (exponent x) E). exact H.
Qed.

Lemma round64_ge (x : Q) (N j : Z) :
  (-1074 <= j)%Z -> (Qabs x < 2 ^ (j + 53))%Q ->
  (inject_Z N * 2 ^ j <= x)%Q -> (inject_Z N * 2 ^ j <= round64 x)%Q.
Proof.
  intros Hj Hs H. unfold round64.
  destruct (Qeq_bool x 0) eqn:Z0.
  - apply Qeq_bool_iff in Z0. rewrite <- Z0. exact H.
  - assert (Hx : ~ (x == 0)%Q).
    { intros K. apply Qeq_bool_iff in K. rewrite K in Z0. discriminate Z0. }
    pose proof (exponent_le x j Hx Hj Hs) as E. cbv zeta.
    rewrite (grid N j (exponent x) E).
    apply Qmult_le_compat_r; [|apply Qlt_le_weak, two_pos].
    rewrite <- Zle_Qle. apply nearest_even_ge.
    apply Qle_shift_div_l; [apply two_pos|].
    rewrite <- (grid N j (exponent x) E). exact H.
Qed.

(** Rounding keeps the sign. *)
Lemma round64_nonneg (x : Q) : (0 <= x)%Q -> (0 <= round64 x)%Q.
Proof.
  intros H. unfold round64. destruct (Qeq_bool x 0); [apply Qle_refl|].
  cbv zeta. apply Qmult_le_0_compat; [|apply Qlt_le_weak, two_pos].
  change 0%Q with (inject_Z 0). rewrite <- Zle_Qle.
  apply nearest_even_ge. apply Qle_shift_div_l; [apply two_pos|].
  rewrite Qmult_0_l. exact H.
Qed.

Lemma round64_nonpos (x : Q) : (x <= 0)%Q -> (round64 x <= 0)%Q.
Proof.
  intros H. unfold round64. destruct (Qeq_bool x 0); [apply Qle_refl|].
  cbv zeta.
  assert (M : (nearest_even (x / 2 ^ exponent x) <= 0)%Z).
  { apply nearest_even_le. apply Qle_shift_div_r; [apply two_pos|].
    rewrite Qmult_0_l. exact H. }
  rewrite Zle_Qle in M.
  apply Qle_trans with (inject_Z 0 * 2 ^ exponent x)%Q.
  - apply Qmult_le_compat_r; [exact M | apply Qlt_le_weak, two_pos].
  - rewrite Qmult_0_l. apply Qle_refl.
Qed.

(** Whole numbers of at most 53 bits are doubles. *)
Lemma round64_whole (y : Z) :
  (Z.abs y < 2 ^ 53)%Z -> (round64 (inject_Z y) == inject_Z y)%Q.
Proof.
  intros H.
  assert (S : (Qabs (inject_Z y) < 2 ^ (0 + 53))%Q).
  { rewrite <- pow2_inject by lia.
    change (Qabs (inject_Z y)) with (inject_Z (Z.abs y)).
    now rewrite <- Zlt_Qlt. }
  assert (G : (inject_Z y * 2 ^ 0 == inject_Z y)%Q) by (cbn; ring).
  apply Qle_antisym.
  - rewrite <- G at 2. apply round64_le; [lia | exact S |].
    rewrite G. apply Qle_refl.
  - rewrite <- G at 1. apply round64_ge; [lia | exact S |].
    rewrite G. apply Qle_refl.
Qed.


(** [%] on a dividend that is not negative takes a whole multiple of the
    modulus off, on one that is not positive it gives nothing positive. *)
Lemma js_rem_sign (a : Q) :
  ((0 <= a)%Q -> (0 <= Qtrunc (a / 300))%Z
                 /\ (0 <= js_rem a 300)%Q /\ (js_rem a 300 <= a)%Q)
  /\ ((a <= 0)%Q -> (js_rem a 300 <= 0)%Q).
Proof.
  destruct a as [n d]. unfold js_rem.
  assert (T : Qtrunc ((n # d) / 300) = Z.quot n (300 * Zpos d)).
  { unfold Qtrunc, Qdiv, Qinv, Qmult. cbn [Qnum Qden].
    rewrite Z.mul_1_r. f_equal. lia. }
  rewrite T.
  pose proof (Z.quot_rem' n (300 * Zpos d)) as E.
  assert (S : (0 <= n -> 0 <= Z.rem n (300 * Zpos d))%Z
              /\ (n <= 0 -> Z.rem n (300 * Zpos d) <= 0)%Z).
  { split; intros H; [apply Z.rem_nonneg | apply Z.rem_nonpos]; lia. }
  assert (P : (0 <= n -> 0 <= Z.quot n (300 * Zpos d))%Z).
  { intros H. apply Z.quot_pos; lia. }
  set (q := Z.quot n (300 * Zpos d)) in *.
  set (r := Z.rem n (300 * Zpos d)) in *.
  unfold Qle, Qminus, Qplus, Qopp, Qmult, inject_Z. cbn [Qnum Qden].
  split; intros H.
  - assert (Hn : (0 <= n)%Z) by lia.
    split; [auto|]. split; [lia|]. specialize (P Hn). nia.
  - lia.
Qed.

(** The remainder of a double by 300 is a double below 300: it is at
    most the greatest of them. *)
Lemma rem_double_below (top : Q) :
  (js_rem (round64 top) 300 <= inject_Z (300 * 2 ^ 44 - 1) * 2 ^ (-44))%Q.
Proof.
  destruct (Qlt_le_dec 0 top) as [Hpos|Hneg].
  2:{ apply Qle_trans with 0%Q; [|apply Qle_bool_imp_le; reflexivity].
      apply js_rem_sign. now apply round64_nonpos. }
  assert (Hx : ~ (top == 0)%Q).
  { intros K. rewrite K in Hpos. discriminate Hpos. }
  assert (T0 : (0 <= round64 top)%Q)
    by (apply round64_nonneg, Qlt_le_weak, Hpos).
  destruct (proj1 (js_rem_sign (round64 top)) T0) as (Hq & R0 & Rt).
  destruct (js_rem_300 (round64 top)) as (_ & Rabs & _).
  apply Qabs_Qlt_condition in Rabs. destruct Rabs as [_ R300].
  revert Hq R0 Rt R300. unfold js_rem.
  set (q := Qtrunc (round64 top / 300)). clearbody q.
  revert T0. unfold round64.
  destruct (Qeq_bool top 0) eqn:Z0.
  { apply Qeq_bool_iff in Z0. contradiction. }
  cbv zeta. set (e := exponent top).
  assert (Hm : (nearest_even (top / 2 ^ e) <= 2 ^ 53)%Z).
  { apply nearest_even_le. apply Qle_shift_div_r; [apply two_pos|].
    rewrite pow2_inject by lia. rewrite <- pow2_add.
    apply Qlt_le_weak. rewrite Z.add_comm.
    apply Qle_lt_trans with (Qabs top); [apply Qle_Qabs|].
    now apply exponent_hi. }
  set (m := nearest_even (top / 2 ^ e)) in *. clearbody m.
  intros T0 Hq R0 Rt R300.
  destruct (Z_le_gt_dec (-44) e) as [He|He].
  - (* the remainder is a multiple of 2^-44 *)
    assert (G : (inject_Z m * 2 ^ e - 300 * inject_Z q
                 == inject_Z (m * 2 ^ (e + 44) - 300 * 2 ^ 44 * q)
                    * 2 ^ (-44))%Q).
    { unfold Zminus. rewrite inject_Z_plus, inject_Z_opp, !inject_Z_mult.
      rewrite !pow2_inject by lia.
      replace e with ((e + 44) + -44)%Z at 1 by lia. rewrite pow2_add.
      change (inject_Z 300) with 300%Q.
      assert (U : (2 ^ 44 * 2 ^ (-44) == 1)%Q)
        by (apply Qeq_bool_eq; vm_compute; reflexivity).
      transitivity (inject_Z m * 2 ^ (e + 44) * 2 ^ (-44)
                    - 300 * inject_Z q * (2 ^ 44 * 2 ^ (-44)))%Q;
        [rewrite U; ring | ring]. }
    rewrite G in R300 |- *.
    apply Qmult_le_compat_r; [|apply Qlt_le_weak, two_pos].
    rewrite <- Zle_Qle.
    assert (K : (inject_Z (m * 2 ^ (e + 44) - 300 * 2 ^ 44 * q)
                 < inject_Z (300 * 2 ^ 44))%Q).
    { apply Qmult_lt_r with (2 ^ (-44))%Q; [apply two_pos|].
      eapply Qlt_le_trans; [exact R300|].
      apply Qle_bool_imp_le. reflexivity. }
    rewrite <- Zlt_Qlt in K. lia.
  - eapply Qle_trans; [exact Rt|].
    apply Qle_trans with (inject_Z (2 ^ 53) * 2 ^ (-45))%Q.
    + apply Qle_trans with (inject_Z (2 ^ 53) * 2 ^ e)%Q.
      * apply Qmult_le_compat_r; [|apply Qlt_le_weak, two_pos].
        now rewrite <- Zle_Qle.
      * apply Qmult_le_l; [reflexivity|]. apply pow2_le. lia.
    + apply Qle_bool_imp_le. reflexivity.
Qed.

(** The delay of a reveal is a double below 30. *)
Lemma stagger_double_below_30 (top : Q) :
  (stagger top
   <= inject_Z (30 * 2 ^ 48 - 1) * 2 ^ (-48))%Q.
Proof.
  pose proof (rem_double_below top) as R.
  assert (Ht : (0 < tenth)%Q) by reflexivity.
  assert (X : (js_rem (round64 top) 300 * tenth
               <= inject_Z (30 * 2 ^ 48 - 1) * 2 ^ (-48))%Q).
  { eapply Qle_trans.
    - apply Qmult_le_compat_r; [exact R | apply Qlt_le_weak, Ht].
    - apply Qle_bool_imp_le. vm_compute. reflexivity. }
  destruct (Qlt_le_dec 0 (js_rem (round64 top) 300)) as [P|N].
  - apply round64_le; [lia | | exact X].
    rewrite Qabs_pos.
    + eapply Qle_lt_trans; [exact X|]. reflexivity.
    + apply Qmult_le_0_compat; [apply Qlt_le_weak, P | apply Qlt_le_weak, Ht].
  - apply Qle_trans with 0%Q; [|apply Qle_bool_imp_le; reflexivity].
    apply round64_nonpos.
    apply Qle_trans with (0 * tenth)%Q; [|rewrite Qmult_0_l; apply Qle_refl].
    apply Qmult_le_compat_r; [exact N | apply Qlt_le_weak, Ht].
Qed.


Lemma ilog2_compat (x y : Q) : (0 < x)%Q -> (x == y)%Q -> ilog2 x = ilog2 y.
Proof.
  intros Hx E.
  assert (Hy : (0 < y)%Q) by now rewrite <- E.
  destruct (ilog2_spec x Hx) as [X1 X2].
  destruct (ilog2_spec y Hy) as [Y1 Y2].
  assert (Exy : (x <= y)%Q) by (rewrite E; apply Qle_refl).
  assert (Eyx : (y <= x)%Q) by (rewrite E; apply Qle_refl).
  assert (ilog2 x < ilog2 y + 1)%Z.
  { apply pow2_lt_inv. eapply Qle_lt_trans; [exact X1|].
    eapply Qle_lt_trans; [exact Exy | exact Y2]. }
  assert (ilog2 y < ilog2 x + 1)%Z.
  { apply pow2_lt_inv. eapply Qle_lt_trans; [exact Y1|].
    eapply Qle_lt_trans; [exact Eyx | exact X2]. }
  lia.
Qed.

Lemma nearest_even_compat (p q : Q) :
  (p == q)%Q -> nearest_even p = nearest_even q.
Proof.
  intros E. unfold nearest_even. cbv zeta.
  rewrite (Qfloor_comp _ _ E).
  assert (C : (p - inject_Z (Qfloor q) ?= 1 # 2)%Q
              = (q - inject_Z (Qfloor q) ?= 1 # 2)%Q)
    by now rewrite E.
  now rewrite C.
Qed.

(** The double a number rounds to does not depend on how the number is
    written as a fraction. *)
Lemma round64_compat (x y : Q) : (x == y)%Q -> (round64 x == round64 y)%Q.
Proof.
  intros E. unfold round64.
  assert (B : Qeq_bool x 0 = Qeq_bool y 0).
  { destruct (Qeq_bool y 0) eqn:Y.
    - apply Qeq_bool_iff. apply Qeq_bool_iff in Y. now rewrite E.
    - destruct (Qeq_bool x 0) eqn:X; [|reflexivity].
      apply Qeq_bool_iff in X. rewrite E in X. apply Qeq_bool_iff in X.
      rewrite X in Y. discriminate Y. }
  rewrite <- B. destruct (Qeq_bool x 0) eqn:X; [reflexivity|].
  assert (Hx : ~ (x == 0)%Q).
  { intros K. apply Qeq_bool_iff in K. rewrite K in X. discriminate X. }
  cbv zeta.
  assert (Ex : exponent x = exponent y).
  { unfold exponent. rewrite (ilog2_compat (Qabs x) (Qabs y));
      [reflexivity | now apply Qabs_gt_0 | now apply Qabs_wd]. }
  rewrite <- Ex.
  rewrite (nearest_even_compat (x / 2 ^ exponent x) (y / 2 ^ exponent x));
    [reflexivity|].
  unfold Qdiv. apply Qmult_comp; [exact E | reflexivity].
Qed.

#[local] Instance round64_proper : Proper (Qeq ==> Qeq) round64.
Proof. intros x y E. now apply round64_compat. Qed.

Lemma js_rem_compat (a a' b : Q) : (a == a')%Q -> (js_rem a b == js_rem a' b)%Q.
Proof.
  intros E. unfold js_rem.
  rewrite (Qtrunc_compat (a / b) (a' / b)) by now rewrite E.
  now rewrite E.
Qed.


Lemma Qtrunc_below (x : Q) (k : Z) :
  (0 < k)%Z -> (x < inject_Z k)%Q -> (Qtrunc x < k)%Z.
Proof.
  intros Hk H. unfold Qtrunc. unfold Qlt in H. cbn [Qnum Qden inject_Z] in H.
  destruct (Z_lt_le_dec (Qnum x) 0) as [Hn|Hn].
  - assert (Qnum x ÷ Z.pos (Qden x) <= 0)%Z; [|lia].
    apply Z.quot_le_upper_bound; lia.
  - apply Z.quot_lt_upper_bound; lia.
Qed.

(** Above the viewport the delay is not positive. *)
Lemma stagger_nonpos (top : Q) : (top <= 0)%Q -> (stagger top <= 0)%Q.
Proof.
  intros N. unfold stagger, mul.
  assert (Ht : (0 <= tenth)%Q) by (apply Qle_bool_imp_le; reflexivity).
  pose proof (proj2 (js_rem_sign (round64 top)) (round64_nonpos top N)) as R.
  apply round64_nonpos.
  apply Qle_trans with (0 * tenth)%Q; [|rewrite Qmult_0_l; apply Qle_refl].
  apply Qmult_le_compat_r; [exact R | exact Ht].
Qed.

(** The delay keeps the sign of the offset. *)
Lemma stagger_sign (top : Q) : (0 <= stagger top * top)%Q.
Proof.
  assert (Ht : (0 <= tenth)%Q) by (apply Qle_bool_imp_le; reflexivity).
  unfold stagger, mul.
  destruct (Qlt_le_dec top 0) as [N|P].
  - assert (T : (round64 top <= 0)%Q)
      by (apply round64_nonpos, Qlt_le_weak, N).
    pose proof (proj2 (js_rem_sign (round64 top)) T) as R.
    assert (D : (round64 (js_rem (round64 top) 300 * tenth) <= 0)%Q).
    { apply round64_nonpos.
      apply Qle_trans with (0 * tenth)%Q;
        [|rewrite Qmult_0_l; apply Qle_refl].
      apply Qmult_le_compat_r; [exact R | exact Ht]. }
    revert D N. generalize (round64 (js_rem (round64 top) 300 * tenth)).
    intros x D N. unfold Qle, Qlt, Qmult in *. cbn [Qnum Qden] in *. nia.
  - assert (T : (0 <= round64 top)%Q) by (apply round64_nonneg, P).
    destruct (proj1 (js_rem_sign (round64 top)) T) as (_ & R & _).
    apply Qmult_le_0_compat; [|exact P].
    apply round64_nonneg. apply Qmult_le_0_compat; [exact R | exact Ht].
Qed.

(** A whole offset is a double and so is what [%] leaves of it. *)
Lemma stagger_whole (y : Z) :
  (Z.abs y < 2 ^ 53)%Z ->
  (stagger (inject_Z y)
   == mul (inject_Z (Z.sgn y * (Z.abs y mod 300))) tenth)%Q.
Proof.
  intros H. unfold stagger, mul. apply round64_compat.
  apply Qmult_comp; [|reflexivity].
  rewrite (js_rem_compat _ _ 300 (round64_whole y H)).
  change 300%Q with (inject_Z 300).
  rewrite js_rem_whole by lia. rewrite Z.rem_mod by lia. reflexivity.
Qed.

(** The products of the whole numbers below 300 and [0.1], one by one. *)
Lemma whole_products (r : Z) :
  (-300 < r < 300)%Z ->
  Qtrunc (mul (inject_Z r) tenth) = Z.quot r 10
  /\ (Qabs (mul (inject_Z r) tenth - inject_Z r * (1 # 10)) <= 2 ^ (-47))%Q
  /\ (Z.rem r 10 = 0%Z ->
      (mul (inject_Z r) tenth == inject_Z r * (1 # 10))%Q).
Proof.
  intros Hr.
  assert (T : forallb
                (fun r =>
                   (Qtrunc (mul (inject_Z r) tenth) =? Z.quot r 10)%Z
                   && Qle_bool (Qabs (mul (inject_Z r) tenth
                                      - inject_Z r * (1 # 10)))
                               (2 ^ (-47))
                   && (negb (Z.rem r 10 =? 0)%Z
                       || Qeq_bool (mul (inject_Z r) tenth)
                                   (inject_Z r * (1 # 10))))
                (map (fun n => (Z.of_nat n - 299)%Z) (seq 0 599)) = true)
    by (vm_compute; reflexivity).
  rewrite forallb_forall in T. specialize (T r).
  assert (I : In r (map (fun n => (Z.of_nat n - 299)%Z) (seq 0 599))).
  { apply in_map_iff. exists (Z.to_nat (r + 299)).
    split; [lia | apply in_seq; lia]. }
  specialize (T I). apply andb_true_iff in T. destruct T as [T T3].
  apply andb_true_iff in T. destruct T as [T1 T2].
  split; [now apply Z.eqb_eq|]. split; [now apply Qle_bool_imp_le|].
  intros Z. apply Z.eqb_eq in Z. rewrite Z in T3. cbn [negb orb] in T3.
  now apply Qeq_bool_eq.
Qed.

(** C3, as the code has it: for an element whose top offset is [top],
    [handleIntersect] makes one call, [setTimeout] of the reveal callback,
    with the delay [(rect.top % 300) * 0.1] computed in doubles; the
    timer is due after that many milliseconds, cut to a whole number and
    raised to zero.  [%] keeps the sign of the offset, so above the
    viewport the timer is due at once, and the delay is below 30.  For a
    whole offset [y] the delay is the double nearest to
    the product of [y mod 300] and the double [0.1] when [y] is not
    negative, and of minus [(-y) mod 300] when it is: it differs from a
    tenth of that number by less than [2 ^ -47], has the same whole
    milliseconds, and is equal to it where it is whole.  Offsets 350 and
    1000 give 5 and 10; the double just below 30 gives 3, where the
    product of the rationals is less. *)
Theorem stagger_delay_signed (el : elem) (top : Q) (y : Z) (b : browser) :
  (Z.abs y < 2 ^ 53)%Z ->
  calls (handleIntersect el top b)
  = calls b ++ [CallSetTimeout (AReveal el) (stagger top)]
  /\ timers (handleIntersect el top b)
     = timers b ++ [{| due := now b + Z.max 0 (Qtrunc (stagger top));
                       act := AReveal el |}]
  /\ (stagger top == round64 (js_rem (round64 top) 300 * tenth))%Q
  /\ (Qabs (js_rem (round64 top) 300) < 300)%Q
  /\ (0 <= stagger top * top)%Q
  /\ (stagger top < 30)%Q
  /\ ((top <= 0)%Q ->
      timers (handleIntersect el top b)
      = timers b ++ [{| due := now b; act := AReveal el |}])
  /\ (round64 (inject_Z y) == inject_Z y)%Q
  /\ (stagger (inject_Z y)
      == round64 (inject_Z (Z.sgn y * (Z.abs y mod 300)) * tenth))%Q
  /\ (Qabs (stagger (inject_Z y)
            - inject_Z (Z.sgn y * (Z.abs y mod 300)) * (1 # 10))
      <= 2 ^ (-47))%Q
  /\ Qtrunc (stagger (inject_Z y))
     = Z.quot (Z.sgn y * (Z.abs y mod 300)) 10
  /\ (((Z.abs y mod 300) mod 10 = 0)%Z ->
      (stagger (inject_Z y)
       == inject_Z (Z.sgn y * (Z.abs y mod 300)) * (1 # 10))%Q)
  /\ (stagger 350 == 5)%Q
  /\ (stagger 1000 == 10)%Q
  /\ (stagger (30 - 2 ^ (-48)) == 3)%Q
  /\ (js_rem (30 - 2 ^ (-48)) 300 * (1 # 10) < 3)%Q.
Proof.
  intros Hy.
  destruct (js_rem_300 (round64 top)) as (_ & Hsize & _).
  split; [reflexivity|]. split; [reflexivity|].
  split; [reflexivity|]. split; [exact Hsize|].
  split; [apply stagger_sign|].
  split.
  { eapply Qle_lt_trans; [apply stagger_double_below_30|]. reflexivity. }
  split.
  { intros N. unfold handleIntersect. cbn [setTimeout timers].
    fold (stagger top). unfold timeout_ms.
    assert (T : (Qtrunc (stagger top) < 1)%Z).
    { apply Qtrunc_below; [lia|].
      eapply Qle_lt_trans; [apply stagger_nonpos, N | reflexivity]. }
    replace (Z.max 0 (Qtrunc (stagger top))) with 0%Z by lia.
    now rewrite Z.add_0_r. }
  split; [now apply round64_whole|].
  pose proof (stagger_whole y Hy) as W.
  assert (Hr : (-300 < Z.sgn y * (Z.abs y mod 300) < 300)%Z).
  { pose proof (Z.mod_pos_bound (Z.abs y) 300 ltac:(lia)).
    destruct y; cbn [Z.sgn]; lia. }
  destruct (whole_products _ Hr) as (P1 & P2 & P3).
  split; [exact W|].
  split.
  { eapply Qle_trans; [|exact P2]. apply Qle_lteq. right.
    apply Qabs_wd. rewrite W. reflexivity. }
  split; [rewrite (Qtrunc_compat _ _ W); exact P1|].
  split.
  { intros M. rewrite W. apply P3.
    destruct y as [|p|p]; cbn [Z.sgn].
    - reflexivity.
    - rewrite Z.mul_1_l. rewrite Z.rem_mod_nonneg; [exact M| |lia].
      apply Z.mod_pos_bound. lia.
    - replace (-1 * (Z.abs (Z.neg p) mod 300))%Z
        with (- (Z.abs (Z.neg p) mod 300))%Z by lia.
      rewrite Z.rem_opp_l by lia.
      rewrite Z.rem_mod_nonneg; [rewrite M; reflexivity| |lia].
      apply Z.mod_pos_bound. lia. }
  split; [apply Qeq_bool_eq; vm_compute; reflexivity|].
  split; [apply Qeq_bool_eq; vm_compute; reflexivity|].
  split; [apply Qeq_bool_eq; vm_compute; reflexivity|].
  vm_compute. reflexivity.
Qed.

Lemma stagger_delay_signed_witness :
  (Z.abs (-650) < 2 ^ 53)%Z
  /\ calls (handleIntersect 1 (-650) Demo.demo_valid)
     = calls Demo.demo_valid ++ [CallSetTimeout (AReveal 1) (stagger (-650))]
  /\ Qtrunc (stagger (inject_Z (-650))) = (-5)%Z
  /\ (stagger (30 - 2 ^ (-48)) == 3)%Q.
Proof.
  assert (H : (Z.abs (-650) < 2 ^ 53)%Z) by (vm_compute; reflexivity).
  split; [exact H|].
  destruct (stagger_delay_signed 1 (-650) (-650) Demo.demo_valid H)
    as (C & _ & _ & _ & _ & _ & _ & _ & _ & _ & T & _ & _ & _ & E & _).
  split; [exact C|]. split; [exact T | exact E].
Defined.

(** C3, as stated, fails below the top of the viewport: at offset -50 the
    delay handed to [setTimeout] is -5, not (-50 mod 300) * 0.1 = 25, and
    the timer is due at once. *)
Lemma negative_offset_delay :
  exists d,
    calls (handleIntersect 1 (-50) (env (initial Demo.demo_page true)))
    = [CallSetTimeout (AReveal 1) d]
    /\ (d == -5)%Q
    /\ ~ (d == inject_Z ((-50) mod 300) * (1 # 10))%Q
    /\ ~ (d == mul (inject_Z ((-50) mod 300)) tenth)%Q
    /\ timers (handleIntersect 1 (-50) (env (initial Demo.demo_page true)))
       = [{| due := 0; act := AReveal 1 |}].
Proof.
  eexists. split; [reflexivity|].
  split; [apply Qeq_bool_eq; vm_compute; reflexivity|].
  split; [intros H; vm_compute in H; discriminate|].
  split; [intros H; vm_compute in H; discriminate|].
  vm_compute. reflexivity.
Qed.

End Stagger.

(** ** The project modal *)

Section Modal.
Import Dom Browser Program Notions.
Import PortfolioApp.

Lemma call_defined {A} name (body : result A) :
  In name methods -> call_method name body = body.
Proof.
  intros H. unfold call_method. destruct (decide _) as [_|N]; [reflexivity|].
  exfalso. apply N. now apply list_elem_of_In.
Qed.

Lemma call_undefined {A} name (body : result A) :
  ~ In name methods -> call_method name body = Throw TypeError.
Proof.
  intros H. unfold call_method. destruct (decide _) as [Y|_]; [|reflexivity].
  exfalso. apply H. now apply list_elem_of_In.
Qed.

Lemma initializeThemeManager_raises d mk a :
  initializeThemeManager d mk a = Throw TypeError.
Proof.
  unfold initializeThemeManager.
  assert (N1 : ~ In "toggleTheme" methods)
    by (cbn; intuition discriminate).
  assert (N2 : ~ In "createThemeToggle" methods)
    by (cbn; intuition discriminate).
  destruct (_ || _).
  - rewrite (call_undefined _ _ N1). reflexivity.
  - cbn [bind]. apply (call_undefined _ _ N2).
Qed.

(** [init] stops in [initializeThemeManager], which calls a method the
    class no longer defines.  The listeners bound before that stay: those
    of the form among them; those of the project links are never bound. *)
Lemma construct_stops hasIO d mk :
  snd (construct hasIO d mk) = Some TypeError
  /\ project_links_bound (fst (construct hasIO d mk)) = false
  /\ form_bound (fst (construct hasIO d mk)) = contact_form mk
  /\ field_listeners (fst (construct hasIO d mk))
     = match contact_form mk with
       | Some f => List.filter (fun e => contains d e "form-input")
                               (descendants f)
       | None => []
       end.
Proof.
  unfold construct, init_sequence. cbn [run_inits].
  do 2 (rewrite call_defined by (cbn; tauto);
        cbn [initializeMobileMenu initializeSmoothScrolling]).
  rewrite call_defined by (cbn; tauto). unfold initializeFormHandler.
  destruct (contact_form mk) as [f|];
    cbn [menu_bound smooth_scroll_bound form_bound field_listeners
         scroll_bound loading_bound project_links_bound];
    (rewrite call_defined by (cbn; tauto); cbn [initializeScrollEffects];
     rewrite call_defined by (cbn; tauto);
     rewrite initializeThemeManager_raises; repeat split; reflexivity).
Qed.

Lemma getProjectData_details c t desc img :
  project_title c = Some t -> project_description c = Some desc ->
  img_src c = Some img ->
  getProjectData c
  = Ok {| title := t; description := desc; tech := tech_tags c; image := img;
          details := match get_property projectDetails t with
                     | Some v => v
                     | None => DRecord (defaultDetail desc)
                     end |}.
Proof.
  intros Ht Hd Hi. unfold getProjectData. rewrite Ht, Hd, Hi. reflexivity.
Qed.

(** A title that is a key of the table gets the record stored under it. *)
Lemma lookup_hit c t desc img dt :
  project_title c = Some t -> project_description c = Some desc ->
  img_src c = Some img -> projectDetails !! t = Some dt ->
  exists pd, getProjectData c = Ok pd /\ details pd = DRecord dt.
Proof.
  intros Ht Hd Hi Hk. rewrite (getProjectData_details c t desc img Ht Hd Hi).
  eexists. split; [reflexivity|]. cbn [details]. unfold get_property.
  now rewrite Hk.
Qed.

(** A title that is neither a key of the table nor a name every object
    inherits gets the default block, whose overview is the description of
    the card. *)
Lemma lookup_miss_default c t desc img :
  project_title c = Some t -> project_description c = Some desc ->
  img_src c = Some img -> projectDetails !! t = None ->
  t ∉ object_prototype ->
  exists pd, getProjectData c = Ok pd
             /\ details pd = DRecord (defaultDetail desc)
             /\ overview (defaultDetail desc) = desc.
Proof.
  intros Ht Hd Hi Hk Hp. rewrite (getProjectData_details c t desc img Ht Hd Hi).
  eexists. split; [reflexivity|]. cbn [details]. unfold get_property.
  rewrite Hk. destruct (decide _); [contradiction|]. split; reflexivity.
Qed.

(** C9 at inputs where the code departs from it.  A card titled
    "constructor" is in no way in the table, yet the lookup finds the
    member of that name every object inherits, the default block is not
    used, and filling the modal raises a [TypeError]: no modal is shown.
    And on the page as it starts up, [init] has stopped before
    [initializeProjectModals], so a click on a project link of a card that
    is in the table opens no modal either. *)
Theorem project_modal_defects (b : browser) (d : document) (hasIO : bool)
  (mk : markup) (desc img : string) (tags : list string) :
  projectDetails !! "constructor" = None
  /\ (exists pd,
       getProjectData {| project_title := Some "constructor";
                         project_description := Some desc;
                         tech_tags := tags; img_src := Some img |} = Ok pd
       /\ details pd = DInherited "constructor")
  /\ project_link_click (Some "#")
       (Some {| project_title := Some "constructor";
                project_description := Some desc;
                tech_tags := tags; img_src := Some img |}) b
     = Throw TypeError
  /\ snd (construct hasIO d mk) = Some TypeError
  /\ project_links_bound (fst (construct hasIO d mk)) = false
  /\ run [NewPortfolioApp mk;
          ProjectLinkClick (Some "#")
            (Some {| project_title := Some "E-Commerce Platform";
                     project_description := Some desc;
                     tech_tags := tags; img_src := Some img |})]
         (initial d hasIO)
     = run [NewPortfolioApp mk] (initial d hasIO).
Proof.
  split; [vm_compute; reflexivity|]. split.
  { eexists. split; [reflexivity|]. vm_compute. reflexivity. }
  split.
  { unfold project_link_click.
    cbn [bool_decide orb from_option_or_throw bind].
    change (bool_decide (Some "#" = Some "#")) with true. cbn [orb bind].
    unfold getProjectData.
    cbn [project_title project_description img_src tech_tags
         from_option_or_throw bind].
    unfold showProjectModal. destruct (createElement _ _) as [m d1].
    cbn [details].
    change (get_property projectDetails "constructor")
      with (Some (DInherited "constructor")).
    reflexivity. }
  destruct (construct_stops hasIO d mk) as (E & B & _ & _).
  split; [exact E|]. split; [exact B|].
  unfold run. cbn [fold_left step initial portfolio env hasIntersectionObserver
                   page].
  rewrite B. reflexivity.
Qed.

End Modal.

(** ** From events to handlers *)

Section Events.
Import Dom Browser Program Notions.

(** The observer is built for a tenth of the element, measured against
    the viewport with no margin. *)
Lemma observer_options b a :
  ScrollAnimator.construct b = Ok a ->
  exists o, ScrollAnimator.observer a = Some o
            /\ ScrollAnimator.root o = None
            /\ ScrollAnimator.rootMargin o = "0px"
            /\ ScrollAnimator.threshold o = Double.tenth
            /\ ScrollAnimator.targets o = [].
Proof.
  unfold ScrollAnimator.construct, ScrollAnimator.createObserver.
  destruct (hasIntersectionObserver b); cbn [bind]; [|discriminate].
  intros [= <-]. eexists. repeat split.
Qed.

(** Once the main script has started, the form listens. *)
Lemma started_page_listens d hasIO mk f :
  PortfolioApp.contact_form mk = Some f ->
  bound_form (step (NewPortfolioApp mk) (initial d hasIO)) = Some f
  /\ listening_fields (step (NewPortfolioApp mk) (initial d hasIO))
     = List.filter (fun e => contains d e "form-input")
                   (PortfolioApp.descendants f).
Proof.
  intros Hf.
  destruct (construct_stops hasIO d mk) as (_ & _ & F & L).
  rewrite Hf in F, L.
  unfold bound_form, listening_fields.
  cbn [step initial portfolio env page hasIntersectionObserver].
  now rewrite F, L.
Qed.

Lemma blur_runs_validateField w field r b' :
  field ∈ listening_fields w ->
  PortfolioApp.validateField field (env w) = Ok (r, b') ->
  step (Blur field) w = with_env b' w.
Proof.
  intros Hin E. cbn [step]. destruct (decide _); [|contradiction].
  rewrite E. reflexivity.
Qed.

Lemma submit_runs_handler w f :
  bound_form w = Some f ->
  step Submit w
  = with_env (fst (PortfolioApp.handleFormSubmission f (env w))) w.
Proof. intros E. cbn [step]. now rewrite E. Qed.

Lemma timer_runs_callback w a b :
  take_timer (env w) = Some (a, b) -> step Timer w = with_env (fire a b) w.
Proof. intros E. cbn [step]. now rewrite E. Qed.

End Events.

(** * Further properties *)

(** ** The timer queue runs dry *)

Section Quiescence.
Import Dom Browser Program Notions Loop.

Lemma weight_pos a : 1 <= weight a.
Proof. destruct a; cbn; lia. Qed.

Lemma work_app l1 l2 : work (l1 ++ l2) = work l1 + work l2.
Proof. induction l1 as [|t l IH]; cbn [app work]; lia. Qed.

Lemma work_nil l : work l = 0 -> l = [].
Proof.
  destruct l as [|t l]; [reflexivity|]. cbn [work].
  pose proof (weight_pos (act t)). lia.
Qed.

Lemma pop_earliest_None l : pop_earliest l = None <-> l = [].
Proof.
  split; [|intros ->; reflexivity].
  destruct l as [|t l]; [reflexivity|]. cbn [pop_earliest].
  destruct (pop_earliest l) as [[t' rest]|]; [|discriminate].
  destruct (due t <=? due t')%Z; discriminate.
Qed.

(** Taking the next timer out of the queue loses none of the others and
    takes one that is due no later than any of them. *)
Lemma pop_earliest_Some l t rest :
  pop_earliest l = Some (t, rest) ->
  work l = weight (act t) + work rest
  /\ (forall x, In x l <-> x = t \/ In x rest)
  /\ (forall x, In x l -> (due t <= due x)%Z).
Proof.
  revert t rest. induction l as [|t0 l IH]; intros t rest; cbn [pop_earliest];
    [discriminate|].
  destruct (pop_earliest l) as [[t' rest']|] eqn:E.
  - destruct (IH _ _ eq_refl) as (W & M & D).
    destruct (due t0 <=? due t')%Z eqn:C; intros [= <- <-].
    + apply Z.leb_le in C. split; [reflexivity|]. split.
      * intros x. cbn [In]. split; intros [H|H]; auto.
      * intros x [<-|H]; [lia|]. specialize (D x H). lia.
    + apply Z.leb_gt in C. cbn [work]. split; [lia|]. split.
      * intros x. cbn [In]. rewrite M.
        split; intros [H|[H|H]]; auto.
      * intros x [<-|H]; [lia | auto].
  - apply pop_earliest_None in E. subst l. intros [= <- <-].
    split; [reflexivity|]. split.
    + intros x. cbn [In]. split; intros [H|H]; auto.
    + intros x [<-|[]]. lia.
Qed.

Lemma timers_fold_set_page {A} (g : A -> document -> document) (l : list A) b :
  timers (fold_left (fun b x => set_page (g x) b) l b) = timers b.
Proof.
  revert b. induction l as [|x l IH]; intros b; cbn [fold_left];
    [reflexivity|]. now rewrite IH.
Qed.

(** What a callback adds to the queue. *)
Lemma timers_fire a b :
  exists spawned,
    timers (fire a b) = timers b ++ spawned /\ work spawned < weight a.
Proof.
  destruct a; cbn [fire weight].
  - unfold ScrollAnimator.reveal. destruct (existsb _ _).
    + eexists [_]. split; [reflexivity|]. cbn. lia.
    + exists []. split; [now rewrite app_nil_r | cbn; lia].
  - exists []. split; [now rewrite app_nil_r | cbn; lia].
  - exists []. split; [now rewrite app_nil_r | cbn; lia].
  - unfold PortfolioApp.submit_done.
    destruct (showNotification_spec
                "Message sent successfully! I'll get back to you soon."
                "success" b) as (n & _ & _ & _ & _ & _ & _ & _ & T & _).
    eexists. cbn [set_page timers].
    rewrite (timers_fold_set_page
               (fun x => classList_remove x ["success"])).
    cbn [set_page timers]. split; [exact T|]. cbn. lia.
  - exists []. split; [now rewrite app_nil_r | cbn; lia].
  - eexists [_]. split; [reflexivity|]. cbn. lia.
  - exists []. unfold PortfolioApp.notif_remove.
    destruct (decide _); (split; [now rewrite app_nil_r | cbn; lia]).
  - exists []. split; [now rewrite app_nil_r | cbn; lia].
  - exists []. unfold PortfolioApp.modal_remove.
    destruct (decide _); (split; [now rewrite app_nil_r | cbn; lia]).
  - exists []. split; [now rewrite app_nil_r | cbn; lia].
  - exists []. split; [now rewrite app_nil_r | cbn; lia].
  - exists []. split; [now rewrite app_nil_r | cbn; lia].
Qed.

Lemma tick_idle b : timers b = [] -> tick b = b.
Proof. intros E. unfold tick, take_timer. now rewrite E. Qed.

Lemma tick_work b :
  timers b <> [] -> pending_work (tick b) < pending_work b.
Proof.
  intros Hne. unfold tick, take_timer, pending_work.
  destruct (pop_earliest (timers b)) as [[t rest]|] eqn:E.
  - destruct (pop_earliest_Some _ _ _ E) as (W & _).
    destruct (timers_fire (act t)
                {| page := page b; timers := rest;
                   now := Z.max (now b) (due t); calls := calls b;
                   hasIntersectionObserver := hasIntersectionObserver b |})
      as (sp & T & Hsp).
    rewrite T, work_app, W. cbn [timers]. lia.
  - apply pop_earliest_None in E. contradiction.
Qed.

Lemma ticks_idle n b : timers b = [] -> ticks n b = b.
Proof.
  revert b. induction n as [|n IH]; intros b E; cbn [ticks]; [reflexivity|].
  rewrite tick_idle by exact E. now apply IH.
Qed.

Lemma queue_empties k :
  forall b, pending_work b <= k -> timers (ticks k b) = [].
Proof.
  induction k as [|k IH]; intros b0 H; cbn [ticks].
  - apply work_nil. unfold pending_work in H. lia.
  - destruct (timers b0) as [|t l] eqn:E.
    + rewrite tick_idle by exact E. apply IH. unfold pending_work.
      rewrite E. cbn. lia.
    + apply IH. assert (timers b0 <> []) as Hne by (rewrite E; discriminate).
      pose proof (tick_work b0 Hne). lia.
Qed.

Lemma ticks_S k : forall b, ticks (S k) b = tick (ticks k b).
Proof.
  induction k as [|k IH]; intros b0; [reflexivity|].
  cbn [ticks] in *. now rewrite <- IH.
Qed.

(** X1: no callback of the scripts keeps itself going.  Whatever is in
    the queue, after as many firings as the pending callbacks and their
    follow-ups amount to, the queue is empty, and further firings change
    nothing. *)
Theorem timers_run_dry (b : browser) (n : nat) :
  timers (ticks (pending_work b + n) b) = []
  /\ ticks (pending_work b + n + 1) b = ticks (pending_work b + n) b.
Proof.
  assert (E : timers (ticks (pending_work b + n) b) = [])
    by (apply queue_empties; lia).
  split; [exact E|].
  replace (pending_work b + n + 1) with (S (pending_work b + n)) by lia.
  rewrite ticks_S. now apply tick_idle.
Qed.

Lemma step_Timer_tick w : step Timer w = with_env (tick (env w)) w.
Proof.
  cbn [step]. unfold tick. destruct (take_timer (env w)) as [[a b]|];
    [reflexivity|]. destruct w; reflexivity.
Qed.

End Quiescence.

(** ** What is scheduled is carried out *)

Section Liveness.
Import Dom Browser Program Notions Loop.

Lemma keeps_tick b : keeps (page b) (page (tick b)).
Proof.
  unfold tick. destruct (take_timer b) as [[a b']|] eqn:E; [|apply keeps_refl].
  rewrite <- (page_take_timer _ _ _ E). apply keeps_fire.
Qed.

Lemma keeps_ticks n b : keeps (page b) (page (ticks n b)).
Proof.
  revert b. induction n as [|n IH]; intros b; cbn [ticks];
    [apply keeps_refl|].
  eapply keeps_trans; [apply keeps_tick | apply IH].
Qed.

Lemma fire_reveals el b : shows (fire (AReveal el) b) el.
Proof.
  unfold shows. cbn [fire]. unfold ScrollAnimator.reveal.
  assert (H : "animate-visible"
              ∈ classList (classList_add el ["animate-visible"] (page b)) el).
  { rewrite classList_classList_add. destruct (decide (el = el)); [|contradiction].
    apply elem_of_tokens_add. right. apply list_elem_of_here. }
  destruct (existsb _ _); exact H.
Qed.

Lemma fire_hero el b : shows (fire (AHero el) b) el.
Proof.
  unfold shows. cbn [fire]. unfold ScrollAnimator.hero. cbn [page set_page].
  rewrite classList_classList_add. destruct (decide (el = el)); [|contradiction].
  apply elem_of_tokens_add. right. apply list_elem_of_here.
Qed.

(** A pending callback that adds the terminal class has been run by the
    time the queue is empty. *)
Lemma pending_reveal_runs el n :
  forall b,
    pending_work b <= n ->
    (exists t, In t (timers b) /\ (act t = AReveal el \/ act t = AHero el))
    \/ shows b el ->
    shows (ticks n b) el.
Proof.
  induction n as [|n IH]; intros b Hn H; cbn [ticks].
  - destruct H as [(t & Hin & _)|H]; [|exact H].
    assert (timers b = []) as E by (apply work_nil; unfold pending_work in Hn; lia).
    rewrite E in Hin. contradiction.
  - destruct (pop_earliest (timers b)) as [[t1 rest]|] eqn:E.
    + assert (Hne : timers b <> []).
      { intros E0. rewrite E0 in E. discriminate. }
      pose proof (tick_work b Hne) as Hw.
      apply IH; [lia|].
      destruct H as [(t & Hin & Ha)|H];
        [|right; now apply (keeps_tick b)].
      unfold tick, take_timer. rewrite E.
      destruct (pop_earliest_Some _ _ _ E) as (_ & M & _).
      apply M in Hin as [->|Hin].
      * right. destruct Ha as [Ha|Ha]; rewrite Ha;
          [apply fire_reveals | apply fire_hero].
      * left. exists t. split; [|exact Ha].
        destruct (timers_fire (act t1)
                    {| page := page b; timers := rest;
                       now := Z.max (now b) (due t1); calls := calls b;
                       hasIntersectionObserver := hasIntersectionObserver b |})
          as (sp & T & _).
        rewrite T. apply in_or_app. left. exact Hin.
    + apply pop_earliest_None in E.
      rewrite tick_idle by exact E. apply IH.
      * unfold pending_work. rewrite E. cbn. lia.
      * destruct H as [(t & Hin & _)|H]; [|now right].
        rewrite E in Hin. contradiction.
Qed.

Lemma timers_on_entries_reveal el en entries b :
  In en entries -> ScrollAnimator.isIntersecting en = true ->
  ScrollAnimator.target en = el ->
  exists t, In t (timers (ScrollAnimator.on_entries entries b))
            /\ act t = AReveal el.
Proof.
  unfold ScrollAnimator.on_entries. revert b.
  induction entries as [|e0 l IH]; intros b Hin Hi Ht; [contradiction|].
  cbn [fold_left].
  assert (K : forall b0 t, In t (timers b0) ->
                In t (timers (fold_left
                  (fun b en => if ScrollAnimator.isIntersecting en
                               then ScrollAnimator.handleIntersect
                                      (ScrollAnimator.target en)
                                      (ScrollAnimator.rect_top en) b
                               else b) l b0))).
  { clear. induction l as [|e l IH]; intros b0 t H; cbn [fold_left]; [exact H|].
    apply IH. destruct (ScrollAnimator.isIntersecting e); [|exact H].
    unfold ScrollAnimator.handleIntersect. cbn [setTimeout timers].
    apply in_or_app. now left. }
  destruct Hin as [->|Hin].
  - rewrite Hi, Ht. eexists. split.
    + apply K. unfold ScrollAnimator.handleIntersect. cbn [setTimeout timers].
      apply in_or_app. right. left. reflexivity.
    + reflexivity.
  - now apply IH.
Qed.

Lemma env_run_timers k w :
  env (run (repeat Timer k) w) = ticks k (env w).
Proof.
  revert w. induction k as [|k IH]; intros w; [reflexivity|].
  cbn [repeat]. unfold run in *. cbn [fold_left]. rewrite IH.
  rewrite step_Timer_tick. reflexivity.
Qed.

(** X2: every reveal that is scheduled is carried out.  When the observer
    reports a watched element as intersecting, the element carries
    [animate-visible] once the timers pending at that moment, and those
    they bring about, have fired; and it carries it ever after. *)
Theorem reported_element_is_revealed (w : world)
  (entries : list ScrollAnimator.entry) (en : ScrollAnimator.entry)
  (n : nat) (ops : list op) :
  observed w (ScrollAnimator.target en) = true ->
  In en entries ->
  ScrollAnimator.isIntersecting en = true ->
  revealed
    (run (repeat Timer (pending_work (env (step (Intersect entries) w)) + n)
          ++ ops)
         (step (Intersect entries) w))
    (ScrollAnimator.target en) = true.
Proof.
  intros Hobs Hin Hint.
  set (el := ScrollAnimator.target en) in *.
  set (w1 := step (Intersect entries) w).
  unfold run. rewrite fold_left_app. fold (run (repeat Timer (pending_work (env w1) + n)) w1).
  fold (run ops (run (repeat Timer (pending_work (env w1) + n)) w1)).
  apply revealed_iff. apply keeps_run. rewrite env_run_timers.
  apply pending_reveal_runs; [lia|]. left.
  subst w1. cbn [step]. unfold observed in Hobs.
  destruct (animator w) as [a|]; [|discriminate]. cbn [with_env env].
  unfold ScrollAnimator.deliver.
  destruct (ScrollAnimator.observer a) as [o|]; [|discriminate].
  destruct (timers_on_entries_reveal el en
              (List.filter (fun en0 => bool_decide
                              (ScrollAnimator.target en0 ∈ ScrollAnimator.targets o))
                           entries) (env w)) as (t & Ht & Ha); auto.
  - apply filter_In. split; [exact Hin | exact Hobs].
  - exists t. auto.
Qed.

Lemma reported_element_is_revealed_witness :
  observed (run [NewScrollAnimator; Sweep] (initial Demo.demo_page true)) 1
  = true
  /\ revealed
       (run (repeat Timer
               (pending_work
                  (env (step (Intersect [Demo.entering 1 350])
                          (run [NewScrollAnimator; Sweep]
                               (initial Demo.demo_page true)))) + 0) ++ [])
            (step (Intersect [Demo.entering 1 350])
               (run [NewScrollAnimator; Sweep] (initial Demo.demo_page true))))
       1 = true.
Proof.
  assert (H : observed (run [NewScrollAnimator; Sweep]
                            (initial Demo.demo_page true)) 1 = true)
    by (vm_compute; reflexivity).
  split; [exact H|].
  apply (reported_element_is_revealed
           (run [NewScrollAnimator; Sweep] (initial Demo.demo_page true))
           [Demo.entering 1 350] (Demo.entering 1 350) 0 []).
  - exact H.
  - left. reflexivity.
  - reflexivity.
Defined.

Lemma on_load_spec b :
  page (ScrollAnimator.on_load b) = page b
  /\ forall s h,
       In s (map fst ScrollAnimator.hero_timers) ->
       querySelector s (page b) = Some h ->
       exists t, In t (timers (ScrollAnimator.on_load b)) /\ act t = AHero h.
Proof.
  unfold ScrollAnimator.on_load, ScrollAnimator.hero_timers.
  cbn [fold_left fst snd map].
  destruct (querySelector "hero-title" (page b)) as [h1|] eqn:E1;
    cbn [setTimeout page];
    (destruct (querySelector "hero-subtitle" (page b)) as [h2|] eqn:E2;
     cbn [setTimeout page];
     (destruct (querySelector "hero-description" (page b)) as [h3|] eqn:E3;
      cbn [setTimeout page];
      (destruct (querySelector "hero-buttons" (page b)) as [h4|] eqn:E4;
       cbn [setTimeout page timers];
       (split; [reflexivity|];
        intros s h [<-|[<-|[<-|[<-|[]]]]] Q;
        match goal with
        | E : querySelector ?s _ = _, Q : querySelector ?s _ = Some _ |- _ =>
            rewrite E in Q
        end;
        try discriminate; injection Q as ->;
        eexists {| due := _; act := AHero _ |}; (split; [|reflexivity]);
        rewrite ?in_app_iff; cbn [In];
        solve [repeat (first [right; left; reflexivity | left])])))).
Qed.

(** X5: the hero parts are revealed after the page has loaded.  Each of
    the four hero parts the page has when the load listener runs carries
    [animate-visible] once the pending timers have fired, and keeps it
    whatever happens next. *)
Theorem hero_revealed_after_load (w : world) (a : ScrollAnimator.t)
  (s : string) (h : elem) (n : nat) (ops : list op) :
  animator w = Some a ->
  ScrollAnimator.load_bound a = true ->
  In s ["hero-title"; "hero-subtitle"; "hero-description"; "hero-buttons"] ->
  querySelector s (page (env w)) = Some h ->
  revealed
    (run (repeat Timer (pending_work (env (step Load w)) + n) ++ ops)
         (step Load w)) h = true.
Proof.
  intros Ha Hl Hs Hq.
  set (w1 := step Load w).
  unfold run. rewrite fold_left_app.
  fold (run (repeat Timer (pending_work (env w1) + n)) w1).
  fold (run ops (run (repeat Timer (pending_work (env w1) + n)) w1)).
  apply revealed_iff. apply keeps_run. rewrite env_run_timers.
  apply pending_reveal_runs; [lia|]. left.
  subst w1. cbn [step]. rewrite Ha, Hl. cbn [with_env env].
  destruct (on_load_spec (env w)) as [_ H].
  destruct (H s h Hs Hq) as (t & Hin & Hact).
  exists t. split; [|right; exact Hact].
  unfold PageTransitions.on_load. cbn [setTimeout timers set_page].
  apply in_or_app. left. exact Hin.
Qed.

Lemma hero_revealed_after_load_witness :
  revealed
    (run (repeat Timer
            (pending_work
               (env (step Load (run [NewScrollAnimator]
                                    (initial Demo.demo_page true)))) + 0) ++ [])
         (step Load (run [NewScrollAnimator] (initial Demo.demo_page true))))
    8 = true.
Proof.
  apply (hero_revealed_after_load
           (run [NewScrollAnimator] (initial Demo.demo_page true))
           (ScrollAnimator.animateOnLoad
              (ScrollAnimator.bindEvents
                 {| ScrollAnimator.observer :=
                      Some {| ScrollAnimator.root := None;
                              ScrollAnimator.rootMargin := "0px";
                              ScrollAnimator.threshold := Double.tenth;
                              ScrollAnimator.targets := [] |};
                    ScrollAnimator.animatedElements := ∅;
                    ScrollAnimator.sweep_bound := false;
                    ScrollAnimator.load_bound := false |}))
           "hero-title" 8 0 []).
  - reflexivity.
  - reflexivity.
  - left. reflexivity.
  - vm_compute. reflexivity.
Defined.

End Liveness.

(** ** One banner at a time *)

Section Banners.
Import Dom Browser Program Notions Loop Slots.
Import PortfolioApp.

Lemma filter_ne_absent (x : elem) (l : list elem) :
  x ∉ l -> filter (fun y => y ≠ x) l = l.
Proof.
  induction l as [|y l IH]; intros H; [reflexivity|].
  rewrite filter_cons. destruct (decide (y ≠ x)) as [Hne|He].
  - f_equal. apply IH. intros Hin. apply H. now apply list_elem_of_further.
  - exfalso. apply H. destruct (decide (y = x)) as [->|N];
      [apply list_elem_of_here | contradiction].
Qed.

Lemma filter_ne_last (x : elem) (l : list elem) :
  x ∉ l -> filter (fun y => y ≠ x) (l ++ [x]) = l.
Proof.
  intros H. rewrite filter_app, filter_ne_absent by exact H.
  rewrite filter_cons. destruct (decide (x ≠ x)); [contradiction|].
  now rewrite filter_nil, app_nil_r.
Qed.


(** The page [showNotification] leaves, field by field. *)
Lemma showNotification_page msg ty b :
  exists n d1,
    d1 = match querySelector "notification" (page b) with
         | Some x => remove x (page b)
         | None => page b
         end
    /\ (n ∉ known d1)
    /\ attached (page (showNotification msg ty b)) = attached d1 ++ [n]
    /\ classes (page (showNotification msg ty b))
       = <[n := tokens_add ["notification"; "notification-" +:+ ty] []]>
           (classes (page b))
    /\ text (page (showNotification msg ty b)) = <[n := msg]> (text (page b))
    /\ transform (page (showNotification msg ty b))
       = <[n := "translateX(400px)"]> (transform (page b))
    /\ timers (showNotification msg ty b)
       = timers b ++ [{| due := now b + 100; act := ANotifIn n |};
                      {| due := now b + 5000; act := ANotifOut n |}]
    /\ now (showNotification msg ty b) = now b.
Proof.
  unfold showNotification.
  set (d1 := match querySelector "notification" (page b) with
             | Some x => remove x (page b)
             | None => page b
             end).
  assert (H1 : classes d1 = classes (page b) /\ text d1 = text (page b)
               /\ transform d1 = transform (page b)).
  { subst d1. destruct (querySelector _ _); repeat apply conj; reflexivity. }
  destruct H1 as (C1 & T1 & X1).
  destruct (createElement _ d1) as [n d2] eqn:E.
  pose proof E as E'. apply createElement_spec in E'
    as (F & C2 & A2 & P2 & T2 & I2 & D2 & M2).
  assert (X2 : transform d2 = transform d1).
  { unfold createElement in E. apply pair_equal_spec in E as [_ <-].
    reflexivity. }
  exists n, d1.
  cbn [page set_page setTimeout calls timers now set_text set_transform
       appendToBody set_attached classes text inputs disabled attached
       transform].
  repeat apply conj; try reflexivity.
  - exact F.
  - rewrite A2. rewrite filter_ne_absent; [reflexivity|].
    intros Hin. apply F. unfold known. rewrite !elem_of_union.
    rewrite elem_of_list_to_set. tauto.
  - now rewrite C2, C1.
  - now rewrite T2, T1.
  - now rewrite X2, X1.
  - rewrite <- app_assoc. reflexivity.
Qed.

Lemma has_class_insert_other (d d' : document) n l sel e :
  classes d' = <[n := l]> (classes d) -> e <> n ->
  has_any_class d' sel e = has_any_class d sel e.
Proof.
  intros C Hne. unfold has_any_class, contains, classList.
  rewrite C, lookup_insert_ne by congruence. reflexivity.
Qed.

Lemma List_filter_ext_in {A} (f g : A -> bool) (l : list A) :
  (forall x, In x l -> f x = g x) -> List.filter f l = List.filter g l.
Proof.
  induction l as [|x l IH]; intros H; cbn [List.filter]; [reflexivity|].
  rewrite (H x) by now left. rewrite IH; [reflexivity|].
  intros y Hy. apply H. now right.
Qed.




End Banners.

(** ** The life of a banner *)

Section BannerTimeline.
Import Dom Browser Program Notions Loop Slots.
Import PortfolioApp.

Lemma tick_one t b :
  timers b = [t] ->
  tick b = fire (act t)
             {| page := page b; timers := []; now := Z.max (now b) (due t);
                calls := calls b;
                hasIntersectionObserver := hasIntersectionObserver b |}.
Proof. intros E. unfold tick, take_timer. rewrite E. reflexivity. Qed.

Lemma tick_two t1 t2 b :
  timers b = [t1; t2] -> (due t1 <= due t2)%Z ->
  tick b = fire (act t1)
             {| page := page b; timers := [t2]; now := Z.max (now b) (due t1);
                calls := calls b;
                hasIntersectionObserver := hasIntersectionObserver b |}.
Proof.
  intros E H. unfold tick, take_timer. rewrite E. cbn [pop_earliest].
  apply Z.leb_le in H. rewrite H. reflexivity.
Qed.

(** X4: the life of a banner.  Shown with nothing else pending, a banner
    slides in after 100 ms, slides out after 5000 ms and is taken out of
    the page 300 ms later; after that nothing is pending. *)
Theorem banner_timeline (msg ty : string) (b : browser) :
  timers b = [] ->
  exists n,
    n ∈ attached (page (showNotification msg ty b))
    /\ transform (page (showNotification msg ty b)) !! n
       = Some "translateX(400px)"
    /\ now (ticks 1 (showNotification msg ty b)) = (now b + 100)%Z
    /\ transform (page (ticks 1 (showNotification msg ty b))) !! n
       = Some "translateX(0)"
    /\ now (ticks 2 (showNotification msg ty b)) = (now b + 5000)%Z
    /\ n ∈ attached (page (ticks 2 (showNotification msg ty b)))
    /\ transform (page (ticks 2 (showNotification msg ty b))) !! n
       = Some "translateX(400px)"
    /\ now (ticks 3 (showNotification msg ty b)) = (now b + 5300)%Z
    /\ (n ∉ attached (page (ticks 3 (showNotification msg ty b))))
    /\ timers (ticks 3 (showNotification msg ty b)) = [].
Proof.
  intros Hidle.
  destruct (showNotification_page msg ty b)
    as (n & d1 & _ & _ & A & _ & _ & X & T & N).
  rewrite Hidle in T. cbn [List.app] in T.
  set (b1 := showNotification msg ty b) in *.
  exists n.
  assert (E1 : tick b1
               = notif_in n
                   {| page := page b1;
                      timers := [{| due := now b + 5000; act := ANotifOut n |}];
                      now := Z.max (now b1) (now b + 100);
                      calls := calls b1;
                      hasIntersectionObserver := hasIntersectionObserver b1 |}).
  { rewrite (tick_two _ _ b1 T) by (cbn [due]; lia). reflexivity. }
  set (b2 := tick b1) in *.
  assert (P2 : page b2 = set_transform (fun m => <[n := "translateX(0)"]> m)
                           (page b1)
               /\ timers b2 = [{| due := now b + 5000; act := ANotifOut n |}]
               /\ now b2 = (now b + 100)%Z /\ calls b2 = calls b1).
  { rewrite E1. unfold notif_in. cbn [set_page page timers now calls].
    repeat split. rewrite N. lia. }
  destruct P2 as (Pg2 & T2 & N2 & _).
  assert (E2 : tick b2
               = notif_out n
                   {| page := page b2; timers := [];
                      now := Z.max (now b2) (now b + 5000);
                      calls := calls b2;
                      hasIntersectionObserver := hasIntersectionObserver b2 |}).
  { rewrite (tick_one _ b2 T2). reflexivity. }
  set (b3 := tick b2) in *.
  assert (P3 : page b3 = set_transform
                           (fun m => <[n := "translateX(400px)"]> m) (page b2)
               /\ timers b3 = [{| due := now b + 5300; act := ANotifRemove n |}]
               /\ now b3 = (now b + 5000)%Z).
  { rewrite E2. unfold notif_out.
    cbn [setTimeout set_page page timers now calls List.app].
    change (timeout_ms 300) with 300%Z. rewrite N2.
    repeat split.
    - do 2 f_equal. lia.
    - lia. }
  destruct P3 as (Pg3 & T3 & N3).
  assert (E3 : tick b3
               = notif_remove n
                   {| page := page b3; timers := [];
                      now := Z.max (now b3) (now b + 5300);
                      calls := calls b3;
                      hasIntersectionObserver := hasIntersectionObserver b3 |}).
  { rewrite (tick_one _ b3 T3). reflexivity. }
  assert (Att : n ∈ attached (page b1)).
  { rewrite A. apply elem_of_app. right. apply list_elem_of_here. }
  change (ticks 1 b1) with b2. change (ticks 2 b1) with b3.
  change (ticks 3 b1) with (tick b3).
  repeat apply conj.
  - exact Att.
  - rewrite X. apply lookup_insert_eq.
  - exact N2.
  - rewrite Pg2. cbn [set_transform transform]. apply lookup_insert_eq.
  - exact N3.
  - rewrite Pg3, Pg2. exact Att.
  - rewrite Pg3. cbn [set_transform transform]. apply lookup_insert_eq.
  - rewrite E3. unfold notif_remove. cbn [page].
    destruct (decide _); cbn [set_page now]; rewrite N3; lia.
  - rewrite E3. apply notif_remove_detaches.
  - rewrite E3. unfold notif_remove. cbn [page].
    destruct (decide _); reflexivity.
Qed.

Lemma banner_timeline_witness :
  timers Demo.demo_valid = []
  /\ exists n,
       n ∈ attached (page (showNotification "Saved" "info" Demo.demo_valid))
       /\ transform (page (showNotification "Saved" "info" Demo.demo_valid)) !! n
          = Some "translateX(400px)"
       /\ now (ticks 1 (showNotification "Saved" "info" Demo.demo_valid))
          = (now Demo.demo_valid + 100)%Z
       /\ transform (page (ticks 1 (showNotification "Saved" "info"
                                      Demo.demo_valid))) !! n
          = Some "translateX(0)"
       /\ now (ticks 2 (showNotification "Saved" "info" Demo.demo_valid))
          = (now Demo.demo_valid + 5000)%Z
       /\ n ∈ attached (page (ticks 2 (showNotification "Saved" "info"
                                         Demo.demo_valid)))
       /\ transform (page (ticks 2 (showNotification "Saved" "info"
                                      Demo.demo_valid))) !! n
          = Some "translateX(400px)"
       /\ now (ticks 3 (showNotification "Saved" "info" Demo.demo_valid))
          = (now Demo.demo_valid + 5300)%Z
       /\ (n ∉ attached (page (ticks 3 (showNotification "Saved" "info"
                                          Demo.demo_valid))))
       /\ timers (ticks 3 (showNotification "Saved" "info" Demo.demo_valid)) = [].
Proof.
  split; [reflexivity|].
  exact (banner_timeline "Saved" "info" Demo.demo_valid eq_refl).
Defined.

End BannerTimeline.

(** ** Messages under a field *)

Section FieldMessages.
Import JsString Regex Dom Browser Program Notions Slots.
Import PortfolioApp.

Lemma ancestor_snoc m n e c x :
  ancestor m n e = Some c -> m !! c = Some x -> ancestor m (S n) e = Some x.
Proof.
  revert e. induction n as [|n IH]; intros e H Hc.
  - cbn in H. injection H as ->. cbn. now rewrite Hc.
  - cbn [ancestor] in H. change (ancestor m (S (S n)) e)
      with (match m !! e with Some y => ancestor m (S n) y | None => None end).
    destruct (m !! e) as [y|]; [|discriminate H].
    now apply IH.
Qed.

(** An element below [x] has [x] among its ancestors: in a tree no
    element is below itself. *)
Lemma below_ancestor m l x e :
  e ∈ below m l x -> exists n, ancestor m (S n) e = Some x.
Proof.
  revert x. induction l as [|c l IH]; intros x H.
  - cbn in H. apply elem_of_nil in H. contradiction.
  - cbn [below] in H. apply elem_of_app in H. destruct H as [H|H].
    + destruct (bool_decide (m !! c = Some x)) eqn:B;
        [|apply elem_of_nil in H; contradiction].
      apply bool_decide_eq_true in B.
      apply elem_of_app in H. destruct H as [H|H].
      * destruct (IH c H) as [n Hn]. exists (S n).
        now apply ancestor_snoc with c.
      * apply list_elem_of_singleton in H. subst e. exists 0.
        cbn. now rewrite B.
    + now apply IH.
Qed.

Lemma below_tree m l x :
  (forall n, ancestor m (S n) x <> Some x) -> x ∉ below m l x.
Proof.
  intros H K. destruct (below_ancestor m l x x K) as [n Hn].
  exact (H n Hn).
Qed.

Lemma field_errors_elem d p x e :
  (x, e) ∈ field_errors d p ->
  x ∈ below (parentNode d) (attached d) p ++ [p]
  /\ e ∈ default [] (errors d !! x).
Proof.
  unfold field_errors. rewrite list_elem_of_In, in_flat_map.
  intros (y & Hy & H). apply in_map_iff in H.
  destruct H as (e' & E & He). injection E as -> ->.
  split; apply list_elem_of_In; assumption.
Qed.

Lemma field_errors_intro d p x e :
  x ∈ below (parentNode d) (attached d) p ++ [p] ->
  e ∈ default [] (errors d !! x) ->
  (x, e) ∈ field_errors d p.
Proof.
  intros Hx He. unfold field_errors.
  rewrite list_elem_of_In, in_flat_map. exists x.
  split; [now apply list_elem_of_In|].
  apply in_map. now apply list_elem_of_In.
Qed.

Lemma flat_map_empty {A B} (f : A -> list B) (l : list A) :
  (forall y, y ∈ l -> f y = []) -> flat_map f l = [].
Proof.
  induction l as [|a l IH]; intros H; [reflexivity|].
  cbn [flat_map]. rewrite (H a) by apply list_elem_of_here.
  cbn [List.app]. apply IH. intros y Hy. apply H.
  now apply list_elem_of_further.
Qed.

Lemma filter_all_equal (e : elem) (l : list elem) :
  (forall e', e' ∈ l -> e' = e) -> filter (fun e' => e' ≠ e) l = [].
Proof.
  induction l as [|a l IH]; intros H; [reflexivity|].
  rewrite filter_cons. destruct (decide (a ≠ e)) as [N|_].
  - exfalso. apply N. apply H. apply list_elem_of_here.
  - apply IH. intros e' He'. apply H. now apply list_elem_of_further.
Qed.

(** With at most one box in the subtree of the container, the search of
    [clearFieldError] leaves none. *)
Lemma field_errors_clearFieldError field p d :
  parentNode d !! field = Some p ->
  length (error_boxes d p) <= 1 ->
  field_errors (clearFieldError field d) p = [].
Proof.
  intros H L. unfold clearFieldError. rewrite H.
  destruct (field_errors d p) as [|[x e] r] eqn:E; [exact E|].
  assert (R : r = []).
  { unfold error_boxes in L. rewrite E in L. cbn in L.
    destruct r; [reflexivity | cbn in L; lia]. }
  subst r.
  assert (U : forall y e', y ∈ below (parentNode d) (attached d) p ++ [p] ->
                e' ∈ default [] (errors d !! y) -> y = x /\ e' = e).
  { intros y e' Hy He'. pose proof (field_errors_intro d p y e' Hy He') as K.
    rewrite E in K. apply list_elem_of_singleton in K.
    injection K as -> ->. split; reflexivity. }
  unfold field_errors. cbn [set_errors errors parentNode attached].
  apply flat_map_empty. intros y Hy.
  destruct (decide (y = x)) as [->|N].
  - rewrite lookup_insert_eq. cbn [default].
    rewrite filter_all_equal; [reflexivity|].
    intros e' He'. exact (proj2 (U x e' Hy He')).
  - rewrite lookup_insert_ne by congruence.
    destruct (default [] (errors d !! y)) as [|e' l] eqn:Ey; [reflexivity|].
    exfalso. apply N. apply (U y e' Hy). rewrite Ey. apply list_elem_of_here.
Qed.

Lemma messages_clearFieldError field p d :
  parentNode d !! field = Some p ->
  length (error_boxes d p) <= 1 ->
  messages (clearFieldError field d) p = [].
Proof.
  intros H L. unfold messages, error_boxes.
  now rewrite (field_errors_clearFieldError field p d H L).
Qed.

Lemma field_errors_none d p y :
  field_errors d p = [] ->
  y ∈ below (parentNode d) (attached d) p ++ [p] ->
  default [] (errors d !! y) = [].
Proof.
  intros E Hy. destruct (default [] (errors d !! y)) as [|e l] eqn:Ey;
    [reflexivity|].
  assert (K : (y, e) ∈ field_errors d p).
  { apply field_errors_intro; [exact Hy|]. rewrite Ey.
    apply list_elem_of_here. }
  rewrite E in K. apply elem_of_nil in K. contradiction.
Qed.

Lemma messages_showFieldError field p msg d :
  parentNode d !! field = Some p ->
  p ∉ below (parentNode d) (attached d) p ->
  length (error_boxes d p) <= 1 ->
  messages (showFieldError field msg d) p = [msg].
Proof.
  intros H Hn L.
  destruct (classes_clearFieldError field d) as (_ & _ & _ & A & _ & _ & P).
  pose proof (field_errors_clearFieldError field p d H L) as E0.
  unfold showFieldError, createElement.
  remember (clearFieldError field d) as d1 eqn:D1.
  cbn [set_text set_classes parentNode]. rewrite P, H.
  unfold messages, error_boxes, field_errors.
  cbn [set_errors set_text set_classes errors text parentNode attached].
  rewrite P, A, flat_map_app.
  rewrite flat_map_empty.
  - cbn [flat_map List.app]. rewrite lookup_insert_eq. cbn [default].
    rewrite (field_errors_none d1 p p E0).
    + unfold id. cbn [List.app map snd]. rewrite lookup_insert_eq.
      reflexivity.
    + rewrite P, A. apply elem_of_app. right. apply list_elem_of_here.
  - intros y Hy. rewrite lookup_insert_ne by (intros ->; contradiction).
    rewrite (field_errors_none d1 p y E0); [reflexivity|].
    rewrite P, A. apply elem_of_app. now left.
Qed.

Lemma validateField_messages (field p : elem) (i : input) (b : browser) :
  inputs (page b) !! field = Some i ->
  parentNode (page b) !! field = Some p ->
  p ∉ below (parentNode (page b)) (attached (page b)) p ->
  length (error_boxes (page b) p) <= 1 ->
  exists b',
    validateField field b = Ok (valid_input i, b')
    /\ messages (page b') p
       = (if String.eqb (in_type i) "email"
             && negb (matches emailRegex (trim (in_value i)))
          then ["Please enter a valid email address"]
          else if in_required i && falsy (trim (in_value i))
               then ["This field is required"]
               else []).
Proof.
  intros Hi Hp Hn L.
  destruct (validateField_spec field b i Hi) as (b' & V & _).
  exists b'. split; [exact V|].
  revert V. unfold validateField. rewrite Hi.
  destruct (String.eqb (in_type i) "email"
            && negb (matches emailRegex (trim (in_value i)))).
  - intros V. apply Ok_pair_inv in V. destruct V as [_ <-].
    cbn [page set_page].
    apply messages_showFieldError; [exact Hp | exact Hn | exact L].
  - destruct (in_required i && falsy (trim (in_value i))).
    + intros V. apply Ok_pair_inv in V. destruct V as [_ <-].
      cbn [page set_page].
      apply messages_showFieldError; [exact Hp | exact Hn | exact L].
    + intros V. apply Ok_pair_inv in V. destruct V as [_ <-].
      cbn [page set_page].
      apply (messages_clearFieldError field p); [exact Hp | exact L].
Qed.

(** X6: what a user reads under a field after it was validated.  The
    messages of a container are those of its whole subtree, the
    containers nested in it included, as [querySelector] searches it.
    With at most one message on show there before, there is at most one
    after: the e-mail message if the field is an e-mail field whose
    trimmed value is no address, else the required message if the field
    is required and empty, else none.  An e-mail field left empty is
    given the e-mail message whether it is required or not. *)
Theorem field_message_after_validation (field p : elem) (i : input)
  (b : browser) :
  inputs (page b) !! field = Some i ->
  parentNode (page b) !! field = Some p ->
  p ∉ below (parentNode (page b)) (attached (page b)) p ->
  length (error_boxes (page b) p) <= 1 ->
  exists b',
    validateField field b = Ok (valid_input i, b')
    /\ messages (page b') p
       = (if String.eqb (in_type i) "email"
             && negb (matches emailRegex (trim (in_value i)))
          then ["Please enter a valid email address"]
          else if in_required i && falsy (trim (in_value i))
               then ["This field is required"]
               else [])
    /\ (in_type i = "email" -> trim (in_value i) = [] ->
        valid_input i = false
        /\ messages (page b') p = ["Please enter a valid email address"]).
Proof.
  intros Hi Hp Hn L.
  destruct (validateField_messages field p i b Hi Hp Hn L) as (b' & V & M).
  exists b'. split; [exact V|]. split; [exact M|].
  intros Ht Hv. rewrite M. unfold valid_input. rewrite Ht, Hv.
  split; reflexivity.
Qed.

Lemma field_message_after_validation_witness :
  inputs (page Demo.demo_invalid) !! 3
  = Some {| in_type := "email"; in_value := lit "not-an-email";
            in_default := []; in_required := true |}
  /\ exists b',
       validateField 3 Demo.demo_invalid = Ok (false, b')
       /\ messages (page b') 6 = ["Please enter a valid email address"].
Proof.
  assert (Hi : inputs (page Demo.demo_invalid) !! 3
               = Some {| in_type := "email"; in_value := lit "not-an-email";
                         in_default := []; in_required := true |})
    by (vm_compute; reflexivity).
  split; [exact Hi|].
  assert (Hp : parentNode (page Demo.demo_invalid) !! 3 = Some 6)
    by (vm_compute; reflexivity).
  assert (Hn : 6 ∉ below (parentNode (page Demo.demo_invalid))
                         (attached (page Demo.demo_invalid)) 6).
  { intros K. apply list_elem_of_In in K. vm_compute in K.
    destruct K as [K|K]; [discriminate K | exact K]. }
  assert (L : length (error_boxes (page Demo.demo_invalid) 6) <= 1)
    by (vm_compute; lia).
  destruct (field_message_after_validation 3 6 _ Demo.demo_invalid Hi Hp Hn L)
    as (b' & V & M & _).
  exists b'. split; [exact V | exact M].
Defined.

(** X7: typing into a field takes the message away and leaves the
    marker.  With at most one message on show in the subtree of its
    container, after a listening field that does not validate has lost
    the focus there is one message there; the next input event removes
    the message, while the field keeps the class [error] (and is not
    given [success]) until it is validated again. *)
Theorem typing_clears_message_keeps_marker (w : world) (field p : elem)
  (i : input) :
  field ∈ listening_fields w ->
  inputs (page (env w)) !! field = Some i ->
  parentNode (page (env w)) !! field = Some p ->
  p ∉ below (parentNode (page (env w))) (attached (page (env w))) p ->
  length (error_boxes (page (env w)) p) <= 1 ->
  valid_input i = false ->
  length (messages (page (env (run [Blur field] w))) p) = 1
  /\ messages (page (env (run [Blur field; Input field] w))) p = []
  /\ "error" ∈ classList (page (env (run [Blur field; Input field] w))) field
  /\ ("success" ∉ classList (page (env (run [Blur field; Input field] w))) field).
Proof.
  intros Hl Hi Hp Hn L Hv.
  destruct (validateField_messages field p i (env w) Hi Hp Hn L)
    as (b' & V & M).
  destruct (validateField_classifies field (env w) i Hi) as (b2 & V2 & C & F).
  rewrite V in V2. apply Ok_pair_inv in V2. destruct V2 as [_ <-].
  rewrite Hv in C. destruct C as [Ce Cs].
  assert (B : env (run [Blur field] w) = b'
              /\ listening_fields (run [Blur field] w) = listening_fields w).
  { unfold run. cbn [fold_left step].
    destruct (decide (field ∈ listening_fields w)); [|contradiction].
    rewrite V. cbn [bind or_unchanged snd with_env env]. split; reflexivity. }
  destruct B as [B1 B2].
  assert (M1 : length (messages (page b') p) = 1).
  { rewrite M. unfold valid_input in Hv.
    destruct (String.eqb (in_type i) "email"
              && negb (matches emailRegex (trim (in_value i))));
      [reflexivity|].
    destruct (in_required i && falsy (trim (in_value i)));
      [reflexivity | discriminate Hv]. }
  split; [rewrite B1; exact M1|].
  change (run [Blur field; Input field] w)
    with (step (Input field) (run [Blur field] w)).
  cbn [step]. rewrite B2.
  destruct (decide (field ∈ listening_fields w)); [|contradiction].
  cbn [with_env env]. rewrite B1. cbn [page set_page].
  destruct F as (_ & _ & _ & _ & P & _).
  rewrite classList_clearFieldError.
  split; [|split; [exact Ce | exact Cs]].
  apply (messages_clearFieldError field p); [rewrite P; exact Hp|].
  unfold messages in M1. rewrite length_map in M1. lia.
Qed.

Lemma typing_clears_message_keeps_marker_witness :
  length (messages
            (page (env (run [Blur 3]
                            (run [NewPortfolioApp Demo.demo_markup]
                                 (with_env Demo.demo_invalid
                                    (initial Demo.demo_page true))))))
            6) = 1
  /\ messages
       (page (env (run [Blur 3; Input 3]
                       (run [NewPortfolioApp Demo.demo_markup]
                            (with_env Demo.demo_invalid
                               (initial Demo.demo_page true))))))
       6 = []
  /\ "error" ∈ classList
       (page (env (run [Blur 3; Input 3]
                       (run [NewPortfolioApp Demo.demo_markup]
                            (with_env Demo.demo_invalid
                               (initial Demo.demo_page true))))))
       3
  /\ ("success" ∉ classList
       (page (env (run [Blur 3; Input 3]
                       (run [NewPortfolioApp Demo.demo_markup]
                            (with_env Demo.demo_invalid
                               (initial Demo.demo_page true))))))
       3).
Proof.
  apply (typing_clears_message_keeps_marker
           (run [NewPortfolioApp Demo.demo_markup]
                (with_env Demo.demo_invalid (initial Demo.demo_page true)))
           3 6
           {| in_type := "email"; in_value := lit "not-an-email";
              in_default := []; in_required := true |}).
  - apply list_elem_of_In. vm_compute. left. reflexivity.
  - vm_compute. reflexivity.
  - vm_compute. reflexivity.
  - intros K. apply list_elem_of_In in K. vm_compute in K.
    destruct K as [K|K]; [discriminate K | exact K].
  - vm_compute. lia.
  - vm_compute. reflexivity.
Defined.

(** Where a container is nested in the container of another field, the
    two fields share the boxes: validating the outer field removes the
    message of the inner one, and when the inner field is validated in
    between, the messages of the outer field pile up. *)
Lemma nested_fields_share_the_search :
  exists b1 b2 b3 b4,
    validateField 4 (env (initial Demo.nested_page true)) = Ok (false, b1)
    /\ messages (page b1) 2 = ["This field is required"]
    /\ validateField 3 b1 = Ok (false, b2)
    /\ messages (page b2) 2 = []
    /\ messages (page b2) 1 = ["This field is required"]
    /\ validateField 4 b2 = Ok (false, b3)
    /\ validateField 3 b3 = Ok (false, b4)
    /\ messages (page b4) 2 = []
    /\ messages (page b4) 1
       = ["This field is required"; "This field is required"].
Proof.
  do 4 eexists.
  split; [vm_compute; reflexivity|].
  split; [vm_compute; reflexivity|].
  split; [vm_compute; reflexivity|].
  split; [vm_compute; reflexivity|].
  split; [vm_compute; reflexivity|].
  split; [vm_compute; reflexivity|].
  split; [vm_compute; reflexivity|].
  split; vm_compute; reflexivity.
Qed.

End FieldMessages.

(** ** Every field is looked at *)

Section EveryField.
Import JsString Regex Dom Browser Program Notions Slots Marks.
Import PortfolioApp.

Lemma solid_input d e : is_Some (inputs d !! e) -> e ∈ solid d.
Proof.
  intros H. apply elem_of_dom in H. unfold solid. rewrite !elem_of_union.
  tauto.
Qed.

Lemma validateField_other f e b r b' :
  validateField f b = Ok (r, b') -> e <> f -> e ∈ solid (page b) ->
  classList (page b') e = classList (page b) e.
Proof.
  intros V Hne Hs.
  assert (K : forall ts, classList
                (classList_add f ts
                   (classList_remove f ["error"; "success"] (page b))) e
              = classList (page b) e).
  { intros ts. rewrite classList_classList_add.
    destruct (decide (f = e)); [congruence|].
    rewrite classList_classList_remove.
    destruct (decide (f = e)); [congruence | reflexivity]. }
  assert (S : forall ts, e ∈ solid
                (classList_add f ts
                   (classList_remove f ["error"; "success"] (page b)))).
  { intros ts.
    pose proof (frame_classList_remove f ["error"; "success"] b) as F1.
    pose proof (frame_classList_add f ts
                  (set_page (classList_remove f ["error"; "success"]) b)) as F2.
    destruct (frame_trans _ _ _ F1 F2) as (_ & _ & _ & _ & _ & _ & _ & _ & M & _).
    apply M. exact Hs. }
  revert V. unfold validateField.
  destruct (inputs (page b) !! f) as [i|]; [|discriminate].
  destruct (String.eqb (in_type i) "email"
            && negb (matches emailRegex (trim (in_value i)))).
  - intros V. apply Ok_pair_inv in V. destruct V as [_ <-].
    cbn [page set_page]. rewrite classList_showFieldError by apply S. apply K.
  - destruct (in_required i && falsy (trim (in_value i))).
    + intros V. apply Ok_pair_inv in V. destruct V as [_ <-].
      cbn [page set_page]. rewrite classList_showFieldError by apply S.
      apply K.
    + intros V. apply Ok_pair_inv in V. destruct V as [_ <-].
      cbn [page set_page]. rewrite classList_clearFieldError. apply K.
Qed.

Lemma validateAll_marks l :
  forall ok b,
    (forall e, e ∈ l -> is_Some (inputs (page b) !! e)) ->
    exists b',
      validateAll l ok b = (b', Ok (ok && forallb (valid_at (page b)) l))
      /\ frame b b'
      /\ (forall e, e ∈ l -> marked (page b) (page b') e)
      /\ (forall e, e ∉ l -> e ∈ solid (page b) ->
                    classList (page b') e = classList (page b) e).
Proof.
  induction l as [|f l IH]; intros ok b Hc.
  - exists b. cbn [validateAll forallb]. rewrite andb_true_r.
    split; [reflexivity|]. split; [apply frame_refl|].
    split; [intros e He; apply elem_of_nil in He; contradiction | reflexivity].
  - destruct (Hc f (list_elem_of_here _ _)) as [i Hi].
    destruct (validateField_classifies f b i Hi) as (b1 & V & C & F).
    assert (I1 : inputs (page b1) = inputs (page b)) by apply F.
    assert (S1 : solid (page b) ⊆ solid (page b1)) by apply F.
    destruct (IH (if valid_input i then ok else false) b1) as (b' & E & F' & M & O).
    { intros e He. rewrite I1. apply Hc. now apply list_elem_of_further. }
    assert (VA : forall e, valid_at (page b1) e = valid_at (page b) e).
    { intros e. unfold valid_at. now rewrite I1. }
    exists b'. cbn [validateAll forallb]. rewrite V, E.
    split.
    { f_equal. f_equal. unfold valid_at. rewrite I1, Hi.
      destruct (valid_input i), ok; reflexivity. }
    split; [eapply frame_trans; eassumption|].
    split.
    + intros e He. destruct (decide (e ∈ l)) as [Hin|Hout].
      * specialize (M e Hin). unfold marked in *. rewrite <- VA. exact M.
      * apply elem_of_cons in He. destruct He as [->|He]; [|contradiction].
        unfold marked, valid_at. rewrite Hi.
        rewrite (O f Hout) by (apply solid_input; rewrite I1; eauto).
        exact C.
    + intros e He Hs.
      assert (e <> f) by (intros ->; apply He, list_elem_of_here).
      assert (e ∉ l) by (intros H'; apply He; now apply list_elem_of_further).
      rewrite O by auto. eapply validateField_other; eassumption.
Qed.

Lemma classList_showNotification msg ty b e :
  is_Some (inputs (page b) !! e) ->
  classList (page (showNotification msg ty b)) e = classList (page b) e.
Proof.
  intros He.
  destruct (showNotification_page msg ty b)
    as (n & d1 & D & Hn & _ & C & _).
  unfold classList. rewrite C. rewrite lookup_insert_ne; [reflexivity|].
  intros <-. apply Hn. apply elem_of_dom in He.
  assert (I : inputs d1 = inputs (page b)).
  { rewrite D. destruct (querySelector _ _); reflexivity. }
  unfold known. rewrite I, !elem_of_union. tauto.
Qed.

(** X8: a submission looks at every field.  Validation does not stop at
    the first field that fails: when the handler returns, each
    [.form-input] of the form carries the marker of its own answer,
    [success] if it validates and [error] if not, and never both. *)
Theorem submission_marks_every_field (f : form) (b : browser)
  (submitButton : elem) :
  submit f = Some submitButton ->
  (forall e, e ∈ List.filter (fun e => contains (page b) e "form-input")
                             (descendants f) ->
             is_Some (inputs (page b) !! e)) ->
  exists b',
    handleFormSubmission f b = (b', Ok tt)
    /\ forall e,
         e ∈ List.filter (fun e => contains (page b) e "form-input")
                         (descendants f) ->
         marked (page b) (page b') e.
Proof.
  intros Hs Hc.
  destruct (validateAll_marks _ true b Hc) as (b0 & E & F & M & _).
  assert (I0 : inputs (page b0) = inputs (page b)) by apply F.
  unfold handleFormSubmission. rewrite Hs, E. cbn [andb].
  destruct (forallb _ _); cbn [negb].
  - eexists. split; [reflexivity|]. intros e He.
    specialize (M e He). exact M.
  - eexists. split; [reflexivity|]. intros e He.
    specialize (M e He). unfold marked in *.
    rewrite classList_showNotification by (rewrite I0; auto). exact M.
Qed.

Lemma submission_marks_every_field_witness :
  exists b',
    handleFormSubmission Demo.demo_form Demo.demo_invalid = (b', Ok tt)
    /\ forall e,
         e ∈ List.filter (fun e => contains (page Demo.demo_invalid) e
                                            "form-input")
                         (descendants Demo.demo_form) ->
         marked (page Demo.demo_invalid) (page b') e.
Proof.
  apply (submission_marks_every_field Demo.demo_form Demo.demo_invalid 5).
  - reflexivity.
  - intros e He. apply list_elem_of_In in He. vm_compute in He.
    destruct He as [<-|[<-|[]]]; eexists; vm_compute; reflexivity.
Defined.

End EveryField.

(** ** Opening and closing the project modal *)

Section ModalRoundTrip.
Import Dom Browser Program Notions Loop Slots.
Import PortfolioApp.

Lemma fresh_not_attached d : fresh (known d) ∉ attached d.
Proof.
  intros H. apply (is_fresh (known d)). unfold known.
  rewrite !elem_of_union, elem_of_list_to_set. tauto.
Qed.

(** What [showProjectModal] builds from a record of details. *)
Lemma showProjectModal_page pd dt b :
  details pd = DRecord dt ->
  exists m d,
    showProjectModal pd b
    = Ok {| page := d; timers := timers b ++ [{| due := now b + 100;
                                                 act := AModalIn m |}];
            now := now b;
            calls := calls b ++ [CallSetTimeout (AModalIn m) 100];
            hasIntersectionObserver := hasIntersectionObserver b |}
    /\ (m ∉ known (page b))
    /\ attached d = attached (page b) ++ [m]
    /\ body_overflow d = "hidden"
    /\ opacity d = <[m := "0"]> (opacity (page b))
    /\ modal d = <[m := modal_html pd dt]> (modal (page b))
    /\ classes d = <[m := tokens_add ["project-modal"] []]> (classes (page b))
    /\ text d = text (page b) /\ inputs d = inputs (page b)
    /\ transform d = transform (page b) /\ errors d = errors (page b).
Proof.
  intros Hd. unfold showProjectModal, createElement. rewrite Hd.
  exists (fresh (known (page b))). eexists. split; [reflexivity|].
  split; [apply is_fresh|].
  cbn [page set_page setTimeout appendToBody set_attached set_body_overflow
       set_opacity set_modal set_classes attached body_overflow opacity modal classes text inputs
       transform errors].
  rewrite filter_ne_absent by apply fresh_not_attached.
  repeat split.
Qed.

Lemma str_app_nil_r (a : string) : a +:+ EmptyString = a.
Proof.
  induction a as [|c a IH]; [reflexivity|].
  change (String c (a +:+ EmptyString) = String c a). now rewrite IH.
Qed.

Lemma str_app_assoc (a b c : string) : (a +:+ b) +:+ c = a +:+ b +:+ c.
Proof.
  induction a as [|x a IH]; [reflexivity|].
  change (String x ((a +:+ b) +:+ c) = String x (a +:+ b +:+ c)).
  now rewrite IH.
Qed.

Lemma occurs_refl (u : string) : occurs u u.
Proof.
  exists EmptyString, EmptyString.
  change (u = u +:+ EmptyString). now rewrite str_app_nil_r.
Qed.

Lemma occurs_app_l (u a b : string) : occurs u a -> occurs u (a +:+ b).
Proof.
  intros (pre & post & ->). exists pre, (post +:+ b).
  now rewrite !str_app_assoc.
Qed.

Lemma occurs_app_r (u a b : string) : occurs u b -> occurs u (a +:+ b).
Proof.
  intros (pre & post & ->). exists (a +:+ pre), post.
  now rewrite !str_app_assoc.
Qed.

Lemma occurs_trans (u s t : string) : occurs u s -> occurs s t -> occurs u t.
Proof.
  intros Hu (pre & post & ->). apply occurs_app_r, occurs_app_l, Hu.
Qed.

Lemma concat_cons (x : string) (l : list string) :
  String.concat EmptyString (x :: l) = x +:+ String.concat EmptyString l.
Proof.
  destruct l as [|y l]; [|reflexivity].
  cbn [String.concat]. symmetry. apply str_app_nil_r.
Qed.

Lemma occurs_concat (x : string) (l : list string) :
  x ∈ l -> occurs x (String.concat EmptyString l).
Proof.
  induction l as [|y l IH]; intros H; [apply elem_of_nil in H; contradiction|].
  rewrite concat_cons. apply elem_of_cons in H. destruct H as [->|H].
  - apply occurs_app_l, occurs_refl.
  - apply occurs_app_r, IH, H.
Qed.

Ltac piece := apply occurs_concat, list_elem_of_In; unfold modal_pieces;
              cbn [In]; repeat (first [left; reflexivity | right]).

(** Where the project data sits in the template. *)
Lemma modal_html_holes (pd : project_data) (dt : detail) :
  occurs ("<h3>" +:+ title pd +:+ "</h3>") (modal_html pd dt)
  /\ occurs ("<p>" +:+ overview dt +:+ "</p>") (modal_html pd dt)
  /\ (forall f, f ∈ features dt ->
        occurs ("<li>" +:+ f +:+ "</li>") (modal_html pd dt))
  /\ (forall t, t ∈ tech pd ->
        occurs (quoted "<span class=`tech-tag`>" +:+ t +:+ "</span>")
               (modal_html pd dt)).
Proof.
  unfold modal_html. split; [piece|]. split; [piece|]. split.
  - intros f Hf.
    apply occurs_trans
      with (String.concat EmptyString
              (map (fun feature => "<li>" +:+ feature +:+ "</li>")
                   (features dt))); [|piece].
    apply occurs_concat.
    apply (list_elem_of_fmap_2 (fun feature => "<li>" +:+ feature +:+ "</li>")).
    exact Hf.
  - intros t Ht.
    apply occurs_trans
      with (String.concat EmptyString
              (map (fun tech => quoted "<span class=`tech-tag`>" +:+ tech
                                +:+ "</span>")
                   (tech pd))); [|piece].
    apply occurs_concat.
    apply (list_elem_of_fmap_2
             (fun tech => quoted "<span class=`tech-tag`>" +:+ tech
                          +:+ "</span>")).
    exact Ht.
Qed.

(** X9: the project modal, opened and closed on a page with nothing
    pending.  Opening adds one new element at the end of the body,
    transparent, and stops the page from scrolling; the string assigned
    to its [innerHTML] is the template of [showProjectModal] with the
    project data in its holes: the title in the heading, the overview in
    a paragraph, every feature in a list item and every technology in a
    tag, as they are, with no escaping.  100 ms later the modal is
    opaque.  Closing makes it transparent at once and, 300 ms later,
    takes it out: the body has the elements it had before, the page
    scrolls again and nothing is left pending. *)
Theorem modal_round_trip (pd : project_data) (dt : detail) (b : browser) :
  details pd = DRecord dt ->
  timers b = [] ->
  exists m b1,
    showProjectModal pd b = Ok b1
    /\ (m ∉ attached (page b))
    /\ attached (page b1) = attached (page b) ++ [m]
    /\ body_overflow (page b1) = "hidden"
    /\ opacity (page b1) !! m = Some "0"
    /\ modal (page b1) !! m = Some (modal_html pd dt)
    /\ occurs ("<h3>" +:+ title pd +:+ "</h3>") (modal_html pd dt)
    /\ occurs ("<p>" +:+ overview dt +:+ "</p>") (modal_html pd dt)
    /\ (forall f, f ∈ features dt ->
          occurs ("<li>" +:+ f +:+ "</li>") (modal_html pd dt))
    /\ (forall t, t ∈ tech pd ->
          occurs (quoted "<span class=`tech-tag`>" +:+ t +:+ "</span>")
                 (modal_html pd dt))
    /\ now (ticks 1 b1) = (now b + 100)%Z
    /\ opacity (page (ticks 1 b1)) !! m = Some "1"
    /\ opacity (page (closeProjectModal m (ticks 1 b1))) !! m = Some "0"
    /\ m ∈ attached (page (closeProjectModal m (ticks 1 b1)))
    /\ now (ticks 1 (closeProjectModal m (ticks 1 b1))) = (now b + 400)%Z
    /\ attached (page (ticks 1 (closeProjectModal m (ticks 1 b1))))
       = attached (page b)
    /\ body_overflow (page (ticks 1 (closeProjectModal m (ticks 1 b1)))) = ""
    /\ timers (ticks 1 (closeProjectModal m (ticks 1 b1))) = [].
Proof.
  intros Hd Hidle.
  destruct (showProjectModal_page pd dt b Hd)
    as (m & d & E & Hm & A & O & P & M & _).
  rewrite Hidle in E. cbn [List.app] in E.
  eexists m, _. split; [exact E|].
  assert (Hna : m ∉ attached (page b)).
  { intros H. apply Hm. unfold known.
    rewrite !elem_of_union, elem_of_list_to_set. tauto. }
  destruct (modal_html_holes pd dt) as (K1 & K2 & K3 & K4).
  cbn [page]. rewrite M, P, !lookup_insert_eq.
  change (ticks 1 ?x) with (tick x).
  set (b1 := {| page := d; timers := [{| due := now b + 100;
                                         act := AModalIn m |}];
                now := now b;
                calls := calls b ++ [CallSetTimeout (AModalIn m) 100];
                hasIntersectionObserver := hasIntersectionObserver b |}).
  assert (T1 : tick b1
               = {| page := set_opacity (fun mm => <[m := "1"]> mm) d;
                    timers := []; now := Z.max (now b) (now b + 100);
                    calls := calls b1;
                    hasIntersectionObserver := hasIntersectionObserver b |}).
  { rewrite (tick_one _ b1 eq_refl). reflexivity. }
  rewrite T1.
  set (b2 := closeProjectModal m _).
  assert (T2 : tick b2
               = modal_remove m
                   {| page := page b2; timers := [];
                      now := Z.max (now b2) (Z.max (now b) (now b + 100) + 300);
                      calls := calls b2;
                      hasIntersectionObserver := hasIntersectionObserver b2 |}).
  { rewrite (tick_one _ b2 eq_refl). reflexivity. }
  rewrite T2.
  assert (A2 : attached (page b2) = attached (page b) ++ [m])
    by (subst b2; exact A).
  assert (In2 : m ∈ attached (page b2)).
  { rewrite A2. apply elem_of_app. right. apply list_elem_of_here. }
  unfold modal_remove. cbn [page].
  destruct (decide (m ∈ attached (page b2))); [|contradiction].
  cbn [set_page page now timers set_body_overflow body_overflow attached
       remove set_attached].
  rewrite A2, filter_ne_last by exact Hna.
  repeat apply conj; try reflexivity; try assumption.
  - cbn [now]. lia.
  - cbn [page set_opacity opacity]. apply lookup_insert_eq.
  - subst b2. cbn [closeProjectModal setTimeout page set_page set_opacity
                   opacity]. apply lookup_insert_eq.
  - rewrite <- A2. exact In2.
  - subst b2. cbn [closeProjectModal setTimeout now set_page]. lia.
Qed.

Lemma modal_round_trip_witness :
  timers Demo.demo_valid = []
  /\ exists m b1,
       showProjectModal
         {| title := "Shop"; description := "A shop"; tech := ["JS"];
            image := "shop.png";
            details := DRecord (defaultDetail "A shop") |} Demo.demo_valid
       = Ok b1
       /\ attached (page b1) = attached (page Demo.demo_valid) ++ [m]
       /\ attached (page (ticks 1 (closeProjectModal m (ticks 1 b1))))
          = attached (page Demo.demo_valid)
       /\ body_overflow (page (ticks 1 (closeProjectModal m (ticks 1 b1)))) = ""
       /\ (exists html, modal (page b1) !! m = Some html
                        /\ occurs "<h3>Shop</h3>" html).
Proof.
  split; [reflexivity|].
  destruct (modal_round_trip
              {| title := "Shop"; description := "A shop"; tech := ["JS"];
                 image := "shop.png";
                 details := DRecord (defaultDetail "A shop") |}
              (defaultDetail "A shop") Demo.demo_valid eq_refl eq_refl)
    as (m & b1 & E & _ & A & _ & _ & M & K1 & _ & _ & _ & _ & _ & _ & _ & _
        & A3 & O3 & _).
  exists m, b1. split; [exact E|]. split; [exact A|]. split; [exact A3|].
  split; [exact O3|]. eexists. split; [exact M | exact K1].
Defined.

Lemma showNotification_rest msg ty b :
  modal (page (showNotification msg ty b)) = modal (page b)
  /\ body_overflow (page (showNotification msg ty b))
     = body_overflow (page b).
Proof.
  unfold showNotification, createElement.
  destruct (querySelector "notification" (page b)); split; reflexivity.
Qed.

Lemma fold_remove_rest (l : list elem) (b : browser) :
  attached (page (fold_left
                    (fun b input => set_page (classList_remove input ["success"]) b)
                    l b)) = attached (page b)
  /\ modal (page (fold_left
                    (fun b input => set_page (classList_remove input ["success"]) b)
                    l b)) = modal (page b)
  /\ body_overflow (page (fold_left
                    (fun b input => set_page (classList_remove input ["success"]) b)
                    l b)) = body_overflow (page b).
Proof.
  revert b. induction l as [|x l IH]; intros b; cbn [fold_left];
    [repeat split|].
  destruct (IH (set_page (classList_remove x ["success"]) b)) as (A & M & O).
  rewrite A, M, O. repeat split.
Qed.

(** No callback brings back an element that is out of the page, forgets
    a modal, or stops the page from scrolling. *)
Lemma fire_leaves_out (m : elem) (a : action) (b : browser) :
  m ∈ dom (modal (page b)) ->
  m ∈ dom (modal (page (fire a b)))
  /\ ((m ∉ attached (page b)) -> m ∉ attached (page (fire a b)))
  /\ (body_overflow (page b) = "" -> body_overflow (page (fire a b)) = "").
Proof.
  intros Hm. destruct a; cbn [fire].
  - unfold ScrollAnimator.reveal. destruct (existsb _ _); repeat split; auto.
  - repeat split; auto.
  - repeat split; auto.
  - unfold submit_done. cbn [set_page page set_disabled set_text modal attached
                             body_overflow].
    set (b1 := showNotification _ _ b).
    destruct (fold_remove_rest form_inputs
                (set_page (form_reset form_controls) b1))
      as (A & M & O).
    rewrite A, M, O. cbn [set_page page form_reset set_inputs modal attached
                          body_overflow].
    destruct (showNotification_rest
                "Message sent successfully! I'll get back to you soon."
                "success" b) as (M1 & O1).
    destruct (showNotification_page
                "Message sent successfully! I'll get back to you soon."
                "success" b) as (n & d1 & D & Hn & A1 & _).
    fold b1 in M1, O1, A1. rewrite M1, O1, A1.
    split; [exact Hm|]. split; [|auto].
    intros Hout Hin. apply elem_of_app in Hin. destruct Hin as [Hin|Hin].
    + apply Hout. rewrite D in Hin.
      destruct (querySelector _ _); [|exact Hin].
      cbn [remove set_attached attached] in Hin.
      apply list_elem_of_filter in Hin. tauto.
    + apply list_elem_of_singleton in Hin. subst n. apply Hn.
      assert (I : modal d1 = modal (page b)).
      { rewrite D. destruct (querySelector _ _); reflexivity. }
      unfold known. rewrite I, !elem_of_union. tauto.
  - repeat split; auto.
  - repeat split; auto.
  - unfold notif_remove. destruct (decide _); repeat split; auto.
    cbn [set_page page remove set_attached attached].
    intros Hout Hin. apply list_elem_of_filter in Hin. tauto.
  - repeat split; auto.
  - unfold modal_remove. cbn [set_page page set_body_overflow body_overflow
                               attached modal].
    destruct (decide _); repeat split; auto.
    cbn [set_page page remove set_attached attached].
    intros Hout Hin. apply list_elem_of_filter in Hin. tauto.
  - repeat split; auto.
  - repeat split; auto.
  - repeat split; auto.
Qed.

Lemma fire_modal_remove (m : elem) (b : browser) :
  (m ∉ attached (page (fire (AModalRemove m) b)))
  /\ body_overflow (page (fire (AModalRemove m) b)) = "".
Proof.
  cbn [fire]. unfold modal_remove.
  cbn [set_page page set_body_overflow body_overflow attached].
  destruct (decide (m ∈ attached (page b))) as [Hin|Hout];
    (split; [|reflexivity]); [|exact Hout].
  cbn [set_page page remove set_attached attached].
  intros H. apply list_elem_of_filter in H. destruct H as [H _]. now apply H.
Qed.

Lemma pending_removal_runs (m : elem) (n : nat) :
  forall b,
    pending_work b <= n ->
    m ∈ dom (modal (page b)) ->
    (exists t, In t (timers b) /\ act t = AModalRemove m)
    \/ ((m ∉ attached (page b)) /\ body_overflow (page b) = "") ->
    (m ∉ attached (page (ticks n b)))
    /\ body_overflow (page (ticks n b)) = "".
Proof.
  induction n as [|n IH]; intros b Hn Hm H; cbn [ticks].
  - destruct H as [(t & Hin & _)|H]; [|exact H].
    assert (timers b = []) as E
      by (apply work_nil; unfold pending_work in Hn; lia).
    rewrite E in Hin. contradiction.
  - destruct (pop_earliest (timers b)) as [[t1 rest]|] eqn:E.
    + assert (Hne : timers b <> []).
      { intros E0. rewrite E0 in E. discriminate. }
      pose proof (tick_work b Hne) as Hw.
      assert (Et : tick b
                   = fire (act t1)
                       {| page := page b; timers := rest;
                          now := Z.max (now b) (due t1); calls := calls b;
                          hasIntersectionObserver := hasIntersectionObserver b |}).
      { unfold tick, take_timer. rewrite E. reflexivity. }
      destruct (fire_leaves_out m (act t1)
                  {| page := page b; timers := rest;
                     now := Z.max (now b) (due t1); calls := calls b;
                     hasIntersectionObserver := hasIntersectionObserver b |} Hm)
        as (Hm' & Ha' & Ho').
      apply IH; [lia | rewrite Et; exact Hm' |].
      destruct H as [(t & Hin & Ha)|[H1 H2]].
      * destruct (pop_earliest_Some _ _ _ E) as (_ & M & _).
        apply M in Hin as [->|Hin].
        -- right. rewrite Et, Ha. apply fire_modal_remove.
        -- left. exists t. split; [|exact Ha]. rewrite Et.
           destruct (timers_fire (act t1)
                       {| page := page b; timers := rest;
                          now := Z.max (now b) (due t1); calls := calls b;
                          hasIntersectionObserver := hasIntersectionObserver b |})
             as (sp & T & _).
           rewrite T. apply in_or_app. left. exact Hin.
      * right. rewrite Et. split; [apply Ha', H1 | apply Ho', H2].
    + apply pop_earliest_None in E.
      rewrite tick_idle by exact E. apply IH.
      * unfold pending_work. rewrite E. cbn. lia.
      * exact Hm.
      * destruct H as [(t & Hin & _)|H]; [|now right].
        rewrite E in Hin. contradiction.
Qed.

(** X10: a modal that is closed goes away, whatever else is pending.
    Once the timers pending after [closeProjectModal] have fired, the
    modal is out of the page, the page scrolls again and the queue is
    empty; a second close of the same modal, or the banner of a form
    submission arriving in between, does not change that. *)
Theorem closed_modal_is_removed (m : elem) (b : browser) (n : nat) :
  m ∈ dom (modal (page b)) ->
  (m ∉ attached
         (page (ticks (pending_work (closeProjectModal m b) + n)
                      (closeProjectModal m b))))
  /\ body_overflow
       (page (ticks (pending_work (closeProjectModal m b) + n)
                    (closeProjectModal m b))) = ""
  /\ timers (ticks (pending_work (closeProjectModal m b) + n)
                   (closeProjectModal m b)) = [].
Proof.
  intros Hm.
  destruct (pending_removal_runs m (pending_work (closeProjectModal m b) + n)
              (closeProjectModal m b)) as [H1 H2].
  - lia.
  - exact Hm.
  - left. eexists {| due := _; act := AModalRemove m |}.
    split; [|reflexivity].
    unfold closeProjectModal. cbn [setTimeout timers set_page].
    apply in_or_app. right. left. reflexivity.
  - split; [exact H1|]. split; [exact H2|].
    apply queue_empties. lia.
Qed.

Lemma closed_modal_is_removed_witness :
  9 ∈ dom (modal (page (or_unchanged
                          (showProjectModal
                             {| title := "Shop"; description := "A shop";
                                tech := ["JS"]; image := "shop.png";
                                details := DRecord (defaultDetail "A shop") |}
                             Demo.demo_valid)
                          Demo.demo_valid)))
  /\ (9 ∉ attached
           (page (ticks
                    (pending_work
                       (closeProjectModal 9
                          (or_unchanged
                             (showProjectModal
                                {| title := "Shop"; description := "A shop";
                                   tech := ["JS"]; image := "shop.png";
                                   details := DRecord (defaultDetail "A shop") |}
                                Demo.demo_valid)
                             Demo.demo_valid)) + 0)
                    (closeProjectModal 9
                       (or_unchanged
                          (showProjectModal
                             {| title := "Shop"; description := "A shop";
                                tech := ["JS"]; image := "shop.png";
                                details := DRecord (defaultDetail "A shop") |}
                             Demo.demo_valid)
                          Demo.demo_valid))))).
Proof.
  assert (H : 9 ∈ dom (modal (page (or_unchanged
                          (showProjectModal
                             {| title := "Shop"; description := "A shop";
                                tech := ["JS"]; image := "shop.png";
                                details := DRecord (defaultDetail "A shop") |}
                             Demo.demo_valid)
                          Demo.demo_valid)))).
  { apply elem_of_dom. eexists. vm_compute. reflexivity. }
  split; [exact H|].
  exact (proj1 (closed_modal_is_removed 9 _ 0 H)).
Defined.

Lemma portfolio_step (o : op) (w : world) :
  (forall mk, o <> NewPortfolioApp mk) ->
  portfolio (step o w) = portfolio w.
Proof.
  intros N.
  destruct o; cbn [step]; try (exfalso; eapply N; reflexivity);
    repeat match goal with
           | |- context [portfolio (match ?x with _ => _ end)] =>
               destruct x eqn:?
           end;
    cbn [portfolio with_env]; try reflexivity; assumption.
Qed.

Lemma links_unbound_step (o : op) (w : world) :
  links_unbound w -> links_unbound (step o w).
Proof.
  intros H. unfold links_unbound in *.
  destruct o;
    try (rewrite portfolio_step; [exact H | intros mk0; discriminate]).
  cbn [step]. destruct (portfolio w) as [app|] eqn:E; [rewrite E; exact H|].
  cbn [portfolio]. apply construct_stops.
Qed.

Lemma links_unbound_run (ops : list op) (w : world) :
  links_unbound w -> links_unbound (run ops w).
Proof.
  revert w. induction ops as [|o ops IH]; intros w H; [exact H|].
  unfold run. cbn [fold_left]. apply IH, links_unbound_step, H.
Qed.

(** X11: what the click listener [initializeProjectModals] defines for a
    placeholder project link does when it runs, and that in the program
    it never runs.  Run for a card whose title is none of the names every
    object inherits, the listener opens one modal: the string assigned to
    its [innerHTML] is the template filled with the title, the image and
    the technology tags of the card, and with the overview, features,
    challenges and links of the record stored under the title, or, when
    there is none, of the default block, whose overview is the
    description of the card.  No window is opened.  In the program,
    whatever has happened since the page was opened, a click on a project
    link changes nothing: [init] has raised before
    [initializeProjectModals] could bind the listener. *)
Theorem project_link_shows_card_data (href : option string) (c : card)
  (t desc img : string) (b : browser) :
  href = Some "#" \/ href = Some "" ->
  project_title c = Some t ->
  project_description c = Some desc ->
  img_src c = Some img ->
  t ∉ object_prototype ->
  exists m b1,
    project_link_click href (Some c) b = Ok b1
    /\ (m ∉ attached (page b))
    /\ attached (page b1) = attached (page b) ++ [m]
    /\ body_overflow (page b1) = "hidden"
    /\ calls b1 = calls b ++ [CallSetTimeout (AModalIn m) 100]
    /\ modal (page b1) !! m
       = Some (let dt := default (defaultDetail desc) (projectDetails !! t) in
               modal_html {| title := t; description := desc;
                             tech := tech_tags c; image := img;
                             details := DRecord dt |} dt)
    /\ (exists html,
          modal (page b1) !! m = Some html
          /\ occurs ("<h3>" +:+ t +:+ "</h3>") html
          /\ (forall tag, tag ∈ tech_tags c ->
                occurs (quoted "<span class=`tech-tag`>" +:+ tag +:+ "</span>")
                       html)
          /\ (projectDetails !! t = None ->
              occurs ("<p>" +:+ desc +:+ "</p>") html))
    /\ (forall d hasIO ops,
          step (ProjectLinkClick href (Some c)) (run ops (initial d hasIO))
          = run ops (initial d hasIO)).
Proof.
  intros Hh Ht Hd Hi Hp.
  set (dt := default (defaultDetail desc) (projectDetails !! t)).
  set (pd := {| title := t; description := desc; tech := tech_tags c;
                image := img; details := DRecord dt |}).
  assert (G : getProjectData c = Ok pd).
  { rewrite (getProjectData_details c t desc img Ht Hd Hi). subst pd dt.
    unfold get_property.
    destruct (projectDetails !! t) as [x|]; [reflexivity|].
    destruct (decide _); [contradiction | reflexivity]. }
  destruct (showProjectModal_page pd dt b eq_refl)
    as (m & d & E & Hm & A & O & _ & M & _).
  exists m. eexists. split.
  { unfold project_link_click.
    assert (Hc : bool_decide (href = Some "#") || bool_decide (href = Some "")
                 = true).
    { destruct Hh as [->| ->]; reflexivity. }
    rewrite Hc. cbn [from_option_or_throw bind]. rewrite G. cbn [bind].
    exact E. }
  cbn [page calls]. rewrite M, lookup_insert_eq.
  split.
  { intros H. apply Hm. unfold known.
    rewrite !elem_of_union, elem_of_list_to_set. tauto. }
  split; [exact A|]. split; [exact O|]. split; [reflexivity|].
  split; [reflexivity|].
  split.
  { eexists. split; [reflexivity|].
    destruct (modal_html_holes pd dt) as (K1 & K2 & _ & K4).
    split; [exact K1|]. split; [exact K4|].
    intros Hk. revert K2. subst dt. rewrite Hk. intros K2. exact K2. }
  intros d0 hasIO ops.
  pose proof (links_unbound_run ops (initial d0 hasIO) I) as U.
  unfold links_unbound in U. cbn [step].
  destruct (portfolio (run ops (initial d0 hasIO))) as [app|]; [|reflexivity].
  now rewrite U.
Qed.

Lemma project_link_shows_card_data_witness :
  exists m b1,
    project_link_click (Some "#")
      (Some {| project_title := Some "Finance Company Logo";
               project_description := Some "A logo";
               tech_tags := ["Figma"]; img_src := Some "logo.png" |})
      Demo.demo_valid = Ok b1
    /\ attached (page b1) = attached (page Demo.demo_valid) ++ [m]
    /\ (exists html,
          modal (page b1) !! m = Some html
          /\ occurs "<h3>Finance Company Logo</h3>" html
          /\ occurs
               "<p>Professional logo design focusing on trust and stability.</p>"
               html)
    /\ step (ProjectLinkClick (Some "#")
               (Some {| project_title := Some "Finance Company Logo";
                        project_description := Some "A logo";
                        tech_tags := ["Figma"]; img_src := Some "logo.png" |}))
            (run [NewPortfolioApp Demo.demo_markup]
                 (initial Demo.demo_page true))
       = run [NewPortfolioApp Demo.demo_markup] (initial Demo.demo_page true).
Proof.
  destruct (project_link_shows_card_data (Some "#")
              {| project_title := Some "Finance Company Logo";
                 project_description := Some "A logo";
                 tech_tags := ["Figma"]; img_src := Some "logo.png" |}
              "Finance Company Logo" "A logo" "logo.png" Demo.demo_valid)
    as (m & b1 & E & _ & A & _ & _ & M & _ & P).
  - left. reflexivity.
  - reflexivity.
  - reflexivity.
  - reflexivity.
  - intros H. apply list_elem_of_In in H. vm_compute in H.
    repeat (destruct H as [H|H]; [discriminate H|]). exact H.
  - exists m, b1. split; [exact E|]. split; [exact A|].
    split; [|exact (P Demo.demo_page true [NewPortfolioApp Demo.demo_markup])].
    eexists. split; [exact M|]. cbv zeta.
    destruct (modal_html_holes
                {| title := "Finance Company Logo"; description := "A logo";
                   tech := ["Figma"]; image := "logo.png";
                   details := DRecord
                     (default (defaultDetail "A logo")
                        (projectDetails !! "Finance Company Logo")) |}
                (default (defaultDetail "A logo")
                   (projectDetails !! "Finance Company Logo")))
      as (K1 & K2 & _).
    split; [exact K1 | exact K2].
Defined.

End ModalRoundTrip.

(** ** The mobile menu *)

Section MobileMenu.
Import Dom Menu.

Lemma toggle_flips (t : string) (l : list string) :
  t ∈ token_toggle t l <-> t ∉ l.
Proof.
  unfold token_toggle. destruct (decide (t ∈ l)) as [Hin|Hout].
  - rewrite elem_of_tokens_remove, list_elem_of_singleton. tauto.
  - rewrite elem_of_app, list_elem_of_singleton. tauto.
Qed.

Lemma contains_toggle (e e' : elem) (t : string) (d : document) :
  contains (classList_toggle e t d) e' t
  = if decide (e = e') then negb (contains d e t) else contains d e' t.
Proof.
  unfold contains. rewrite classList_classList_toggle.
  destruct (decide (e = e')); [|reflexivity].
  rewrite <- bool_decide_not. apply bool_decide_ext, toggle_flips.
Qed.

Lemma contains_remove (e e' : elem) (t : string) (d : document) :
  contains (classList_remove e [t] d) e' t
  = if decide (e = e') then false else contains d e' t.
Proof.
  unfold contains. rewrite classList_classList_remove.
  destruct (decide (e = e')); [|reflexivity].
  apply bool_decide_eq_false. rewrite elem_of_tokens_remove.
  intros [_ H]. apply H. apply list_elem_of_here.
Qed.

Lemma handle_consistent (navToggle navMenu : elem) (ev : menu_event)
  (d : document) :
  navToggle <> navMenu ->
  consistent navToggle navMenu d ->
  consistent navToggle navMenu (handle navToggle navMenu ev d)
  /\ contains (handle navToggle navMenu ev d) navMenu "active"
     = switch (contains d navMenu "active") ev.
Proof.
  intros Hne [Ha Ho]. unfold consistent.
  assert (Hne' : navMenu <> navToggle) by congruence.
  destruct ev as [| |t m]; cbn [handle switch].
  - unfold toggle_click.
    change (contains (set_body_overflow ?f ?x) ?e ?t) with (contains x e t).
    cbn [set_body_overflow body_overflow].
    rewrite !contains_toggle.
    destruct (decide (navToggle = navToggle)); [|contradiction].
    destruct (decide (navMenu = navMenu)); [|contradiction].
    destruct (decide (navToggle = navMenu)); [contradiction|].
    destruct (decide (navMenu = navToggle)); [contradiction|].
    rewrite Ha. repeat split.
  - unfold link_click.
    change (contains (set_body_overflow ?f ?x) ?e ?t) with (contains x e t).
    cbn [set_body_overflow body_overflow].
    rewrite !contains_remove.
    destruct (decide (navToggle = navToggle)); [|contradiction].
    destruct (decide (navToggle = navMenu)); [contradiction|].
    destruct (decide (navMenu = navMenu)); [|contradiction].
    repeat split.
  - unfold document_click. destruct (negb t && negb m).
    + change (contains (set_body_overflow ?f ?x) ?e ?t) with (contains x e t).
      cbn [set_body_overflow body_overflow].
      rewrite !contains_remove.
      destruct (decide (navToggle = navToggle)); [|contradiction].
      destruct (decide (navToggle = navMenu)); [contradiction|].
      destruct (decide (navMenu = navMenu)); [|contradiction].
      repeat split.
    + repeat split; assumption.
Qed.

(** X12: the mobile menu is a switch.  From a page on which the toggle
    button and the menu agree and the page is scroll-locked exactly while
    the menu is open, any sequence of clicks on the toggle, on navigation
    links and elsewhere in the document leaves it so; the toggle flips the
    menu, a link or a click outside both closes it, and a click inside
    either leaves it as it is. *)
Theorem mobile_menu_is_a_switch (navToggle navMenu : elem)
  (evs : list menu_event) (d : document) :
  navToggle <> navMenu ->
  consistent navToggle navMenu d ->
  consistent navToggle navMenu (handle_all navToggle navMenu evs d)
  /\ contains (handle_all navToggle navMenu evs d) navMenu "active"
     = fold_left switch evs (contains d navMenu "active").
Proof.
  intros Hne. revert d. unfold handle_all.
  induction evs as [|ev evs IH]; intros d Hc; cbn [fold_left].
  - split; [exact Hc | reflexivity].
  - destruct (handle_consistent navToggle navMenu ev d Hne Hc) as [Hc' E].
    destruct (IH _ Hc') as [Hc'' E'].
    split; [exact Hc''|]. rewrite E', E. reflexivity.
Qed.

Lemma mobile_menu_is_a_switch_witness :
  consistent 10 11 Demo.demo_page
  /\ consistent 10 11
       (handle_all 10 11 [ToggleClick; DocumentClick true false; LinkClick]
          Demo.demo_page)
  /\ contains (handle_all 10 11
                 [ToggleClick; DocumentClick true false; LinkClick]
                 Demo.demo_page) 11 "active"
     = false.
Proof.
  assert (H : consistent 10 11 Demo.demo_page)
    by (split; vm_compute; reflexivity).
  split; [exact H|].
  destruct (mobile_menu_is_a_switch 10 11
              [ToggleClick; DocumentClick true false; LinkClick]
              Demo.demo_page) as [C E].
  - discriminate.
  - exact H.
  - split; [exact C|]. rewrite E. reflexivity.
Defined.

End MobileMenu.

(** ** A sweep misses nothing *)

Section SweepComplete.
Import Dom Browser Program Notions Watch.
Import ScrollAnimator.

Lemma forEach_observeElement_complete l :
  forall a b,
    watching a ->
    exists a' b',
      forEach observeElement l (a, b) = Ok (a', b')
      /\ watching a'
      /\ (forall el, el ∈ l -> el ∈ animatedElements a')
      /\ (forall el, el ∈ animatedElements a -> el ∈ animatedElements a').
Proof.
  induction l as [|x l IH]; intros a b W; cbn [forEach].
  - exists a, b. split; [reflexivity|]. split; [exact W|].
    split; [|auto]. intros el H. apply elem_of_nil in H. contradiction.
  - unfold observeElement at 1. cbn [fst snd].
    destruct (decide (x ∈ animatedElements a)) as [Hin|Hout]; cbn [bind].
    + destruct (IH a b W) as (a' & b' & E & W' & L & M).
      exists a', b'. split; [exact E|]. split; [exact W'|].
      split; [|exact M]. intros el Hel. apply elem_of_cons in Hel.
      destruct Hel as [->|Hel]; [apply M, Hin | apply L, Hel].
    + destruct W as (Sb & o & Ho & Sub). unfold observe. rewrite Ho.
      cbn [bind fst snd].
      match goal with
      | |- context [forEach observeElement l (?a1, ?b1)] =>
          destruct (IH a1 b1) as (a' & b' & E & W' & L & M)
      end.
      { split; [exact Sb|]. eexists. split; [reflexivity|].
        cbn [remember animatedElements targets]. intros el Hel.
        apply elem_of_union in Hel. destruct Hel as [Hel|Hel].
        - apply elem_of_singleton in Hel. subst el.
          destruct (decide (x ∈ targets o)); [assumption|].
          apply elem_of_app. right. apply list_elem_of_here.
        - destruct (decide (x ∈ targets o)); [now apply Sub|].
          apply elem_of_app. left. now apply Sub. }
      exists a', b'. split; [exact E|]. split; [exact W'|].
      split.
      * intros el Hel. apply elem_of_cons in Hel.
        destruct Hel as [->|Hel]; [|apply L, Hel].
        apply M. cbn [remember animatedElements]. apply elem_of_union. left.
        now apply elem_of_singleton.
      * intros el Hel. apply M. cbn [remember animatedElements].
        apply elem_of_union. now right.
Qed.

Lemma ready_sweep w :
  ready w ->
  ready (step Sweep w)
  /\ page (env (step Sweep w)) = page (env w)
  /\ forall el, el ∈ querySelectorAll intents (page (env w)) ->
                observed (step Sweep w) el = true.
Proof.
  intros (a & Ea & W). cbn [step]. rewrite Ea.
  destruct W as (Sb & W0). rewrite Sb. unfold observeElements.
  destruct (forEach_observeElement_complete
              (querySelectorAll intents (page (env w))) a (env w))
    as (a' & b' & E & W' & L & _); [split; assumption|].
  rewrite E.
  destruct (forEach_observeElement_spec _ _ _ _ _ E) as (_ & _ & _ & _ & P & _).
  split; [exists a'; split; [reflexivity | exact W']|].
  split; [exact P|].
  intros el Hel. unfold observed. cbn [animator].
  destruct W' as (_ & o' & Ho' & Sub'). rewrite Ho'.
  apply bool_decide_eq_true. apply Sub', L, Hel.
Qed.

Lemma ready_step o w : ready w -> ready (step o w).
Proof.
  intros R. destruct o; try (destruct R as (a & Ea & W);
    match goal with
    | |- ready (step ?o w) =>
        pose proof (animator_step o w) as K; cbn beta iota in K;
        exists a; split; [rewrite K; exact Ea | exact W]
    end).
  - destruct R as (a & Ea & W). cbn [step]. rewrite Ea.
    exists a. split; [exact Ea | exact W].
  - apply ready_sweep, R.
Qed.

Lemma ready_run ops : forall w, ready w -> ready (run ops w).
Proof.
  induction ops as [|o ops IH]; intros w R; [exact R|].
  unfold run. cbn [fold_left]. apply IH, ready_step, R.
Qed.

Lemma ready_new d :
  ready (step NewScrollAnimator (initial d true)).
Proof.
  eexists. split; [reflexivity|]. split; [reflexivity|].
  eexists. split; [reflexivity|]. cbn [animatedElements animateOnLoad bindEvents].
  intros el H. apply elem_of_empty in H. contradiction.
Qed.

(** X13: a sweep misses nothing.  Once the animator has been built in a
    browser that has [IntersectionObserver], then after whatever happens
    on the page, every element that is in the page with one of the six
    animation classes when a sweep runs is watched by the observer after
    it; elements that were added or given their class since the last
    sweep included. *)
Theorem sweep_registers_every_match (d : document) (ops : list op)
  (el : elem) :
  el ∈ querySelectorAll intents
         (page (env (run ops (step NewScrollAnimator (initial d true))))) ->
  observed (step Sweep (run ops (step NewScrollAnimator (initial d true)))) el
  = true.
Proof.
  intros Hel.
  destruct (ready_sweep (run ops (step NewScrollAnimator (initial d true))))
    as (_ & _ & H).
  - apply ready_run, ready_new.
  - apply H, Hel.
Qed.

Lemma sweep_registers_every_match_witness :
  observed
    (step Sweep
       (run [Sweep; Other (WCreate ["animate-fade-in"])]
            (step NewScrollAnimator (initial Demo.demo_page true))))
    9 = true.
Proof.
  apply (sweep_registers_every_match Demo.demo_page
           [Sweep; Other (WCreate ["animate-fade-in"])] 9).
  apply list_elem_of_In. vm_compute. right. right. left. reflexivity.
Defined.

End SweepComplete.

(** ** Smooth scrolling *)

Section SmoothScrolling.
Import Dom Browser Menu SmoothScroll.




(** X15: smooth scrolling closes the menu and leaves the scroll lock.
    With the menu open on a page where toggle, menu and lock agree, a
    click on a link with a target makes animation.js take [active] off
    the menu and the toggle, but it does not touch the [overflow] of the
    body: the page stays locked with the menu closed.  The link listener
    of the menu itself, when it runs for the same click, releases the
    lock. *)
Theorem smooth_scroll_keeps_scroll_lock (g : geometry) (targetId : string)
  (targetElement navToggle navMenu : elem) (d : document) :
  targetId <> "" -> targetId <> "#" ->
  querySelector "nav-menu" d = Some navMenu ->
  querySelector "nav-toggle" d = Some navToggle ->
  navToggle <> navMenu ->
  consistent navToggle navMenu d ->
  contains d navMenu "active" = true ->
  contains (page_after (smoothScroll g (Some targetId) (Some targetElement) d))
           navMenu "active" = false
  /\ contains (page_after (smoothScroll g (Some targetId) (Some targetElement) d))
              navToggle "active" = false
  /\ body_overflow
       (page_after (smoothScroll g (Some targetId) (Some targetElement) d))
     = "hidden"
  /\ ~ consistent navToggle navMenu
         (page_after (smoothScroll g (Some targetId) (Some targetElement) d))
  /\ consistent navToggle navMenu
       (link_click navToggle navMenu
          (page_after (smoothScroll g (Some targetId) (Some targetElement) d))).
Proof.
  intros H1 H2 Hm Ht Hne [Ca Co] Hopen.
  assert (Hne' : navMenu <> navToggle) by congruence.
  unfold smoothScroll, page_after.
  apply String.eqb_neq in H1, H2. rewrite H1, H2. cbn [orb].
  rewrite Hm, Hopen, Ht. cbn [fst snd].
  set (d' := classList_remove navToggle ["active"]
               (classList_remove navMenu ["active"] d)).
  assert (Em : contains d' navMenu "active" = false).
  { subst d'. rewrite !contains_remove.
    destruct (decide (navToggle = navMenu)); [reflexivity|].
    destruct (decide (navMenu = navMenu)); [reflexivity | contradiction]. }
  assert (Et : contains d' navToggle "active" = false).
  { subst d'. rewrite !contains_remove.
    destruct (decide (navToggle = navToggle)); [reflexivity | contradiction]. }
  assert (Eo : body_overflow d' = "hidden").
  { subst d'. cbn [classList_remove set_classes body_overflow].
    rewrite Co, Hopen. reflexivity. }
  split; [exact Em|]. split; [exact Et|]. split; [exact Eo|]. split.
  - intros [_ C]. rewrite Em, Eo in C. discriminate C.
  - unfold consistent, link_click.
    change (contains (set_body_overflow ?f ?x) ?e ?t) with (contains x e t).
    cbn [set_body_overflow body_overflow]. rewrite !contains_remove.
    destruct (decide (navToggle = navToggle)); [|contradiction].
    destruct (decide (navToggle = navMenu)); [contradiction|].
    destruct (decide (navMenu = navMenu)); [|contradiction].
    split; reflexivity.
Qed.

Lemma smooth_scroll_keeps_scroll_lock_witness :
  consistent 10 11 DemoNav.nav_page
  /\ body_overflow
       (page_after (smoothScroll DemoNav.nav_geometry (Some "#about") (Some 21)
                      DemoNav.nav_page)) = "hidden"
  /\ contains
       (page_after (smoothScroll DemoNav.nav_geometry (Some "#about") (Some 21)
                      DemoNav.nav_page)) 11 "active" = false.
Proof.
  assert (H : consistent 10 11 DemoNav.nav_page)
    by (split; vm_compute; reflexivity).
  split; [exact H|].
  destruct (smooth_scroll_keeps_scroll_lock DemoNav.nav_geometry "#about" 21
              10 11 DemoNav.nav_page) as (M & _ & O & _).
  - discriminate.
  - discriminate.
  - vm_compute. reflexivity.
  - vm_compute. reflexivity.
  - discriminate.
  - exact H.
  - vm_compute. reflexivity.
  - split; [exact O | exact M].
Defined.

End SmoothScrolling.

(** ** The active navigation link *)

Section ActiveLink.
Import Dom Double SmoothScroll NavHighlight.

Lemma mark_link_spec at_ cur d x e u :
  u ∈ classList (mark_link at_ cur d x) e
  <-> if decide (e = x)
      then (u <> "active" /\ u ∈ classList d x)
           \/ (u = "active" /\ href at_ x = Some (hash cur))
      else u ∈ classList d e.
Proof.
  unfold mark_link.
  destruct (bool_decide (href at_ x = Some (hash cur))) eqn:B.
  - apply bool_decide_eq_true in B.
    rewrite classList_classList_add. destruct (decide (x = e)) as [->|Hne].
    + destruct (decide (e = e)); [|contradiction].
      rewrite elem_of_tokens_add, classList_classList_remove.
      destruct (decide (e = e)); [|contradiction].
      rewrite elem_of_tokens_remove, !list_elem_of_singleton.
      destruct (decide (u = "active")); tauto.
    + destruct (decide (e = x)); [congruence|].
      rewrite classList_classList_remove.
      destruct (decide (x = e)); [congruence | reflexivity].
  - apply bool_decide_eq_false in B.
    rewrite classList_classList_remove. destruct (decide (x = e)) as [->|Hne].
    + destruct (decide (e = e)); [|contradiction].
      rewrite elem_of_tokens_remove, list_elem_of_singleton. tauto.
    + destruct (decide (e = x)); [congruence | reflexivity].
Qed.

Lemma mark_links_spec at_ cur l :
  forall d e u,
    u ∈ classList (fold_left (mark_link at_ cur) l d) e
    <-> if decide (e ∈ l)
        then (u <> "active" /\ u ∈ classList d e)
             \/ (u = "active" /\ href at_ e = Some (hash cur))
        else u ∈ classList d e.
Proof.
  induction l as [|x l IH]; intros d e u; cbn [fold_left].
  - destruct (decide (e ∈ [])) as [H|_]; [|reflexivity].
    apply elem_of_nil in H. contradiction.
  - rewrite IH.
    pose proof (mark_link_spec at_ cur d x e u) as K.
    destruct (decide (e ∈ l)) as [Hin|Hout].
    + destruct (decide (e ∈ x :: l)) as [_|N];
        [|exfalso; apply N; now apply list_elem_of_further].
      rewrite K. destruct (decide (e = x)) as [->|Hne]; tauto.
    + rewrite K. destruct (decide (e = x)) as [->|Hne].
      * destruct (decide (x ∈ x :: l)) as [_|N];
          [reflexivity | exfalso; apply N, list_elem_of_here].
      * destruct (decide (e ∈ x :: l)) as [H|_]; [|reflexivity].
        apply elem_of_cons in H. tauto.
Qed.

Lemma currentSection_last g at_ scrollY l1 s l2 :
  sections at_ = l1 ++ s :: l2 ->
  in_view g (scrollPosition scrollY) s = true ->
  (forall s', s' ∈ l2 -> in_view g (scrollPosition scrollY) s' = false) ->
  currentSection g at_ scrollY = id at_ s.
Proof.
  intros E Hs Hl. unfold currentSection. rewrite E, fold_left_app.
  cbn [fold_left]. rewrite Hs.
  generalize (id at_ s). clear E Hs.
  induction l2 as [|x l2 IH]; intros c; [reflexivity|].
  cbn [fold_left]. rewrite (Hl x) by apply list_elem_of_here.
  apply IH. intros s' H'. apply Hl. now apply list_elem_of_further.
Qed.

Lemma currentSection_none g at_ scrollY :
  (forall s, s ∈ sections at_ ->
             in_view g (scrollPosition scrollY) s = false) ->
  currentSection g at_ scrollY = Some "".
Proof.
  unfold currentSection. generalize (Some "").
  induction (sections at_) as [|x l IH]; intros c Hl; [reflexivity|].
  cbn [fold_left]. rewrite (Hl x) by apply list_elem_of_here.
  apply IH. intros s' H'. apply Hl. now apply list_elem_of_further.
Qed.

Lemma scrollPosition_whole (y : Z) :
  (Z.abs y < 2 ^ 52)%Z ->
  (scrollPosition (inject_Z y) == inject_Z (y + 100))%Q.
Proof.
  intros H. unfold scrollPosition, Double.add.
  rewrite <- (round64_whole (y + 100)) by lia.
  apply round64_compat. rewrite (round64_whole y) by lia.
  rewrite inject_Z_plus. reflexivity.
Qed.

(** X16: which navigation link is highlighted after a scroll.  A
    [.nav-link] carries [active] exactly if its [href] is [#] followed by
    the [id] of the last section that has the scroll position in it, the
    line 100 pixels below the top of the viewport, with the sum taken in
    doubles; when no section has, exactly the links whose [href] is the
    bare [#] carry it.  The other classes of the links, and every other
    element, are left as they were.  For a whole scroll offset the sum is
    exact; at the double just below 30 it is 130, not less. *)
Theorem active_link_follows_scroll (g : geometry) (at_ : attributes)
  (scrollY : Q) (d : document) :
  (forall link, link ∈ querySelectorAll ["nav-link"] d ->
     ("active" ∈ classList (updateActiveNavLink g at_ scrollY d) link
      <-> href at_ link = Some (hash (currentSection g at_ scrollY))))
  /\ (forall link u, u <> "active" ->
        (u ∈ classList (updateActiveNavLink g at_ scrollY d) link
         <-> u ∈ classList d link))
  /\ (forall e, e ∉ querySelectorAll ["nav-link"] d ->
        forall u, u ∈ classList (updateActiveNavLink g at_ scrollY d) e
                  <-> u ∈ classList d e)
  /\ (forall l1 s l2,
        sections at_ = l1 ++ s :: l2 ->
        in_view g (scrollPosition scrollY) s = true ->
        (forall s', s' ∈ l2 -> in_view g (scrollPosition scrollY) s' = false) ->
        hash (currentSection g at_ scrollY) = "#" +:+ default "null" (id at_ s))
  /\ ((forall s, s ∈ sections at_ ->
                 in_view g (scrollPosition scrollY) s = false) ->
      hash (currentSection g at_ scrollY) = "#")
  /\ (scrollPosition scrollY == round64 (round64 scrollY + 100))%Q
  /\ (forall y : Z, (Z.abs y < 2 ^ 52)%Z ->
        (scrollPosition (inject_Z y) == inject_Z (y + 100))%Q)
  /\ (scrollPosition (30 - 2 ^ (-48)) == 130)%Q
  /\ (30 - 2 ^ (-48) + 100 < 130)%Q.
Proof.
  unfold updateActiveNavLink. repeat apply conj.
  - intros link Hl. rewrite mark_links_spec.
    destruct (decide _); [|contradiction]. split.
    + intros [[H _]|[_ H]]; [congruence | exact H].
    + intros H. right. split; [reflexivity | exact H].
  - intros link u Hu. rewrite mark_links_spec. destruct (decide _); tauto.
  - intros e He u. rewrite mark_links_spec.
    destruct (decide _); [contradiction | reflexivity].
  - intros l1 s l2 E Hs Hl.
    now rewrite (currentSection_last g at_ scrollY l1 s l2 E Hs Hl).
  - intros Hn. now rewrite (currentSection_none g at_ scrollY Hn).
  - reflexivity.
  - apply scrollPosition_whole.
  - apply Qeq_bool_eq. vm_compute. reflexivity.
  - vm_compute. reflexivity.
Qed.

Lemma active_link_follows_scroll_witness :
  14 ∈ querySelectorAll ["nav-link"] DemoNav.nav_page
  /\ href DemoNav.nav_attributes 14
     = Some (hash (currentSection DemoNav.nav_geometry DemoNav.nav_attributes
                     750))
  /\ "active" ∈ classList
       (updateActiveNavLink DemoNav.nav_geometry DemoNav.nav_attributes 750
          DemoNav.nav_page) 14.
Proof.
  assert (H1 : 14 ∈ querySelectorAll ["nav-link"] DemoNav.nav_page).
  { apply list_elem_of_In. vm_compute. right. left. reflexivity. }
  assert (H2 : href DemoNav.nav_attributes 14
               = Some (hash (currentSection DemoNav.nav_geometry
                               DemoNav.nav_attributes 750)))
    by (vm_compute; reflexivity).
  split; [exact H1|]. split; [exact H2|].
  exact (proj2 (proj1 (active_link_follows_scroll DemoNav.nav_geometry
                         DemoNav.nav_attributes 750 DemoNav.nav_page)
                      14 H1) H2).
Defined.

End ActiveLink.

(** ** Start-up of the main script *)

Section StartingUp.
Import Dom Browser Startup.






(** X18: the start-up listener of the main script never gets past
    [new PortfolioApp()].  On every page and in every browser the
    constructor raises a [TypeError], so the listener is left there: the
    page is as it was, the footer keeps its year, the performance and
    error listeners are not bound and the style element with the colours
    of the field markers is not added. *)
Theorem startup_listener_is_cut_short (hasIO : bool)
  (mk : PortfolioApp.markup) (footer : option elem) (currentYear : string)
  (d : document) :
  on_content_loaded hasIO mk footer currentYear d
  = {| page_left := d; monitors_bound := false; globalStyles := None;
       raised := Some TypeError |}.
Proof.
  unfold on_content_loaded.
  destruct (construct_stops hasIO d mk) as (E & _). rewrite E. reflexivity.
Qed.

End StartingUp.

(** ** The life of a reveal *)

Section RevealTimeline.
Import Dom Browser Program Notions Loop.
Import ScrollAnimator.

Lemma stagger_below_30 (top : Q) :
  (0 <= timeout_ms (stagger top) <= 29)%Z.
Proof.
  unfold timeout_ms. split; [lia|].
  assert (H : (Qtrunc (stagger top) < 30)%Z); [|lia].
  apply Qtrunc_below; [lia|].
  eapply Qle_lt_trans; [apply stagger_double_below_30|]. reflexivity.
Qed.

Lemma contains_add_other (e e' : elem) (ts : list string) (u : string)
  (d : document) :
  u ∉ ts -> contains (classList_add e ts d) e' u = contains d e' u.
Proof.
  intros Hu. unfold contains. rewrite classList_classList_add.
  destruct (decide (e = e')) as [->|]; [|reflexivity].
  apply bool_decide_ext. rewrite elem_of_tokens_add. tauto.
Qed.

Lemma directional_after_reveal (el : elem) (d : document) :
  existsb (contains (classList_add el ["animate-visible"] d) el) directional
  = existsb (contains d el) directional.
Proof.
  unfold directional. cbn [existsb].
  rewrite !contains_add_other; [reflexivity|..];
    (intros H; apply list_elem_of_singleton in H; discriminate H).
Qed.

(** X19: the life of a reveal, on a page with nothing else pending.  An
    element reported as intersecting carries [animate-visible] less than
    30 ms later, whatever its offset.  If it has one of the four
    directional classes, its transform is set to [none] exactly 600 ms
    after that, and nothing is left pending; if it has none, nothing
    follows the reveal and no transform is written. *)
Theorem reveal_timeline (el : elem) (top : Q) (b : browser) :
  timers b = [] ->
  (now b <= now (ticks 1 (handleIntersect el top b)) <= now b + 29)%Z
  /\ shows (ticks 1 (handleIntersect el top b)) el
  /\ (existsb (contains (page b) el) directional = true ->
      now (ticks 2 (handleIntersect el top b))
      = (now (ticks 1 (handleIntersect el top b)) + 600)%Z
      /\ transform (page (ticks 2 (handleIntersect el top b))) !! el
         = Some "none"
      /\ timers (ticks 2 (handleIntersect el top b)) = [])
  /\ (existsb (contains (page b) el) directional = false ->
      timers (ticks 1 (handleIntersect el top b)) = []
      /\ transform (page (ticks 1 (handleIntersect el top b)))
         = transform (page b)).
Proof.
  intros Hidle.
  pose proof (stagger_below_30 top) as Hd.
  set (ms := timeout_ms (stagger top)) in *.
  set (b0 := handleIntersect el top b).
  assert (T0 : timers b0 = [{| due := now b + ms; act := AReveal el |}]).
  { subst b0. unfold handleIntersect. cbn [setTimeout timers].
    rewrite Hidle. reflexivity. }
  change (ticks 1 b0) with (tick b0).
  change (ticks 2 b0) with (tick (tick b0)).
  assert (E1 : tick b0
               = reveal el {| page := page b; timers := [];
                              now := Z.max (now b) (now b + ms);
                              calls := calls b0;
                              hasIntersectionObserver :=
                                hasIntersectionObserver b |}).
  { rewrite (tick_one _ b0 T0). reflexivity. }
  split.
  { rewrite E1. unfold reveal. cbn [set_page page].
    destruct (existsb _ _); cbn [setTimeout set_page now]; lia. }
  split.
  { rewrite E1. apply (fire_reveals el). }
  unfold reveal in E1. cbn [set_page page] in E1.
  rewrite directional_after_reveal in E1.
  split; intros D; rewrite D in E1.
  - cbn [setTimeout timers now page calls] in E1.
    change (timeout_ms 600) with 600%Z in E1. cbn [List.app] in E1.
    set (b1 := tick b0) in *.
    assert (T1 : timers b1 = [{| due := Z.max (now b) (now b + ms) + 600;
                                 act := ASettle el |}])
      by (rewrite E1; reflexivity).
    rewrite (tick_one _ b1 T1). cbn [act due fire].
    unfold settle. cbn [set_page page now timers set_transform transform].
    rewrite E1. cbn [now setTimeout set_page]. split; [lia|].
    split; [|reflexivity].
    apply lookup_insert_eq.
  - rewrite E1. split; reflexivity.
Qed.

Lemma reveal_timeline_witness :
  timers Demo.demo_valid = []
  /\ shows (ticks 1 (handleIntersect 1 350 Demo.demo_valid)) 1
  /\ transform (page (ticks 2 (handleIntersect 1 350 Demo.demo_valid))) !! 1
     = Some "none".
Proof.
  split; [reflexivity|].
  destruct (reveal_timeline 1 350 Demo.demo_valid eq_refl)
    as (_ & S & D & _).
  split; [exact S|].
  apply D. vm_compute. reflexivity.
Defined.

End RevealTimeline.

(** ** A submission from beginning to end *)

Section FormRoundTrip.
Import JsString Regex Dom Browser Program Notions Loop Slots Marks.
Import PortfolioApp.











End FormRoundTrip.

(** ** Start-up of animation.js *)

Section AnimationStartingUp.
Import Dom Browser AnimationStartup.
Import ScrollAnimator.

Lemma querySelectorAll_new sel d d' n l :
  attached d' = attached d ++ [n] ->
  n ∉ attached d ->
  classes d' = <[n := l]> (classes d) ->
  (forall t, t ∈ l -> t ∉ sel) ->
  querySelectorAll sel d' = querySelectorAll sel d.
Proof.
  intros A Hn C Hl. unfold querySelectorAll. rewrite A, List.filter_app.
  cbn [List.filter].
  assert (X : has_any_class d' sel n = false).
  { unfold has_any_class. apply not_true_is_false. intros H.
    apply existsb_exists in H. destruct H as (u & Hu & Hc).
    unfold contains, classList in Hc. rewrite C, lookup_insert_eq in Hc.
    cbn [default] in Hc. apply bool_decide_eq_true in Hc.
    apply (Hl u Hc). now apply list_elem_of_In. }
  rewrite X, app_nil_r. apply List_filter_ext_in. intros e He.
  apply (has_class_insert_other d d' n l); [exact C|].
  intros ->. apply Hn. now apply list_elem_of_In.
Qed.

Lemma querySelectorAll_detached sel d d' n l :
  attached d' = attached d ->
  n ∉ attached d ->
  classes d' = <[n := l]> (classes d) ->
  querySelectorAll sel d' = querySelectorAll sel d.
Proof.
  intros A Hn C. unfold querySelectorAll. rewrite A.
  apply List_filter_ext_in. intros e He.
  apply (has_class_insert_other d d' n l); [exact C|].
  intros ->. apply Hn. now apply list_elem_of_In.
Qed.

Lemma created_in_body ts d :
  (fresh (known d) ∉ attached d)
  /\ attached (appendToBody (fresh (known d)) (snd (createElement ts d)))
     = attached d ++ [fresh (known d)]
  /\ classes (appendToBody (fresh (known d)) (snd (createElement ts d)))
     = <[fresh (known d) := tokens_add ts []]> (classes d).
Proof.
  assert (H : fresh (known d) ∉ attached d) by apply fresh_not_attached.
  split; [exact H|]. unfold createElement.
  cbn [snd appendToBody set_attached set_classes attached classes].
  rewrite filter_ne_absent by exact H. split; reflexivity.
Qed.

Lemma addScrollProgress_spec d :
  (fst (addScrollProgress d) ∉ attached d)
  /\ attached (snd (addScrollProgress d))
     = attached d ++ [fst (addScrollProgress d)]
  /\ classes (snd (addScrollProgress d))
     = <[fst (addScrollProgress d) := ["scroll-progress"]]> (classes d).
Proof. exact (created_in_body ["scroll-progress"] d). Qed.

Lemma createCustomCursor_spec d :
  (fst (createCustomCursor d) ∉ attached d)
  /\ attached (snd (createCustomCursor d))
     = attached d ++ [fst (createCustomCursor d)]
  /\ classes (snd (createCustomCursor d))
     = <[fst (createCustomCursor d) := ["custom-cursor"]]> (classes d).
Proof. exact (created_in_body ["custom-cursor"] d). Qed.

Lemma not_an_intent (t : string) :
  t = "scroll-progress" \/ t = "custom-cursor" ->
  forall u, u ∈ [t] -> u ∉ intents.
Proof.
  intros Ht u Hu. apply list_elem_of_singleton in Hu. subst u.
  intros H. apply list_elem_of_In in H. unfold intents in H. cbn [In] in H.
  destruct Ht as [-> | ->];
    repeat (destruct H as [H|H]; [discriminate H|]); exact H.
Qed.

(** X21: animation.js starts all of its components or none.  In a
    browser without [IntersectionObserver] the listener is left by the
    [ReferenceError] of the first constructor: no hover effects are bound
    and neither progress bar nor custom cursor is created.  Otherwise it
    returns; the body gains the progress bar and, if the pointer is fine,
    the custom cursor after it, both new; and neither of them, nor the
    style element, is an element the animator will ever sweep up. *)
Theorem animation_startup_all_or_nothing (pointerFine : bool) (b : browser) :
  (hasIntersectionObserver b = false ->
   on_content_loaded pointerFine b = Throw ReferenceError)
  /\ (hasIntersectionObserver b = true ->
      exists c b',
        on_content_loaded pointerFine b = Ok (c, b')
        /\ interactions_bound c = true
        /\ (progressBar c ∉ attached (page b))
        /\ (cursor c = None <-> pointerFine = false)
        /\ attached (page b')
           = attached (page b) ++ [progressBar c]
             ++ match cursor c with Some x => [x] | None => [] end
        /\ querySelectorAll intents (page b')
           = querySelectorAll intents (page b)
        /\ timers b' = timers b).
Proof.
  unfold on_content_loaded, construct, createObserver.
  split; intros H; rewrite H; [reflexivity|].
  cbn [bind].
  destruct (addScrollProgress_spec (page b)) as (Hp & Ap & Cp).
  destruct (addScrollProgress (page b)) as [p d1]. cbn [fst snd] in *.
  assert (Q1 : querySelectorAll intents d1
               = querySelectorAll intents (page b)).
  { apply (querySelectorAll_new intents (page b) d1 p ["scroll-progress"]);
      auto. apply not_an_intent. now left. }
  unfold cursorEffects. destruct pointerFine.
  - destruct (createCustomCursor_spec d1) as (Hq & Aq & Cq).
    destruct (createCustomCursor d1) as [q d2]. cbn [fst snd] in *.
    assert (Q2 : querySelectorAll intents d2 = querySelectorAll intents d1).
    { apply (querySelectorAll_new intents d1 d2 q ["custom-cursor"]); auto.
      apply not_an_intent. now right. }
    destruct (createElement [] d2) as [s d3] eqn:E3.
    pose proof E3 as E3'.
    apply createElement_spec in E3' as (Hs & C3 & A3 & _).
    eexists _, _. split; [reflexivity|].
    cbn [interactions_bound progressBar cursor page set_page timers].
    split; [reflexivity|]. split; [exact Hp|].
    split; [split; discriminate|].
    split; [rewrite A3, Aq, Ap, <- app_assoc; reflexivity|].
    split; [|reflexivity].
    rewrite <- Q1, <- Q2.
    apply (querySelectorAll_detached intents d2 d3 s (tokens_add [] []));
      [exact A3 | | exact C3].
    intros Hin. apply Hs. unfold known.
    rewrite !elem_of_union, elem_of_list_to_set. tauto.
  - destruct (createElement [] d1) as [s d3] eqn:E3.
    pose proof E3 as E3'.
    apply createElement_spec in E3' as (Hs & C3 & A3 & _).
    eexists _, _. split; [reflexivity|].
    cbn [interactions_bound progressBar cursor page set_page timers].
    split; [reflexivity|]. split; [exact Hp|].
    split; [split; reflexivity|].
    split; [rewrite A3, Ap, app_nil_r; reflexivity|].
    split; [|reflexivity].
    rewrite <- Q1.
    apply (querySelectorAll_detached intents d1 d3 s (tokens_add [] []));
      [exact A3 | | exact C3].
    intros Hin. apply Hs. unfold known.
    rewrite !elem_of_union, elem_of_list_to_set. tauto.
Qed.

Lemma animation_startup_all_or_nothing_witness :
  on_content_loaded true (Program.env Demo.demo_no_observer)
  = Throw ReferenceError.
Proof.
  apply (proj1 (animation_startup_all_or_nothing true
                  (Program.env Demo.demo_no_observer))).
  vm_compute. reflexivity.
Defined.

End AnimationStartingUp.

(** ** The first sweep *)

Section FirstSweep.
Import Dom Browser Program Notions Watch Lifecycle.
Import ScrollAnimator.

(** X22: the page is first swept on a resize, not on load.  The
    animator is built by a [DOMContentLoaded] listener and registers its
    own [DOMContentLoaded] listener while that event is being dispatched,
    so this listener does not run.  After [DOMContentLoaded] and [load]
    the observer watches no element and [observe] was never called;
    the first resize makes it watch every element of the page that has
    one of the six animation classes. *)
Theorem first_sweep_waits_for_resize (d : document) (el : elem) :
  observed (world_of (dispatch LoadEvent
                        (dispatch DOMContentLoaded (loaded_script d true))))
           el = false
  /\ registrations el
       (world_of (dispatch LoadEvent
                    (dispatch DOMContentLoaded (loaded_script d true)))) = 0
  /\ registry (dispatch LoadEvent
                 (dispatch DOMContentLoaded (loaded_script d true)))
     = [(DOMContentLoaded, StartUp); (DOMContentLoaded, SweepOn);
        (Resize, SweepOn); (LoadEvent, HeroOn)]
  /\ (el ∈ querySelectorAll intents d ->
      observed (world_of (dispatch Resize
                            (dispatch LoadEvent
                               (dispatch DOMContentLoaded
                                  (loaded_script d true)))))
               el = true).
Proof.
  set (w1 := step NewScrollAnimator (initial d true)).
  assert (E1 : dispatch DOMContentLoaded (loaded_script d true)
               = {| world_of := w1;
                    registry := [(DOMContentLoaded, StartUp);
                                 (DOMContentLoaded, SweepOn);
                                 (Resize, SweepOn); (LoadEvent, HeroOn)] |})
    by reflexivity.
  rewrite E1.
  assert (E2 : dispatch LoadEvent
                 {| world_of := w1;
                    registry := [(DOMContentLoaded, StartUp);
                                 (DOMContentLoaded, SweepOn);
                                 (Resize, SweepOn); (LoadEvent, HeroOn)] |}
               = {| world_of := step Load w1;
                    registry := [(DOMContentLoaded, StartUp);
                                 (DOMContentLoaded, SweepOn);
                                 (Resize, SweepOn); (LoadEvent, HeroOn)] |})
    by reflexivity.
  rewrite E2. cbn [world_of registry].
  assert (A : animator (step Load w1) = animator w1)
    by exact (animator_step Load w1).
  assert (P : page (env (step Load w1))
              = classList_add body ["page-loaded"] d).
  { change (step Load w1)
      with (with_env (PageTransitions.on_load (on_load (env w1))) w1).
    cbn [with_env env]. unfold PageTransitions.on_load.
    cbn [setTimeout page set_page].
    rewrite (proj1 (on_load_spec (env w1))). reflexivity. }
  split.
  { unfold observed. rewrite A. reflexivity. }
  split.
  { rewrite (quiet_registrations w1 (step Load w1) el).
    - reflexivity.
    - exact (quiet_step Load w1). }
  split; [reflexivity|].
  intros Hel.
  change (dispatch Resize
            {| world_of := step Load w1;
               registry := [(DOMContentLoaded, StartUp);
                            (DOMContentLoaded, SweepOn);
                            (Resize, SweepOn); (LoadEvent, HeroOn)] |})
    with {| world_of := step Sweep (step Load w1);
            registry := [(DOMContentLoaded, StartUp);
                         (DOMContentLoaded, SweepOn);
                         (Resize, SweepOn); (LoadEvent, HeroOn)] |}.
  cbn [world_of].
  destruct (ready_sweep (step Load w1)) as (_ & _ & H).
  - apply ready_step. apply ready_new.
  - apply H. rewrite P. revert Hel. unfold querySelectorAll.
    cbn [classList_add set_classes attached].
    rewrite !list_elem_of_In, !filter_In. intros [Ha Hc].
    split; [exact Ha|]. rewrite <- Hc.
    unfold has_any_class, intents. cbn [existsb].
    rewrite !contains_add_other; [reflexivity|..];
      (intros K; apply list_elem_of_singleton in K; discriminate K).
Qed.

End FirstSweep.

(** ** Scrolling *)

Section Scrolling.
Import Dom Double SmoothScroll NavHighlight ScrollEffects.

Lemma mark_links_rest at_ cur l :
  forall d,
    attached (fold_left (mark_link at_ cur) l d) = attached d
    /\ transform (fold_left (mark_link at_ cur) l d) = transform d.
Proof.
  induction l as [|x l IH]; intros d; cbn [fold_left]; [split; reflexivity|].
  destruct (IH (mark_link at_ cur d x)) as [A T]. rewrite A, T.
  unfold mark_link. destruct (bool_decide _); split; reflexivity.
Qed.

Lemma querySelectorAll_same sel d d' :
  attached d' = attached d ->
  (forall e u, u ∈ sel -> (u ∈ classList d' e <-> u ∈ classList d e)) ->
  querySelectorAll sel d' = querySelectorAll sel d.
Proof.
  intros A C. unfold querySelectorAll. rewrite A.
  apply List_filter_ext_in. intros e _. unfold has_any_class.
  induction sel as [|u sel IH]; [reflexivity|]. cbn [existsb]. f_equal.
  - unfold contains. apply bool_decide_ext. apply C, list_elem_of_here.
  - apply IH. intros e' u' Hu. apply C. now apply list_elem_of_further.
Qed.

Lemma on_scroll_keeps g at_ nb sd y :
  attached (snd (on_scroll g at_ (Some nb) sd y)) = attached (snd sd)
  /\ (forall e u, u <> "active" ->
        (u ∈ classList (snd (on_scroll g at_ (Some nb) sd y)) e
         <-> u ∈ classList (snd sd) e))
  /\ lastScrollY (fst (on_scroll g at_ (Some nb) sd y)) = round64 y.
Proof.
  unfold on_scroll, updateActiveNavLink. cbn [fst snd lastScrollY].
  match goal with
  | |- context [fold_left (mark_link at_ ?c) ?l ?d] =>
      destruct (mark_links_rest at_ c l d) as [A _];
      pose proof (fun e u => mark_links_spec at_ c l d e u) as K
  end.
  split; [rewrite A; reflexivity|]. split; [|reflexivity].
  intros e u Hu. rewrite K. destruct (decide _); [|reflexivity].
  split; [intros [[_ H]|[H _]]; [exact H | contradiction] | intros H; left; auto].
Qed.

Lemma last_cons {A} (y : A) (ys : list A) (dflt : A) :
  List.last (y :: ys) dflt = List.last ys y.
Proof.
  revert y dflt. induction ys as [|z ys IH]; intros y dflt; [reflexivity|].
  transitivity (List.last (z :: ys) dflt); [reflexivity|].
  rewrite (IH z dflt). symmetry. apply IH.
Qed.

Lemma scrolled_keeps g at_ nb ys :
  forall sd,
    attached (snd (scrolled g at_ (Some nb) ys sd)) = attached (snd sd)
    /\ (forall e u, u <> "active" ->
          (u ∈ classList (snd (scrolled g at_ (Some nb) ys sd)) e
           <-> u ∈ classList (snd sd) e))
    /\ lastScrollY (fst (scrolled g at_ (Some nb) ys sd))
       = List.last (map round64 ys) (lastScrollY (fst sd)).
Proof.
  unfold scrolled.
  induction ys as [|y ys IH]; intros sd; cbn [fold_left].
  - split; [reflexivity|]. split; [reflexivity|]. reflexivity.
  - destruct (IH (on_scroll g at_ (Some nb) sd y)) as (A & C & L).
    destruct (on_scroll_keeps g at_ nb sd y) as (A1 & C1 & L1).
    split; [rewrite A; exact A1|]. split.
    + intros e u Hu. rewrite (C e u Hu). apply C1, Hu.
    + rewrite L, L1. cbn [map]. symmetry. apply last_cons.
Qed.

(** X23: what scrolling leaves behind.  The listener compares the
    doubles [window.scrollY] reports.  After any sequence of scroll
    events ending at position [y], on a page with a navigation bar: the
    bar is hidden exactly if the last move went down and ended below
    100 pixels, so any move up shows it again; its background is the
    opaque one exactly if [y] is beyond 50; and a navigation link is
    highlighted exactly if it points to the section current at [y], the
    one that has the sum of [y] and 100, taken in doubles, in it,
    whatever was highlighted before.  On a page without a navigation bar
    the listener does nothing, the highlighting included. *)
Theorem scrolling_shows_the_last_position (g : geometry) (at_ : attributes)
  (nb : elem) (ys : list Q) (y : Q) (s : scroll_state) (d : document) :
  transform (snd (scrolled g at_ (Some nb) (ys ++ [y]) (s, d))) !! nb
  = Some (if gt (round64 y) (List.last (map round64 ys) (lastScrollY s))
             && gt (round64 y) 100
          then "translateY(-100%)" else "translateY(0)")
  /\ lastScrollY (fst (scrolled g at_ (Some nb) (ys ++ [y]) (s, d)))
     = round64 y
  /\ background (fst (scrolled g at_ (Some nb) (ys ++ [y]) (s, d)))
     = Some (if gt (round64 y) 50 then "rgba(13, 13, 13, 0.95)"
             else "rgba(13, 13, 13, 0.9)")
  /\ (forall link, link ∈ querySelectorAll ["nav-link"] d ->
        ("active" ∈ classList
           (snd (scrolled g at_ (Some nb) (ys ++ [y]) (s, d))) link
         <-> href at_ link = Some (hash (currentSection g at_ y))))
  /\ (forall l1 sec l2,
        sections at_ = l1 ++ sec :: l2 ->
        in_view g (round64 (round64 y + 100)) sec = true ->
        (forall s', s' ∈ l2 ->
                    in_view g (round64 (round64 y + 100)) s' = false) ->
        currentSection g at_ y = id at_ sec)
  /\ attached (snd (scrolled g at_ (Some nb) (ys ++ [y]) (s, d))) = attached d
  /\ scrolled g at_ None (ys ++ [y]) (s, d) = (s, d).
Proof.
  destruct (scrolled_keeps g at_ nb ys (s, d)) as (A & C & L).
  cbn [fst snd] in A, C, L.
  unfold scrolled in *. rewrite fold_left_app. cbn [fold_left].
  remember (fold_left (on_scroll g at_ (Some nb)) ys (s, d)) as sd eqn:Esd.
  assert (Q : querySelectorAll ["nav-link"] (snd sd)
              = querySelectorAll ["nav-link"] d).
  { apply querySelectorAll_same; [exact A|].
    intros e u Hu. apply list_elem_of_singleton in Hu. subst u.
    apply C. discriminate. }
  unfold on_scroll, updateActiveNavLink. cbn [fst snd lastScrollY background].
  change (querySelectorAll ["nav-link"] (set_transform ?f ?x))
    with (querySelectorAll ["nav-link"] x).
  rewrite Q, L.
  match goal with
  | |- context [fold_left (mark_link at_ ?c) ?l ?d0] =>
      destruct (mark_links_rest at_ c l d0) as [A1 T1];
      pose proof (fun e u => mark_links_spec at_ c l d0 e u) as K
  end.
  split; [rewrite T1; cbn [set_transform transform]; apply lookup_insert_eq|].
  split; [reflexivity|]. split; [reflexivity|]. split.
  { intros link Hl. rewrite K. destruct (decide _); [|contradiction].
    split.
    - intros [[H _]|[_ H]]; [congruence | exact H].
    - intros H. right. split; [reflexivity | exact H]. }
  split.
  { intros l1 sec l2 E Hs Hl.
    exact (currentSection_last g at_ y l1 sec l2 E Hs Hl). }
  split; [rewrite A1; exact A|].
  clear. induction (ys ++ [y]) as [|z l IH]; [reflexivity|].
  cbn [fold_left on_scroll]. exact IH.
Qed.

Lemma scrolling_shows_the_last_position_witness :
  transform (snd (scrolled DemoNav.nav_geometry DemoNav.nav_attributes
                    (Some 12) ([0%Q; 400%Q] ++ [900%Q])
                    ({| lastScrollY := 0%Q; background := None;
                        backdropFilter := None |}, DemoNav.nav_page))) !! 12
  = Some "translateY(-100%)"
  /\ "active" ∈ classList
       (snd (scrolled DemoNav.nav_geometry DemoNav.nav_attributes
               (Some 12) ([0%Q; 400%Q] ++ [900%Q])
               ({| lastScrollY := 0%Q; background := None;
                   backdropFilter := None |}, DemoNav.nav_page))) 14.
Proof.
  destruct (scrolling_shows_the_last_position DemoNav.nav_geometry
              DemoNav.nav_attributes 12 [0%Q; 400%Q] 900%Q
              {| lastScrollY := 0%Q; background := None;
                 backdropFilter := None |} DemoNav.nav_page)
    as (T & _ & _ & H & _).
  split; [vm_compute in T |- *; exact T|].
  apply H.
  - apply list_elem_of_In. vm_compute. right. left. reflexivity.
  - vm_compute. reflexivity.
Defined.

End Scrolling.
